(** * The logging middleware: a shallow embedding of the TypeScript sources

    The development follows the source files one module per class:
    [LogBuffer] (utils/LogBuffer), [StorageAdapter], [ConsoleAdapter],
    [RemoteAdapter], [SessionManager], [Logger] (core/Logger) and
    [PerformanceTracker], then [LogFilter], [LogFormatter]
    (formatters/LogFormatter) and [WebVitals] (the ratings of
    PerformanceTracker).
    The browser objects the classes talk to (localStorage, sessionStorage,
    console, window, document, timers) are fields of one [World] record
    that is threaded through the methods; a method that may throw returns
    a [Completion]. *)

From Stdlib Require Import ZArith QArith Lia.
From stdpp Require Import gmap strings list sorting pretty.

(* ===================================================================== *)
(** ** JavaScript values that the code throws, catches and passes on      *)
(* ===================================================================== *)

(** A thrown value.  [ref] is the heap address of the object, so that two
    values are equal only if they are the same object. *)
Inductive JsValue : Type :=
  | VError (ref : nat) (name message : string)   (* instanceof Error *)
  | VOther (ref : nat) (repr : string).          (* anything else    *)

Definition instanceof_Error (v : JsValue) : bool :=
  match v with VError _ _ _ => true | VOther _ _ => false end.

Definition error_name (v : JsValue) : option string :=
  match v with VError _ n _ => Some n | VOther _ _ => None end.

(** Truthiness of a value that is a number, a string, or [undefined]. *)
Definition truthy_number (o : option Z) : bool :=
  match o with Some z => negb (z =? 0)%Z | None => false end.
Definition truthy_string (o : option string) : bool :=
  match o with Some e => negb (bool_decide (e = "")) | None => false end.

(** The result of running a statement or a call. *)
Inductive Completion (A : Type) : Type :=
  | Normal (a : A)
  | Throw (v : JsValue).
Arguments Normal {A} a.
Arguments Throw {A} v.

(** Code that reads and writes a state [S] and may throw. *)
Definition M (S A : Type) : Type := S -> Completion A * S.

Definition ret {S A} (a : A) : M S A := fun s => (Normal a, s).
Definition throw {S A} (v : JsValue) : M S A := fun s => (Throw v, s).
Definition bind {S A B} (m : M S A) (k : A -> M S B) : M S B :=
  fun s => match m s with
           | (Normal a, s') => k a s'
           | (Throw v, s') => (Throw v, s')
           end.
Definition try_catch {S A} (body : M S A) (handler : JsValue -> M S A) : M S A :=
  fun s => match body s with
           | (Normal a, s') => (Normal a, s')
           | (Throw v, s') => handler v s'
           end.
Definition get {S} : M S S := fun s => (Normal s, s).
Definition modify {S} (f : S -> S) : M S unit := fun s => (Normal tt, f s).
Definition when {S} (b : bool) (m : M S unit) : M S unit :=
  if b then m else ret tt.

Declare Scope js_scope.
Delimit Scope js_scope with js.
Notation "x <- c ;; k" := (bind c (fun x => k))
  (at level 100, c at next level, right associativity) : js_scope.
Notation "c ;; k" := (bind c (fun _ => k))
  (at level 100, right associativity) : js_scope.

(* ===================================================================== *)
(** ** types.ts                                                           *)
(* ===================================================================== *)

Inductive LogLevel : Type := DEBUG | INFO | WARN | ERROR | FATAL.

Definition LogLevel_eqb (a b : LogLevel) : bool :=
  match a, b with
  | DEBUG, DEBUG | INFO, INFO | WARN, WARN | ERROR, ERROR | FATAL, FATAL => true
  | _, _ => false
  end.

(** A value of the metadata bag ([Record<string, any>]), as far as the
    sources build one. *)
Inductive MetaValue : Type :=
  | MetaText (s : string)
  | MetaNumber (z : Z)
  | MetaFixed2Ms (z : Z)          (* `${duration.toFixed(2)}ms` *)
  | MetaThrown (v : JsValue)
  | MetaUndefined.

Record LogEntry : Type := mkLogEntry {
  le_id : string;
  le_timestamp : Z;               (* Date, as milliseconds since the epoch *)
  le_level : LogLevel;
  le_message : string;
  le_component : option string;
  le_userId : option string;
  le_sessionId : option string;
  le_metadata : option (list (string * MetaValue));
  le_stack : option string;
  le_url : option string;
  le_userAgent : option string
}.

Record LoggerConfig : Type := mkLoggerConfig {
  cfg_level : LogLevel;
  enableConsole : bool;
  enableStorage : bool;
  enableRemote : bool;
  maxStorageEntries : Z;
  remoteEndpoint : option string;
  cfg_sessionId : option string;
  cfg_userId : option string;
  bufferSize : Z;
  flushInterval : Z
}.

(** [Partial<LoggerConfig>]: every field may be absent. *)
Record PartialConfig : Type := mkPartialConfig {
  p_level : option LogLevel;
  p_enableConsole : option bool;
  p_enableStorage : option bool;
  p_enableRemote : option bool;
  p_maxStorageEntries : option Z;
  p_remoteEndpoint : option string;
  p_sessionId : option string;
  p_userId : option string;
  p_bufferSize : option Z;
  p_flushInterval : option Z
}.

Definition no_overrides : PartialConfig :=
  mkPartialConfig None None None None None None None None None None.

(** Object spread [{ ...base, ...over }]. *)
Definition spread (base : LoggerConfig) (over : PartialConfig) : LoggerConfig :=
  {| cfg_level := default (cfg_level base) (p_level over);
     enableConsole := default (enableConsole base) (p_enableConsole over);
     enableStorage := default (enableStorage base) (p_enableStorage over);
     enableRemote := default (enableRemote base) (p_enableRemote over);
     maxStorageEntries := default (maxStorageEntries base) (p_maxStorageEntries over);
     remoteEndpoint := match p_remoteEndpoint over with
                       | Some e => Some e | None => remoteEndpoint base end;
     cfg_sessionId := match p_sessionId over with
                      | Some e => Some e | None => cfg_sessionId base end;
     cfg_userId := match p_userId over with
                   | Some e => Some e | None => cfg_userId base end;
     bufferSize := default (bufferSize base) (p_bufferSize over);
     flushInterval := default (flushInterval base) (p_flushInterval over) |}.

(* ===================================================================== *)
(** ** The browser                                                        *)
(* ===================================================================== *)

Inductive ConsoleMethod : Type :=
  | c_debug | c_info | c_warn | c_error | c_log.

(** One call on the console.  The adapter's formatted line for an entry is
    kept as the entry itself: the text is a function of it. *)
Inductive ConsoleCall : Type :=
  | ConsoleEntry (m : ConsoleMethod) (e : LogEntry)
  | ConsoleStack (stack : string)
  | ConsoleMetadata (e : LogEntry) (md : list (string * MetaValue))
  | ConsoleText (m : ConsoleMethod) (text : string) (arg : option JsValue).

(** One call on localStorage under the adapter's key. *)
Inductive StorageCall : Type :=
  | SetItem (value : list LogEntry) (accepted : bool)
  | RemoveItem.

(** A listener installed with [addEventListener]; [owner] is the object
    whose method the closure calls. *)
Record Listener : Type := mkListener {
  l_event : string;
  l_owner : nat
}.

(** The object that the session manager keeps in sessionStorage.
    [sd_startTime] is what [new Date(session.startTime)] gives, in
    milliseconds since the epoch, [None] for an invalid date. *)
Record SessionData : Type := mkSessionData {
  sd_id : string;
  sd_startTime : option Z;
  sd_userAgent : string;
  sd_url : string;
  sd_lastActivity : option Z;
  sd_lastActivityType : option string
}.

(** What [JSON.parse] returns: an object, or a number, a string or a
    boolean, whose properties all read as [undefined]. *)
Inductive Json : Type :=
  | Primitive
  | Object (session : SessionData).

(** A stored string: [JSON.parse] throws on it (or returns [null], the
    reading of whose property throws), or returns a value. *)
Inductive Stored : Type :=
  | Unparsable (error : JsValue)
  | Parsed (value : Json).

(** The state of the browser.  The stored item is kept in parsed form: an
    entry is modelled as it reads back from its JSON text.  Numbers are
    integers throughout (sizes, milliseconds, clock ticks). *)
Record World : Type := mkWorld {
  (** localStorage['logging_middleware_entries'], parsed *)
  ls_item : option (list LogEntry);
  (** what serialising and writing a list does: [None] accepts it,
      [Some v] throws [v] (quota, a value that does not serialise, ...) *)
  ls_write : list LogEntry -> option JsValue;
  ls_read_fault : option JsValue;      (* getItem / JSON.parse throws *)
  ls_remove_fault : option JsValue;    (* removeItem throws *)
  ls_calls : list StorageCall;         (* writes issued so far, oldest first *)
  console : list ConsoleCall;          (* console output, oldest first *)
  (** a console method missing on the host makes the adapter throw *)
  console_fault : LogEntry -> option JsValue;
  listeners : list Listener;           (* listeners of the window *)
  timers : list nat;                   (* active interval timers *)
  next_timer : nat;
  js_stack : nat;                      (* nested calls the engine still allows *)
  (** sessionStorage['logging_middleware_session']: [None] where there is
      no item or it is the empty string *)
  ss_item : option Stored;
  ss_read_fault : option JsValue;      (* sessionStorage.getItem throws *)
  ss_write_fault : option JsValue;     (* sessionStorage.setItem throws *)
  ss_remove_fault : option JsValue;    (* sessionStorage.removeItem throws *)
  doc_listeners : list Listener        (* listeners of the document *)
}.

Definition set_ls_item (v : option (list LogEntry)) (w : World) : World :=
  mkWorld v (ls_write w) (ls_read_fault w) (ls_remove_fault w) (ls_calls w)
          (console w) (console_fault w) (listeners w) (timers w) (next_timer w)
          (js_stack w) (ss_item w) (ss_read_fault w) (ss_write_fault w)
          (ss_remove_fault w) (doc_listeners w).
Definition add_ls_call (c : StorageCall) (w : World) : World :=
  mkWorld (ls_item w) (ls_write w) (ls_read_fault w) (ls_remove_fault w)
          (ls_calls w ++ [c])
          (console w) (console_fault w) (listeners w) (timers w) (next_timer w)
          (js_stack w) (ss_item w) (ss_read_fault w) (ss_write_fault w)
          (ss_remove_fault w) (doc_listeners w).
Definition add_console (cs : list ConsoleCall) (w : World) : World :=
  mkWorld (ls_item w) (ls_write w) (ls_read_fault w) (ls_remove_fault w)
          (ls_calls w)
          (console w ++ cs) (console_fault w) (listeners w) (timers w)
          (next_timer w) (js_stack w) (ss_item w) (ss_read_fault w) (ss_write_fault w)
          (ss_remove_fault w) (doc_listeners w).
Definition add_listener (l : Listener) (w : World) : World :=
  mkWorld (ls_item w) (ls_write w) (ls_read_fault w) (ls_remove_fault w)
          (ls_calls w)
          (console w) (console_fault w) (listeners w ++ [l]) (timers w)
          (next_timer w) (js_stack w) (ss_item w) (ss_read_fault w) (ss_write_fault w)
          (ss_remove_fault w) (doc_listeners w).
Definition set_timers (ts : list nat) (n : nat) (w : World) : World :=
  mkWorld (ls_item w) (ls_write w) (ls_read_fault w) (ls_remove_fault w)
          (ls_calls w)
          (console w) (console_fault w) (listeners w) ts n (js_stack w)
          (ss_item w) (ss_read_fault w) (ss_write_fault w)
          (ss_remove_fault w) (doc_listeners w).
Definition set_ss_item (v : option Stored) (w : World) : World :=
  mkWorld (ls_item w) (ls_write w) (ls_read_fault w) (ls_remove_fault w)
          (ls_calls w)
          (console w) (console_fault w) (listeners w) (timers w) (next_timer w)
          (js_stack w) v (ss_read_fault w) (ss_write_fault w)
          (ss_remove_fault w) (doc_listeners w).
Definition add_doc_listener (l : Listener) (w : World) : World :=
  mkWorld (ls_item w) (ls_write w) (ls_read_fault w) (ls_remove_fault w)
          (ls_calls w)
          (console w) (console_fault w) (listeners w) (timers w) (next_timer w)
          (js_stack w) (ss_item w) (ss_read_fault w) (ss_write_fault w)
          (ss_remove_fault w) (doc_listeners w ++ [l]).

Definition console_call {S} (lift : (World -> World) -> S -> S)
    (m : ConsoleMethod) (text : string) (arg : option JsValue) : M S unit :=
  modify (lift (add_console [ConsoleText m text arg])).

(** [setInterval]: a fresh id, now active. *)
Definition setInterval (w : World) : nat * World :=
  (next_timer w, set_timers (timers w ++ [next_timer w]) (S (next_timer w)) w).
Definition clearInterval (t : nat) (w : World) : World :=
  set_timers (filter (fun x => x ≠ t) (timers w)) (next_timer w) w.

(** The error the engine raises when the call stack is exhausted. *)
Definition stack_overflow : JsValue :=
  VError 0 "RangeError" "Maximum call stack size exceeded".

(* ===================================================================== *)
(** ** Array methods used by the sources                                  *)
(* ===================================================================== *)

(** [Array.prototype.slice(start)]. *)
Definition slice_from {A} (start : Z) (l : list A) : list A :=
  let len := Z.of_nat (length l) in
  let k := if (start <? 0)%Z then Z.max (len + start) 0 else Z.min start len in
  drop (Z.to_nat k) l.

(** [Array.prototype.splice(0, deleteCount)], the array that remains. *)
Definition splice0 {A} (deleteCount : Z) (l : list A) : list A :=
  drop (Z.to_nat deleteCount) l.

(** [Array.prototype.indexOf] on the array of levels. *)
Fixpoint indexOf_from (i : Z) (x : LogLevel) (l : list LogLevel) : Z :=
  match l with
  | [] => (-1)%Z
  | y :: l' => if LogLevel_eqb y x then i else indexOf_from (i + 1)%Z x l'
  end.
Definition indexOf (l : list LogLevel) (x : LogLevel) : Z := indexOf_from 0 x l.

(* ===================================================================== *)
(** ** utils/LogBuffer.ts                                                 *)
(* ===================================================================== *)

Module LogBuffer.

Record t : Type := mk {
  buffer : list LogEntry;
  maxSize : Z
}.

Definition new (maxSize : Z) : t :=
  {| buffer := []; maxSize := Z.max 1 maxSize |}.

Definition new_default : t := new 50.

Definition add (entry : LogEntry) (b : t) : t :=
  let pushed := buffer b ++ [entry] in
  if (maxSize b <? Z.of_nat (length pushed))%Z
  then {| buffer := tail pushed; maxSize := maxSize b |}
  else {| buffer := pushed; maxSize := maxSize b |}.

Definition flush (b : t) : list LogEntry * t :=
  (buffer b, {| buffer := []; maxSize := maxSize b |}).

Definition peek (b : t) : list LogEntry := buffer b.

Definition clear (b : t) : t := {| buffer := []; maxSize := maxSize b |}.

Definition size (b : t) : nat := length (buffer b).

Definition isFull (b : t) : bool := (maxSize b <=? Z.of_nat (length (buffer b)))%Z.

Definition isEmpty (b : t) : bool := Nat.eqb (length (buffer b)) 0.

Definition getOldest (b : t) : option LogEntry := head (buffer b).

Definition getNewest (b : t) : option LogEntry := last (buffer b).

Definition removeOldest (b : t) : option LogEntry * t :=
  (head (buffer b), {| buffer := tail (buffer b); maxSize := maxSize b |}).

(** The loop [while (buffer.length > maxSize) buffer.shift()]. *)
Fixpoint trim (m : Z) (l : list LogEntry) : list LogEntry :=
  match l with
  | [] => []
  | _ :: l' => if (m <? Z.of_nat (length l))%Z then trim m l' else l
  end.

Definition setMaxSize (maxSize : Z) (b : t) : t :=
  let m := Z.max 1 maxSize in
  {| buffer := trim m (buffer b); maxSize := m |}.

Definition getMaxSize (b : t) : Z := maxSize b.

(** A call on a buffer, and a program of calls. *)
Inductive call : Type :=
  | Add (entry : LogEntry)
  | Flush
  | Clear
  | RemoveOldest
  | SetMaxSize (maxSize : Z).

Definition run (c : call) (b : t) : t :=
  match c with
  | Add e => add e b
  | Flush => snd (flush b)
  | Clear => clear b
  | RemoveOldest => snd (removeOldest b)
  | SetMaxSize n => setMaxSize n b
  end.

Definition run_all (cs : list call) (b : t) : t :=
  foldl (fun acc c => run c acc) b cs.

Definition add_all (es : list LogEntry) (b : t) : t :=
  foldl (fun acc e => add e acc) b es.

(** The capacity is at least 1 and the contents fit in it. *)
Definition fits (b : t) : Prop :=
  (1 ≤ maxSize b)%Z ∧ (Z.of_nat (size b) ≤ maxSize b)%Z.

End LogBuffer.

(* ===================================================================== *)
(** ** adapters/StorageAdapter.ts                                         *)
(* ===================================================================== *)

Module StorageAdapter.

Record t : Type := mk { maxEntries : Z }.

Definition new (maxEntries : Z) : t := mk maxEntries.
Definition new_default : t := new 1000.

(** [error instanceof Error && error.name === 'QuotaExceededError'] *)
Definition is_QuotaExceededError (error : JsValue) : bool :=
  instanceof_Error error
  && bool_decide (error_name error = Some "QuotaExceededError").

(** [localStorage.getItem] followed by [JSON.parse]. *)
Definition getItem : M World (option (list LogEntry)) :=
  fun w => match ls_read_fault w with
           | Some v => (Throw v, w)
           | None => (Normal (ls_item w), w)
           end.

(** [JSON.stringify] followed by [localStorage.setItem]. *)
Definition setItem (logs : list LogEntry) : M World unit :=
  fun w => match ls_write w logs with
           | Some v => (Throw v, add_ls_call (SetItem logs false) w)
           | None => (Normal tt,
                      set_ls_item (Some logs) (add_ls_call (SetItem logs true) w))
           end.

Definition removeItem : M World unit :=
  fun w => match ls_remove_fault w with
           | Some v => (Throw v, w)
           | None => (Normal tt, set_ls_item None (add_ls_call RemoveItem w))
           end.

Definition retrieve : M World (list LogEntry) :=
  try_catch
    (stored <- getItem ;;
     match stored with
     | None => ret []
     | Some parsed => ret parsed
     end)%js
    (fun error =>
       console_call (fun f => f) c_error "Failed to retrieve log entries:" (Some error) ;;
       ret [])%js.

Definition clear : M World unit :=
  try_catch removeItem
    (fun error =>
       console_call (fun f => f) c_error "Failed to clear log entries:" (Some error)).

Definition clearOldEntries (a : t) : M World unit :=
  (logs <- retrieve ;;
   let reducedLogs := slice_from (- (maxEntries a / 2)) logs in
   try_catch (setItem reducedLogs) (fun _ => clear))%js.

(** "Maintain max entries limit": the [if] with the [splice]. *)
Definition maintain_limit (a : t) (logs : list LogEntry) : list LogEntry :=
  if (maxEntries a <? Z.of_nat (length logs))%Z
  then splice0 (Z.of_nat (length logs) - maxEntries a) logs
  else logs.

(** The body of [store]'s [try] block. *)
Definition store_try (a : t) (entry : LogEntry) : M World unit :=
  (existingLogs <- retrieve ;;
   setItem (maintain_limit a (existingLogs ++ [entry])))%js.

(** [store] calls itself from its [catch] block; [stack] is the number of
    nested calls the engine still allows, and the call that exceeds it
    throws the engine's RangeError at the call site. *)
Fixpoint store_rec (stack : nat) (a : t) (entry : LogEntry) : M World unit :=
  try_catch (store_try a entry)
    (fun error =>
       if is_QuotaExceededError error
       then (clearOldEntries a ;;
             match stack with
             | O => throw stack_overflow
             | S stack' => store_rec stack' a entry
             end)%js
       else console_call (fun f => f) c_error "Failed to store log entry:" (Some error)).

Definition store (a : t) (entry : LogEntry) : M World unit :=
  fun w => store_rec (js_stack w) a entry w.

Definition getEntryCount : M World nat :=
  (logs <- retrieve ;; ret (length logs))%js.

(** Sequential stores, oldest first; the world that results. *)
Definition store_all (a : t) (es : list LogEntry) (w : World) : World :=
  foldl (fun acc e => snd (store a e acc)) w es.


End StorageAdapter.

(* ===================================================================== *)
(** ** adapters/ConsoleAdapter.ts                                         *)
(* ===================================================================== *)

Module ConsoleAdapter.

Definition method_of (l : LogLevel) : ConsoleMethod :=
  match l with
  | DEBUG => c_debug
  | INFO => c_info
  | WARN => c_warn
  | ERROR | FATAL => c_error
  end.

Definition stack_lines (entry : LogEntry) : list ConsoleCall :=
  match le_level entry with
  | ERROR | FATAL =>
      match le_stack entry with
      | Some s => if bool_decide (s = "") then [] else [ConsoleStack s]
      | None => []
      end
  | _ => []
  end.

Definition metadata_lines (entry : LogEntry) : list ConsoleCall :=
  match le_metadata entry with
  | Some md => if (0 <? length md)%nat then [ConsoleMetadata entry md] else []
  | None => []
  end.

Definition log (entry : LogEntry) : M World unit :=
  fun w => match console_fault w entry with
           | Some v => (Throw v, w)
           | None =>
               (Normal tt,
                add_console ([ConsoleEntry (method_of (le_level entry)) entry]
                             ++ stack_lines entry ++ metadata_lines entry) w)
           end.

End ConsoleAdapter.

(* ===================================================================== *)
(** ** adapters/RemoteAdapter.ts                                          *)
(* ===================================================================== *)

Module RemoteAdapter.

Record t : Type := mk {
  endpoint : option string;
  retryAttempts : Z;
  retryDelay : Z;
  timeout : Z
}.

Definition new (endpoint : option string) : t := mk endpoint 3 1000 5000.

Record RemoteLogPayload : Type := mkPayload {
  pl_entries : list LogEntry;
  pl_sessionId : option string;
  pl_userId : option string
}.

(** What the adapter does on the network, in order. *)
Inductive NetEvent : Type :=
  | Request (payload : RemoteLogPayload)
  | Delay (ms : Z).

(** The network: [respond n] is the fate of the [n]-th request issued
    (counting from 0): [None] is a 2xx answer without an error field,
    [Some v] is what [makeRequest] throws (rejected fetch, abort on
    timeout, non-2xx status, error field). *)
Record Net : Type := mkNet {
  respond : nat -> option JsValue;
  issued : nat;
  events : list NetEvent;
  heap : nat
}.

(** [!this.endpoint] *)
Definition endpoint_missing (a : t) : bool :=
  negb (truthy_string (endpoint a)).

Definition makeRequest (payload : RemoteLogPayload) : M Net unit :=
  fun n =>
    let n' := mkNet (respond n) (S (issued n)) (events n ++ [Request payload]) (heap n) in
    match respond n (issued n) with
    | None => (Normal tt, n')
    | Some v => (Throw v, n')
    end.

Definition delay (ms : Z) : M Net unit :=
  modify (fun n => mkNet (respond n) (issued n) (events n ++ [Delay ms]) (heap n)).

(** [new Error(message)] *)
Definition new_Error (message : string) : M Net JsValue :=
  fun n => (Normal (VError (heap n) "Error" message),
            mkNet (respond n) (issued n) (events n) (S (heap n))).

(** [throw lastError], where [lastError] may still be [null]. *)
Definition throw_lastError (lastError : option JsValue) : M Net unit :=
  match lastError with
  | Some e => throw e
  | None => throw (VOther 0 "null")
  end.

(** The [for] loop of [sendBatch] from iteration [attempt] on; [remaining]
    counts the iterations left, [attempt + remaining = retryAttempts + 1]. *)
Fixpoint attempts_from (remaining : nat) (a : t) (payload : RemoteLogPayload)
    (attempt : Z) (lastError : option JsValue) : M Net unit :=
  match remaining with
  | O => throw_lastError lastError
  | S remaining' =>
      try_catch (makeRequest payload)
        (fun error =>
           (e <- (if instanceof_Error error then ret error
                  else new_Error "Unknown error") ;;
            when (attempt <? retryAttempts a)%Z (delay (retryDelay a * attempt)) ;;
            attempts_from remaining' a payload (attempt + 1)%Z (Some e))%js)
  end.

(** The payload built from a batch; the batch timestamp, the user agent
    and the page URL that it also carries play no part in the retries. *)
Definition payload_of (entries : list LogEntry) : RemoteLogPayload :=
  {| pl_entries := entries;
     pl_sessionId := head entries ≫= le_sessionId;
     pl_userId := head entries ≫= le_userId |}.

Definition sendBatch (a : t) (entries : list LogEntry) : M Net unit :=
  if endpoint_missing a || bool_decide (length entries = 0%nat)
  then ret tt
  else
    let payload := payload_of entries in
    attempts_from (Z.to_nat (retryAttempts a)) a payload 1%Z None.

Definition send (a : t) (entry : LogEntry) : M Net unit :=
  if endpoint_missing a
  then (e <- new_Error "Remote endpoint not configured" ;; throw e)%js
  else sendBatch a [entry].

Definition setEndpoint (endpoint : string) (a : t) : t :=
  mk (Some endpoint) (retryAttempts a) (retryDelay a) (timeout a).

Definition setRetryConfig (attempts delay : Z) (a : t) : t :=
  mk (endpoint a) (Z.max 1 attempts) (Z.max 100 delay) (timeout a).

Definition setTimeout (timeout : Z) (a : t) : t :=
  mk (endpoint a) (retryAttempts a) (retryDelay a) (Z.max 1000 timeout).

Definition isConfigured (a : t) : bool := negb (endpoint_missing a).

(** The requests and waits of [k] attempts in a row of which all but the
    last fail, the first being attempt number [attempt]. *)
Fixpoint schedule (payload : RemoteLogPayload) (baseDelay attempt : Z) (k : nat)
    : list NetEvent :=
  match k with
  | O => []
  | S O => [Request payload]
  | S k' => Request payload :: Delay (baseDelay * attempt)
            :: schedule payload baseDelay (attempt + 1)%Z k'
  end.

Definition delays_of (evs : list NetEvent) : list Z :=
  omap (fun ev => match ev with Delay ms => Some ms | Request _ => None end) evs.

(** A network that fails the first [failures] requests and answers every
    later one with success. *)
Definition flaky (failures : nat) : Net :=
  {| respond := fun i => if (i <? failures)%nat
                         then Some (VError 2 "TypeError" "Failed to fetch")
                         else None;
     issued := 0;
     events := [];
     heap := 10 |}.

End RemoteAdapter.

(* ===================================================================== *)
(** ** utils/SessionManager.ts                                            *)
(* ===================================================================== *)

Module SessionManager.

(** The local calendar fields of a date. *)
Record Calendar : Type := mkCalendar {
  getFullYear : Z → Z;
  getMonth : Z → Z;
  getDate : Z → Z
}.

(** What [createNewSession] reads from its surroundings. *)
Record Reading : Type := mkReading {
  fresh : string;                 (* generateSessionId() *)
  userAgent : string;             (* navigator.userAgent *)
  href : string                   (* window.location.href *)
}.

Record t : Type := mk {
  sessionId : string;
  sessionStartTime : Z
}.

Record Sys : Type := mkSys { manager : t; browser : World }.

Definition in_browser (f : World → World) (s : Sys) : Sys :=
  mkSys (manager s) (f (browser s)).
Definition in_manager (f : t → t) (s : Sys) : Sys :=
  mkSys (f (manager s)) (browser s).

(** [sessionStorage.getItem], [setItem] and [removeItem] on the key. *)
Definition getItem : M Sys (option Stored) :=
  fun s => match ss_read_fault (browser s) with
           | Some v => (Throw v, s)
           | None => (Normal (ss_item (browser s)), s)
           end.
Definition setItem (session : SessionData) : M Sys unit :=
  fun s => match ss_write_fault (browser s) with
           | Some v => (Throw v, s)
           | None => (Normal tt, in_browser (set_ss_item (Some (Parsed (Object session)))) s)
           end.
Definition removeItem : M Sys unit :=
  fun s => match ss_remove_fault (browser s) with
           | Some v => (Throw v, s)
           | None => (Normal tt, in_browser (set_ss_item None) s)
           end.

Definition console_warn (text : string) (error : JsValue) : M Sys unit :=
  console_call in_browser c_warn text (Some error).

(** [JSON.parse(stored)] *)
Definition parse (stored : Stored) : M Sys Json :=
  match stored with
  | Unparsable error => throw error
  | Parsed value => ret value
  end.

(** [new Date(session.startTime)]: an invalid date where the property is
    [undefined]. *)
Definition startTime_of (session : Json) : option Z :=
  match session with
  | Object data => sd_startTime data
  | Primitive => None
  end.

(** The error of an assignment to a property of a primitive value. *)
Definition cannot_create_property : JsValue :=
  VError 0 "TypeError" "Cannot create property 'lastActivity'".

Definition isSameDay (cal : Calendar) (date1 date2 : option Z) : bool :=
  match date1, date2 with
  | Some d1, Some d2 =>
      (getFullYear cal d1 =? getFullYear cal d2)%Z
      && (getMonth cal d1 =? getMonth cal d2)%Z
      && (getDate cal d1 =? getDate cal d2)%Z
  | _, _ => false
  end.

Definition createNewSession (rd : Reading) : M Sys string :=
  (s <- get ;;
   let sessionId := fresh rd in
   let sessionData :=
     mkSessionData sessionId (Some (sessionStartTime (manager s)))
                   (userAgent rd) (href rd) None None in
   try_catch (setItem sessionData)
             (fun error => console_warn "Failed to store session data:" error) ;;
   ret sessionId)%js.

(** [loadOrCreateSession()]; [now] is the reading of [new Date()] in it. *)
Definition loadOrCreateSession (cal : Calendar) (now : Z) (rd : Reading)
    : M Sys string :=
  (found <- try_catch
              (stored <- getItem ;;
               match stored with
               | Some stored =>
                   session <- parse stored ;;
                   let sessionDate := startTime_of session in
                   if isSameDay cal sessionDate (Some now)
                   then ret (match session with
                             | Object data => Some (sd_id data)
                             | Primitive => None
                             end)
                   else ret None
               | None => ret None
               end)
              (fun error =>
                 console_warn "Failed to load existing session:" error ;;
                 ret None) ;;
   match found with
   | Some id => ret id
   | None => createNewSession rd
   end)%js.

(** [trackPageVisibility()]: one listener on the document and one on the
    window, both closures over the manager [self]. *)
Definition trackPageVisibility (self : nat) : M Sys unit :=
  (modify (in_browser (add_doc_listener (mkListener "visibilitychange" self))) ;;
   modify (in_browser (add_listener (mkListener "beforeunload" self))))%js.

(** [new SessionManager()] in world [w]: [self] is the identity of the new
    object, [start] and [now] are the two readings of [new Date()], the
    second one taken while loading. *)
Definition new (cal : Calendar) (self : nat) (start now : Z) (rd : Reading)
    (w : World) : Completion unit * Sys :=
  ((id <- loadOrCreateSession cal now rd ;;
    modify (in_manager (fun m => mk id (sessionStartTime m))) ;;
    trackPageVisibility self)%js
     (mkSys (mk "" start) w)).

(** What one [new SessionManager()] reads from its surroundings. *)
Record Construction : Type := mkConstruction {
  calendar : Calendar;
  identity : nat;
  started : Z;
  loaded : Z;
  reading : Reading
}.

Definition construct (c : Construction) (w : World) : Completion unit * Sys :=
  new (calendar c) (identity c) (started c) (loaded c) (reading c) w.

Definition updateSessionActivity (now : Z) (activity : string) : M Sys unit :=
  try_catch
    (stored <- getItem ;;
     match stored with
     | Some stored =>
         session <- parse stored ;;
         match session with
         | Object data =>
             setItem (mkSessionData (sd_id data) (sd_startTime data)
                        (sd_userAgent data) (sd_url data)
                        (Some now) (Some activity))
         | Primitive => throw cannot_create_property
         end
     | None => ret tt
     end)%js
    (fun error => console_warn "Failed to update session activity:" error).

Definition getSessionId (m : t) : string := sessionId m.
Definition getSessionStartTime (m : t) : Z := sessionStartTime m.
Definition getSessionDuration (now : Z) (m : t) : Z := (now - sessionStartTime m)%Z.

Definition renewSession (now : Z) (rd : Reading) : M Sys string :=
  (id <- createNewSession rd ;;
   modify (in_manager (fun m => mk id (sessionStartTime m))) ;;
   modify (in_manager (fun m => mk (sessionId m) now)) ;;
   s <- get ;;
   ret (sessionId (manager s)))%js.

Definition clearSession : M Sys unit :=
  try_catch removeItem (fun error => console_warn "Failed to clear session:" error).

End SessionManager.

(* ===================================================================== *)
(** ** core/Logger.ts                                                     *)
(* ===================================================================== *)

Module Logger.

(** The state of an [async] call when it hands control back. *)
Inductive PromiseState : Type :=
  | Fulfilled
  | Suspended                     (* waiting at an [await] *)
  | Rejected (reason : JsValue).

(** The fields of a [Logger] object.  [self] is the object's identity;
    [pending] holds, oldest first, the batches of the [flush] calls that
    wait for [sendBatch], each with the adapter it was handed to.  The
    formatter has no state; the session manager is read once, by the
    constructor, and what it leaves behind is in the browser. *)
Record t : Type := mk {
  config : LoggerConfig;
  storageAdapter : StorageAdapter.t;
  remoteAdapter : RemoteAdapter.t;
  buffer : LogBuffer.t;
  flushTimer : option nat;
  self : nat;
  pending : list (RemoteAdapter.t * list LogEntry)
}.

Record Sys : Type := mkSys {
  logger : t;
  world : World
}.

Definition liftW {A} (m : M World A) : M Sys A :=
  fun s => let (c, w) := m (world s) in (c, mkSys (logger s) w).
Definition in_world (f : World -> World) (s : Sys) : Sys :=
  mkSys (logger s) (f (world s)).
Definition in_logger (f : t -> t) (s : Sys) : Sys :=
  mkSys (f (logger s)) (world s).

Definition set_config (c : LoggerConfig) (l : t) : t :=
  mk c (storageAdapter l) (remoteAdapter l) (buffer l) (flushTimer l) (self l) (pending l).
Definition set_storageAdapter (a : StorageAdapter.t) (l : t) : t :=
  mk (config l) a (remoteAdapter l) (buffer l) (flushTimer l) (self l) (pending l).
Definition set_remoteAdapter (a : RemoteAdapter.t) (l : t) : t :=
  mk (config l) (storageAdapter l) a (buffer l) (flushTimer l) (self l) (pending l).
Definition set_buffer (b : LogBuffer.t) (l : t) : t :=
  mk (config l) (storageAdapter l) (remoteAdapter l) b (flushTimer l) (self l) (pending l).
Definition set_flushTimer (ft : option nat) (l : t) : t :=
  mk (config l) (storageAdapter l) (remoteAdapter l) (buffer l) ft (self l) (pending l).
Definition set_pending (p : list (RemoteAdapter.t * list LogEntry)) (l : t) : t :=
  mk (config l) (storageAdapter l) (remoteAdapter l) (buffer l) (flushTimer l) (self l) p.

(** What one call of [log] reads from its surroundings. *)
Record Reading : Type := mkReading {
  now : Z;                        (* Date.now() and new Date() *)
  random : string;                (* Math.random().toString(36).substr(2, 9) *)
  href : string;                  (* window.location.href *)
  agent : string;                 (* navigator.userAgent *)
  error_stack : option string     (* new Error().stack *)
}.

Definition defaults : LoggerConfig :=
  {| cfg_level := INFO;
     enableConsole := true;
     enableStorage := true;
     enableRemote := false;
     maxStorageEntries := 1000;
     remoteEndpoint := None;
     cfg_sessionId := None;
     cfg_userId := None;
     bufferSize := 50;
     flushInterval := 5000 |}.

Definition initializeAutoFlush : M Sys unit :=
  (s <- get ;;
   if (0 <? flushInterval (config (logger s)))%Z
   then modify (fun s => let (id, w) := setInterval (world s) in
                         mkSys (set_flushTimer (Some id) (logger s)) w)
   else ret tt)%js.

Definition setupErrorHandlers : M Sys unit :=
  (s <- get ;;
   modify (in_world (add_listener (mkListener "error" (self (logger s))))) ;;
   modify (in_world (add_listener (mkListener "unhandledrejection" (self (logger s))))))%js.

(** [new Logger(config)] run in world [w]; [session] is what the
    [new SessionManager()] in it reads.  The adapters, the formatter and
    the buffer are built first and touch nothing; the session manager
    catches whatever its calls throw. *)
Definition new (over : PartialConfig) (self : nat)
    (session : SessionManager.Construction) (w : World) : Sys :=
  let c := spread defaults over in
  let sessionManager := snd (SessionManager.construct session w) in
  let sessionId :=
    SessionManager.getSessionId (SessionManager.manager sessionManager) in
  let c' := mkLoggerConfig (cfg_level c) (enableConsole c) (enableStorage c)
              (enableRemote c) (maxStorageEntries c) (remoteEndpoint c)
              (Some sessionId) (cfg_userId c) (bufferSize c) (flushInterval c) in
  let l := {| config := c';
              storageAdapter := StorageAdapter.new (maxStorageEntries c);
              remoteAdapter := RemoteAdapter.new (remoteEndpoint c);
              buffer := LogBuffer.new (bufferSize c);
              flushTimer := None;
              self := self;
              pending := [] |} in
  snd ((initializeAutoFlush ;; setupErrorHandlers)%js
         (mkSys l (SessionManager.browser sessionManager))).

Definition levels : list LogLevel := [DEBUG; INFO; WARN; ERROR; FATAL].

Definition shouldLog (l : t) (level : LogLevel) : bool :=
  let currentLevelIndex := indexOf levels (cfg_level (config l)) in
  let messageLevelIndex := indexOf levels level in
  (currentLevelIndex <=? messageLevelIndex)%Z.

Definition generateId (rd : Reading) : string :=
  pretty (now rd) +:+ "-" +:+ random rd.

Definition createLogEntry (l : t) (rd : Reading) (level : LogLevel)
    (message : string) (component : option string)
    (metadata : option (list (string * MetaValue))) : LogEntry :=
  {| le_id := generateId rd;
     le_timestamp := now rd;
     le_level := level;
     le_message := message;
     le_component := component;
     le_userId := cfg_userId (config l);
     le_sessionId := cfg_sessionId (config l);
     le_metadata := metadata;
     le_stack := match level with
                 | ERROR | FATAL => error_stack rd
                 | _ => None
                 end;
     le_url := Some (href rd);
     le_userAgent := Some (agent rd) |}.

(** [flush] up to its [await]: the batch leaves the buffer and is handed
    to [sendBatch]. *)
Definition flush : M Sys PromiseState :=
  (s <- get ;;
   let l := logger s in
   if enableRemote (config l) && (0 <? LogBuffer.size (buffer l))%nat
   then
     let (entries, b) := LogBuffer.flush (buffer l) in
     modify (in_logger (fun l =>
               set_pending (pending l ++ [(remoteAdapter l, entries)])
                           (set_buffer b l))) ;;
     ret Suspended
   else ret Fulfilled)%js.

(** [flush] from its [await] on, for the [i]-th waiting call, when
    [sendBatch] has run against the network [net]. *)
Definition flush_resume (i : nat) (net : RemoteAdapter.Net) : M Sys unit :=
  (s <- get ;;
   match pending (logger s) !! i with
   | None => ret tt
   | Some (adapter, entries) =>
       modify (in_logger (fun l => set_pending (delete i (pending l)) l)) ;;
       try_catch
         (fun s => (fst (RemoteAdapter.sendBatch adapter entries net), s))
         (fun error =>
            modify (in_logger (fun l =>
                      set_buffer (LogBuffer.add_all entries (buffer l)) l)) ;;
            console_call in_world c_warn
              "Failed to send logs to remote endpoint:" (Some error))
   end)%js.

(** An [async] function: a throw in its body rejects the promise it
    returns. *)
Definition async (body : M Sys PromiseState) : M Sys PromiseState :=
  try_catch body (fun v => ret (Rejected v)).

(** [promise.catch(handler)]; a throw inside the handler rejects the
    derived promise, which nobody awaits. *)
Definition promise_catch (p : PromiseState) (handler : JsValue -> M Sys unit)
    : M Sys unit :=
  match p with
  | Rejected reason => try_catch (handler reason) (fun _ => ret tt)
  | _ => ret tt
  end.

Definition processLogEntry (entry : LogEntry) : M Sys PromiseState :=
  async
    (modify (in_logger (fun l => set_buffer (LogBuffer.add entry (buffer l)) l)) ;;
     s <- get ;;
     when (enableConsole (config (logger s))) (liftW (ConsoleAdapter.log entry)) ;;
     s <- get ;;
     when (enableStorage (config (logger s)))
          (liftW (StorageAdapter.store (storageAdapter (logger s)) entry)) ;;
     s <- get ;;
     if enableRemote (config (logger s)) && LogBuffer.isFull (buffer (logger s))
     then (flush ;; ret Suspended)
     else ret Fulfilled)%js.

Definition log (rd : Reading) (level : LogLevel) (message : string)
    (component : option string)
    (metadata : option (list (string * MetaValue))) : M Sys unit :=
  (s <- get ;;
   if negb (shouldLog (logger s) level)
   then ret tt
   else
     let entry := createLogEntry (logger s) rd level message component metadata in
     p <- processLogEntry entry ;;
     promise_catch p (fun error =>
       console_call in_world c_error "Failed to process log entry:" (Some error)))%js.

Definition debug rd := log rd DEBUG.
Definition info rd := log rd INFO.
Definition warn rd := log rd WARN.
Definition error rd := log rd ERROR.
Definition fatal rd := log rd FATAL.

(** [logs.sort((a, b) => b.timestamp.getTime() - a.timestamp.getTime())]:
    the sort is stable, so the result is the one list ordered by
    non-increasing time in which entries of equal time keep their order. *)
Fixpoint insert_by_time (a : LogEntry) (l : list LogEntry) : list LogEntry :=
  match l with
  | [] => [a]
  | x :: l' => if (le_timestamp x <=? le_timestamp a)%Z
               then a :: x :: l'
               else x :: insert_by_time a l'
  end.
Definition sort_by_time_desc (l : list LogEntry) : list LogEntry :=
  foldr insert_by_time [] l.

(** [getLogs(filter?)]; the filter object is taken as the predicate its
    fields define. *)
Definition getLogs (flt : option (LogEntry -> bool)) : M Sys (list LogEntry) :=
  (logs <- liftW StorageAdapter.retrieve ;;
   let logs := match flt with
               | Some keep => List.filter keep logs
               | None => logs
               end in
   ret (sort_by_time_desc logs))%js.

Definition clearLogs : M Sys unit :=
  (liftW StorageAdapter.clear ;;
   modify (in_logger (fun l => set_buffer (LogBuffer.clear (buffer l)) l)))%js.

Definition clear_flushTimer : M Sys unit :=
  (s <- get ;;
   match flushTimer (logger s) with
   | Some id => modify (in_world (clearInterval id))
   | None => ret tt
   end)%js.

Definition setConfig (over : PartialConfig) : M Sys unit :=
  (modify (in_logger (fun l => set_config (spread (config l) over) l)) ;;
   when (truthy_number (p_maxStorageEntries over))
        (modify (in_logger (set_storageAdapter
           (StorageAdapter.new (default 0%Z (p_maxStorageEntries over)))))) ;;
   when (truthy_string (p_remoteEndpoint over))
        (modify (in_logger (set_remoteAdapter
           (RemoteAdapter.new (p_remoteEndpoint over))))) ;;
   match p_flushInterval over with
   | Some _ => clear_flushTimer ;; initializeAutoFlush
   | None => ret tt
   end)%js.

Definition getConfig (l : t) : LoggerConfig := config l.

Definition destroy : M Sys unit :=
  (clear_flushTimer ;;
   p <- async flush ;;
   promise_catch p (fun error => console_call in_world c_error "" (Some error)))%js.

(** The interval callback [() => { this.flush(); }], which runs only
    while the timer is active. *)
Definition timer_fires : M Sys unit :=
  (s <- get ;;
   match flushTimer (logger s) with
   | Some id => if bool_decide (id ∈ timers (world s))
                then (flush ;; ret tt)
                else ret tt
   | None => ret tt
   end)%js.

(** What can happen to a logger after its construction. *)
Inductive event : Type :=
  | EvLog (rd : Reading) (level : LogLevel) (message : string)
          (component : option string)
          (metadata : option (list (string * MetaValue)))
  | EvTimer
  | EvResume (i : nat) (net : RemoteAdapter.Net)
  | EvClearLogs
  | EvSetConfig (over : PartialConfig)
  | EvDestroy.

Definition run (e : event) : M Sys unit :=
  match e with
  | EvLog rd level message component metadata =>
      log rd level message component metadata
  | EvTimer => timer_fires
  | EvResume i net => flush_resume i net
  | EvClearLogs => clearLogs
  | EvSetConfig over => setConfig over
  | EvDestroy => destroy
  end.

Definition step (e : event) (s : Sys) : Sys := snd (run e s).

Definition steps (es : list event) (s : Sys) : Sys :=
  foldl (fun acc e => step e acc) s es.

End Logger.

(* ===================================================================== *)
(** ** utils/PerformanceTracker.ts                                        *)
(* ===================================================================== *)

Module PerformanceTracker.

(** A call on the [LoggerMiddleware] the tracker was given. *)
Record LoggerCall : Type := mkCall {
  lc_level : LogLevel;
  lc_message : string;
  lc_component : option string;
  lc_metadata : option (list (string * MetaValue))
}.

(** [measurements] maps a label to a reading of [performance.now()], a
    number of clock ticks; [logged] lists the calls made on the logger,
    oldest first. *)
Record t : Type := mk {
  measurements : gmap string Z;
  logged : list LoggerCall
}.

Definition new : t := mk ∅ [].

Definition log_call (c : LoggerCall) (p : t) : t :=
  mk (measurements p) (logged p ++ [c]).

Definition start (now : Z) (label : string) (p : t) : t :=
  log_call (mkCall DEBUG ("Performance tracking started: " +:+ label)
                   (Some "PerformanceTracker") None)
           (mk (<[label := now]> (measurements p)) (logged p)).

Definition not_found (label : string) : LoggerCall :=
  mkCall WARN ("No start time found for performance label: " +:+ label)
         (Some "PerformanceTracker") None.

(** [end(label)], with [now] the reading taken inside it. *)
Definition end_ (now : Z) (label : string) (p : t) : Z * t :=
  let startTime := measurements p !! label in
  if negb (truthy_number startTime)
  then (0%Z, log_call (not_found label) p)
  else
    let startTime := default 0%Z startTime in
    let endTime := now in
    let duration := (endTime - startTime)%Z in
    (duration,
     log_call (mkCall INFO ("Performance measurement: " +:+ label)
                 (Some "PerformanceTracker")
                 (Some [("duration", MetaFixed2Ms duration);
                        ("startTime", MetaNumber startTime);
                        ("endTime", MetaNumber endTime)]))
              (mk (delete label (measurements p)) (logged p))).

(** How a call of [fn], or of [measure], comes out: a value, a throw, or
    a promise that resolves or rejects. *)
Inductive Outcome (T : Type) : Type :=
  | Returns (v : T)
  | Throws (e : JsValue)
  | Resolves (v : T)
  | Rejects (e : JsValue).
Arguments Returns {T} v.
Arguments Throws {T} e.
Arguments Resolves {T} v.
Arguments Rejects {T} e.

Definition failed (label : string) (e : JsValue) : LoggerCall :=
  mkCall ERROR ("Performance measurement failed: " +:+ label)
         (Some "PerformanceTracker") (Some [("error", MetaThrown e)]).

(** [measure(label, fn)]: [t0] and [t1] are the readings of the clock in
    [start] and in [end]; [fn] may itself use the tracker. *)
Definition measure {T} (t0 t1 : Z) (label : string)
    (fn : t -> Outcome T * t) (p : t) : Outcome T * t :=
  let p1 := start t0 label p in
  match fn p1 with
  | (Returns v, p2) => (Returns v, snd (end_ t1 label p2))
  | (Resolves v, p2) => (Resolves v, snd (end_ t1 label p2))
  | (Rejects e, p2) =>
      (Rejects e, log_call (failed label e) (snd (end_ t1 label p2)))
  | (Throws e, p2) =>
      (Throws e, log_call (failed label e) (snd (end_ t1 label p2)))
  end.

Definition getActiveMeasurements (p : t) : gset string := dom (measurements p).

Definition clearMeasurement (label : string) (p : t) : bool * t :=
  (bool_decide (is_Some (measurements p !! label)),
   mk (delete label (measurements p)) (logged p)).

Definition clearAllMeasurements (p : t) : t :=
  log_call (mkCall DEBUG "All performance measurements cleared"
                   (Some "PerformanceTracker") None)
           (mk ∅ (logged p)).

End PerformanceTracker.

(* ===================================================================== *)
(** ** Values used in the examples                                        *)
(* ===================================================================== *)

(** An INFO entry with the given id and time. *)
Definition sample (name : string) (time : Z) : LogEntry :=
  mkLogEntry name time INFO name None None None None None None None.

Definition QuotaExceededError : JsValue :=
  VError 1 "QuotaExceededError" "The quota has been exceeded.".

(** A browser with an empty log, an empty session storage, nothing on the
    console and no faults, in which every write is accepted. *)
Definition fresh_world : World :=
  {| ls_item := None;
     ls_write := fun _ => None;
     ls_read_fault := None;
     ls_remove_fault := None;
     ls_calls := [];
     console := [];
     console_fault := fun _ => None;
     listeners := [];
     timers := [];
     next_timer := 1;
     js_stack := 1000;
     ss_item := None;
     ss_read_fault := None;
     ss_write_fault := None;
     ss_remove_fault := None;
     doc_listeners := [] |}.

(** The storage of [w] has no read faults and accepts every write. *)
Definition healthy_storage (w : World) : Prop :=
  ls_read_fault w = None ∧ ∀ logs, ls_write w logs = None.

(** Entries in strictly increasing order of time. *)
Definition increasing_time (l : list LogEntry) : Prop :=
  StronglySorted (fun a b => (le_timestamp a < le_timestamp b)%Z) l.

(** Newest first: no entry is older than one that follows it. *)
Definition newest_first (l : list LogEntry) : Prop :=
  Sorted (fun a b => (le_timestamp b ≤ le_timestamp a)%Z) l.

(** A browser whose storage takes at most [n] entries under the adapter's
    key and answers a longer list with a QuotaExceededError. *)
Definition quota_world (n : nat) (stored : list LogEntry) (stack : nat) : World :=
  {| ls_item := Some stored;
     ls_write := fun logs => if (length logs <=? n)%nat then None
                             else Some QuotaExceededError;
     ls_read_fault := None;
     ls_remove_fault := None;
     ls_calls := [];
     console := [];
     console_fault := fun _ => None;
     listeners := [];
     timers := [];
     next_timer := 1;
     js_stack := stack;
     ss_item := None;
     ss_read_fault := None;
     ss_write_fault := None;
     ss_remove_fault := None;
     doc_listeners := [] |}.


Definition six_entries : list LogEntry :=
  [sample "e1" 1; sample "e2" 2; sample "e3" 3;
   sample "e4" 4; sample "e5" 5; sample "e6" 6].

(** Four entries logged within the same millisecond, and four logged one
    millisecond apart. *)
Definition same_time : list LogEntry :=
  [sample "A" 0; sample "B" 0; sample "C" 0; sample "D" 0].
Definition spaced : list LogEntry :=
  [sample "A" 1; sample "B" 2; sample "C" 3; sample "D" 4].

(** A calendar of days of 86 400 000 milliseconds, every year one month
    long, and the construction at time 0 of a session manager for which
    [generateSessionId] yields [id]. *)
Definition plain_calendar : SessionManager.Calendar :=
  SessionManager.mkCalendar (fun _ => 0%Z) (fun _ => 0%Z) (fun t => (t / 86400000)%Z).

Definition reads (id : string) : SessionManager.Reading :=
  SessionManager.mkReading id "Mozilla/5.0" "https://short.example/".

Definition session (id : string) : SessionManager.Construction :=
  SessionManager.mkConstruction plain_calendar 0 0 0 (reads id).

(** A logger built with the default configuration in the fresh browser. *)
Definition default_logger : Logger.t :=
  Logger.logger (Logger.new no_overrides 1 (session "session") fresh_world).


(** [w'] has the console output and the storage calls of [w], and possibly
    more after them. *)
Definition extends (w w' : World) : Prop :=
  (∃ rest, console w' = console w ++ rest)
  ∧ (∃ rest, ls_calls w' = ls_calls w ++ rest).

(** What the calls on a logger keep true: the ring buffer fits its
    capacity, and so does every batch that waits for [sendBatch]. *)
Definition batches_fit (l : Logger.t) : Prop :=
  LogBuffer.fits (Logger.buffer l)
  ∧ Forall (fun p => (Z.of_nat (length (snd p)) ≤ LogBuffer.maxSize (Logger.buffer l))%Z)
           (Logger.pending l).

(** A reading of the surroundings at time [t]. *)
Definition reading (t : Z) : Logger.Reading :=
  Logger.mkReading t "k3j9x0q1z" "https://short.example/" "Mozilla/5.0"
                   (Some "Error at Logger.createLogEntry").

(** A configuration with remote logging on and a ring buffer of two, three
    calls of [log], and the entry that such a call creates. *)
Definition remote_overrides : PartialConfig :=
  mkPartialConfig None None None (Some true) None (Some "https://logs.example/ingest")
                  None None (Some 2%Z) None.

Definition three_logs : list Logger.event :=
  [Logger.EvLog (reading 1) INFO "A" None None;
   Logger.EvLog (reading 2) INFO "B" None None;
   Logger.EvLog (reading 3) INFO "C" None None].

Definition logged (t : Z) (message : string) : LogEntry :=
  Logger.createLogEntry
    (Logger.logger (Logger.new remote_overrides 1 (session "session") fresh_world))
    (reading t) INFO message None None.

(* ===================================================================== *)
(** ** The filter of core/Logger.getLogs                                  *)
(* ===================================================================== *)

(** [String.prototype.includes] *)
Fixpoint includes (s sub : string) : bool :=
  String.prefix sub s
  || match s with
     | EmptyString => false
     | String _ s' => includes s' sub
     end.

Module LogFilter.

(** The [LogFilter] object; dates are milliseconds since the epoch. *)
Record t : Type := mk {
  level : option LogLevel;
  component : option string;
  startDate : option Z;
  endDate : option Z;
  searchTerm : option string
}.

(** The callback that [getLogs] hands to [logs.filter];
    [toLowerCase] is [String.prototype.toLowerCase]. *)
Definition matches (toLowerCase : string → string) (filter : t) (log : LogEntry) : bool :=
  if match level filter with
     | Some l => negb (LogLevel_eqb (le_level log) l)
     | None => false
     end then false
  else if truthy_string (component filter)
          && negb (bool_decide (le_component log = component filter)) then false
  else if match startDate filter with
          | Some d => (le_timestamp log <? d)%Z
          | None => false
          end then false
  else if match endDate filter with
          | Some d => (d <? le_timestamp log)%Z
          | None => false
          end then false
  else if truthy_string (searchTerm filter) then
    let searchLower := toLowerCase (default "" (searchTerm filter)) in
    includes (toLowerCase (le_message log)) searchLower
    || match le_component log with
       | Some c => includes (toLowerCase c) searchLower
       | None => false
       end
  else true.

End LogFilter.

(* ===================================================================== *)
(** ** formatters/LogFormatter.ts                                         *)
(* ===================================================================== *)

Module LogFormatter.

Definition comma : Ascii.ascii := Ascii.ascii_of_nat 44.
Definition dquote : Ascii.ascii := Ascii.ascii_of_nat 34.
Definition newline : Ascii.ascii := Ascii.ascii_of_nat 10.

(** The value of a member of the string enum [LogLevel]. *)
Definition level_string (l : LogLevel) : string :=
  match l with
  | DEBUG => "DEBUG" | INFO => "INFO" | WARN => "WARN"
  | ERROR => "ERROR" | FATAL => "FATAL"
  end.

(** [Array.prototype.join] on strings. *)
Fixpoint join (sep : string) (l : list string) : string :=
  match l with
  | [] => ""
  | [x] => x
  | x :: l' => x +:+ sep +:+ join sep l'
  end.

(** [value.replace] with the global pattern for the double quote and two
    double quotes as the replacement: every quote is doubled. *)
Fixpoint replace_quotes (value : string) : string :=
  match value with
  | EmptyString => EmptyString
  | String c rest =>
      if Ascii.eqb c dquote
      then String dquote (String dquote (replace_quotes rest))
      else String c (replace_quotes rest)
  end.

Definition escapeCsvValue (value : string) : string :=
  if includes value (String comma "")
     || includes value (String dquote "")
     || includes value (String newline "")
  then String dquote (replace_quotes value +:+ String dquote "")
  else value.

Definition headers : list string :=
  ["id"; "timestamp"; "level"; "message"; "component"; "userId"; "sessionId";
   "url"; "userAgent"; "metadata"].

Section Rendering.
(** [Date.prototype.toISOString] and [JSON.stringify] on a metadata bag. *)
Variable toISOString : Z → string.
Variable JSON_stringify : list (string * MetaValue) → string.

(** [entry.component || ''] and its like. *)
Definition or_empty (o : option string) : string :=
  if truthy_string o then default "" o else "".

Definition row (entry : LogEntry) : list string :=
  [escapeCsvValue (le_id entry);
   escapeCsvValue (toISOString (le_timestamp entry));
   escapeCsvValue (level_string (le_level entry));
   escapeCsvValue (le_message entry);
   escapeCsvValue (or_empty (le_component entry));
   escapeCsvValue (or_empty (le_userId entry));
   escapeCsvValue (or_empty (le_sessionId entry));
   escapeCsvValue (or_empty (le_url entry));
   escapeCsvValue (or_empty (le_userAgent entry));
   escapeCsvValue (match le_metadata entry with
                   | Some md => JSON_stringify md
                   | None => ""
                   end)].

Definition formatCSV (entries : list LogEntry) : string :=
  if bool_decide (length entries = 0%nat) then ""
  else
    let csvRows := [join (String comma "") headers] in
    let csvRows := foldl (fun rows entry => rows ++ [join (String comma "") (row entry)])
                         csvRows entries in
    join (String newline "") csvRows.

End Rendering.

End LogFormatter.

(** A reader of comma-separated text: fields are separated by commas and
    records by line feeds; a field that opens with a quote runs to the
    next quote that is not doubled, and a doubled quote inside it stands
    for one quote. *)
Module CsvReader.
Import LogFormatter.

Inductive mode : Type := Start | Plain | Quoted | QuoteSeen.

Fixpoint read (s : string) (m : mode) (cur : string) (fields : list string)
    (records : list (list string)) : list (list string) :=
  match s with
  | EmptyString => records ++ [fields ++ [cur]]
  | String c s' =>
      match m with
      | Quoted =>
          if Ascii.eqb c dquote then read s' QuoteSeen cur fields records
          else read s' Quoted (cur +:+ String c "") fields records
      | _ =>
          if Ascii.eqb c comma then read s' Start "" (fields ++ [cur]) records
          else if Ascii.eqb c newline
          then read s' Start "" [] (records ++ [fields ++ [cur]])
          else if Ascii.eqb c dquote then
            match m with
            | Start => read s' Quoted cur fields records
            | QuoteSeen => read s' Quoted (cur +:+ String dquote "") fields records
            | _ => read s' Plain (cur +:+ String c "") fields records
            end
          else read s' Plain (cur +:+ String c "") fields records
      end
  end.

Definition parse (s : string) : list (list string) := read s Start "" [] [].

End CsvReader.

(** The values of the ten columns of an entry, before they are escaped. *)
Definition csv_fields (toISOString : Z → string)
    (JSON_stringify : list (string * MetaValue) → string) (entry : LogEntry)
    : list string :=
  [le_id entry;
   toISOString (le_timestamp entry);
   LogFormatter.level_string (le_level entry);
   le_message entry;
   default "" (le_component entry);
   default "" (le_userId entry);
   default "" (le_sessionId entry);
   default "" (le_url entry);
   default "" (le_userAgent entry);
   from_option JSON_stringify "" (le_metadata entry)].

(** The character [c] occurs in [s]. *)
Fixpoint has (c : Ascii.ascii) (s : string) : bool :=
  match s with
  | EmptyString => false
  | String c' s' => Ascii.eqb c' c || has c s'
  end.

(** What follows a field: the end of the text, a comma or a line feed. *)
Definition closes (k : string) : Prop :=
  k = "" ∨ (∃ k', k = String LogFormatter.comma k') ∨ (∃ k', k = String LogFormatter.newline k').

(* ===================================================================== *)
(** ** utils/PerformanceTracker.ts: the ratings of the web vitals         *)
(* ===================================================================== *)

Module WebVitals.

(** A JavaScript number: a finite double, which is a rational, or one of
    the three values that are not. *)
Inductive JsNumber : Type :=
  | Finite (q : Q)
  | NaN
  | PosInfinity
  | NegInfinity.

(** [value <= bound] for a finite [bound]. *)
Definition le_bound (value : JsNumber) (bound : Q) : bool :=
  match value with
  | Finite q => Qle_bool q bound
  | NegInfinity => true
  | NaN | PosInfinity => false
  end.

Inductive Rating : Type := good | needs_improvement | poor.

(** The doubles that the literals [0.1] and [0.25] denote. *)
Definition double_0_1 : Q := 3602879701896397 # 36028797018963968.
Definition double_0_25 : Q := 1 # 4.

Definition getLCPRating (value : JsNumber) : Rating :=
  if le_bound value 2500 then good
  else if le_bound value 4000 then needs_improvement
  else poor.

Definition getFIDRating (value : JsNumber) : Rating :=
  if le_bound value 100 then good
  else if le_bound value 300 then needs_improvement
  else poor.

Definition getCLSRating (value : JsNumber) : Rating :=
  if le_bound value double_0_1 then good
  else if le_bound value double_0_25 then needs_improvement
  else poor.

Definition getFCPRating (value : JsNumber) : Rating :=
  if le_bound value 1800 then good
  else if le_bound value 3000 then needs_improvement
  else poor.

Definition getTTFBRating (value : JsNumber) : Rating :=
  if le_bound value 800 then good
  else if le_bound value 1800 then needs_improvement
  else poor.

Definition ratings : list (JsNumber → Rating) :=
  [getLCPRating; getFIDRating; getCLSRating; getFCPRating; getTTFBRating].

(** [good] before [needs_improvement] before [poor]. *)
Definition severity (r : Rating) : nat :=
  match r with good => 0 | needs_improvement => 1 | poor => 2 end.

End WebVitals.

(* ===================================================================== *)
(** ** What the further properties speak of                               *)
(* ===================================================================== *)

(** The browser's timers and listeners, which storage and console calls
    leave alone. *)
Definition same_browser (w w' : World) : Prop :=
  listeners w' = listeners w ∧ timers w' = timers w ∧ next_timer w' = next_timer w.

(** The sum of the waits among the events of a network. *)
Definition total_delay (evs : list RemoteAdapter.NetEvent) : Z :=
  foldr Z.add 0%Z (RemoteAdapter.delays_of evs).

(** A network on which every request fails. *)
Definition offline : RemoteAdapter.Net :=
  {| RemoteAdapter.respond := fun _ => Some (VError 2 "TypeError" "Failed to fetch");
     RemoteAdapter.issued := 0;
     RemoteAdapter.events := [];
     RemoteAdapter.heap := 10 |}.

(** [s'] has the timers and listeners of [s], and the logger the same timer id. *)
Definition keeps_timers (s s' : Logger.Sys) : Prop :=
  same_browser (Logger.world s) (Logger.world s')
  ∧ Logger.flushTimer (Logger.logger s') = Logger.flushTimer (Logger.logger s).

Definition preserves_timers {A} (m : M Logger.Sys A) : Prop :=
  ∀ s, keeps_timers s (snd (m s)).

(** Every active timer is one of [ts0] or the logger's own. *)
Definition owns_timers (ts0 : list nat) (s : Logger.Sys) : Prop :=
  ∀ t, t ∈ timers (Logger.world s) →
       t ∈ ts0 ∨ Logger.flushTimer (Logger.logger s) = Some t.

(** Every active timer is one of [ts0]. *)
Definition no_timer_left (ts0 : list nat) (s : Logger.Sys) : Prop :=
  ∀ t, t ∈ timers (Logger.world s) → t ∈ ts0.

(** [{ maxStorageEntries: n }] *)
Definition only_maxStorageEntries (n : Z) : PartialConfig :=
  mkPartialConfig None None None None (Some n) None None None None None.

(* ===================================================================== *)
(** * Properties                                                          *)
(* ===================================================================== *)

(** ** LogBuffer *)

Section LogBufferFacts.
Import LogBuffer.

Lemma fits_new N : fits (new N).
Proof. unfold fits, new, size; simpl. lia. Qed.

Lemma trim_length m l : (0 ≤ m)%Z → (Z.of_nat (length (trim m l)) ≤ m)%Z.
Proof.
  intros Hm. induction l as [|x l IH]; [simpl; lia|].
  cbn [trim]. destruct (Z.ltb_spec m (Z.of_nat (length (x :: l)))); [done|lia].
Qed.

Lemma add_maxSize e b : maxSize (add e b) = maxSize b.
Proof. unfold add. by destruct (_ <? _)%Z. Qed.

Lemma add_buffer_drop e b :
  fits b →
  buffer (add e b)
  = drop (Z.to_nat (Z.of_nat (length (buffer b)) + 1 - maxSize b)) (buffer b ++ [e]).
Proof.
  intros [H1 H2]. unfold add, size in *.
  rewrite length_app; simpl.
  destruct (Z.ltb_spec (maxSize b) (Z.of_nat (length (buffer b) + 1))); simpl.
  - replace (Z.to_nat _) with 1%nat by lia. by destruct (buffer b ++ [e]).
  - replace (Z.to_nat _) with 0%nat by lia. done.
Qed.

Lemma fits_add e b : fits b → fits (add e b).
Proof.
  intros Hb. pose proof (add_buffer_drop e b Hb) as Hd.
  destruct Hb as [H1 H2]. unfold fits, size in *.
  rewrite add_maxSize, Hd, length_drop, length_app; simpl. lia.
Qed.

Lemma fits_run c b : fits b → fits (run c b).
Proof.
  intros Hb. destruct c; simpl.
  - by apply fits_add.
  - destruct Hb; unfold fits, size; simpl; lia.
  - destruct Hb; unfold fits, size; simpl; lia.
  - destruct Hb as [H1 H2]; unfold fits, size in *; simpl.
    destruct (buffer b); simpl in *; lia.
  - unfold fits, size, setMaxSize; simpl. split; [lia|].
    apply trim_length. lia.
Qed.

Lemma fits_run_all cs b : fits b → fits (run_all cs b).
Proof.
  revert b. induction cs as [|c cs IH]; intros b Hb; simpl; [done|].
  apply IH. by apply fits_run.
Qed.

(** A run of [add]s keeps the capacity and leaves the newest entries that
    fit. *)
Lemma add_all_spec es b :
  fits b →
  maxSize (add_all es b) = maxSize b
  ∧ fits (add_all es b)
  ∧ buffer (add_all es b)
    = drop (Z.to_nat (Z.of_nat (length (buffer b ++ es)) - maxSize b))
           (buffer b ++ es).
Proof.
  revert b. induction es as [|e es IH]; intros b Hb.
  - simpl. split; [done|]. split; [done|].
    destruct Hb as [H1 H2]. unfold size in H2. rewrite app_nil_r.
    replace (Z.to_nat _) with 0%nat by lia. done.
  - simpl. pose proof (fits_add e b Hb) as Hb'.
    destruct (IH (add e b) Hb') as (Hm & Hf & Hbuf).
    rewrite add_maxSize in Hm. split; [done|]. split; [done|].
    rewrite Hbuf, add_maxSize, (add_buffer_drop e b Hb).
    destruct Hb as [H1 H2]. unfold size in H2.
    set (d := Z.to_nat (Z.of_nat (length (buffer b)) + 1 - maxSize b)).
    assert (Hd : (d ≤ length (buffer b ++ [e]))%nat)
      by (rewrite length_app; simpl; lia).
    rewrite <- (drop_app_le _ _ d) by done.
    rewrite drop_drop, <- app_assoc. simpl.
    f_equal. rewrite length_drop, !length_app. simpl.
    rewrite length_app in Hd. simpl in Hd. lia.
Qed.

End LogBufferFacts.

(** C6.  A ring buffer never holds more entries than its capacity, whatever
    calls were made on it since its construction; an [add] on a full buffer
    drops the oldest entry and appends the new one; after any run of [add]s
    on a new buffer the contents are the newest entries that fit, so that
    with capacity 2 the adds X, Y, Z leave [Y; Z].  (The constructor and
    [setMaxSize] raise a requested capacity below 1 to 1.) *)
Theorem ring_buffer_bounded_drops_oldest
    (N : Z) (cs : list LogBuffer.call) (es : list LogEntry) (e x y z : LogEntry) :
  let b := LogBuffer.run_all cs (LogBuffer.new N) in
  (Z.of_nat (LogBuffer.size b) ≤ LogBuffer.getMaxSize b)%Z
  ∧ LogBuffer.buffer (LogBuffer.add e b)
    = (if LogBuffer.isFull b
       then tail (LogBuffer.buffer b) ++ [e]
       else LogBuffer.buffer b ++ [e])
  ∧ LogBuffer.getMaxSize (LogBuffer.add_all es (LogBuffer.new N)) = Z.max 1 N
  ∧ LogBuffer.buffer (LogBuffer.add_all es (LogBuffer.new N))
    = drop (length es - Z.to_nat (Z.max 1 N)) es
  ∧ LogBuffer.buffer (LogBuffer.add_all [x; y; z] (LogBuffer.new 2)) = [y; z].
Proof.
  intros b.
  assert (Hb : LogBuffer.fits b) by apply fits_run_all, fits_new.
  destruct (add_all_spec es (LogBuffer.new N) (fits_new N)) as (Hm & _ & Hbuf).
  split; [apply Hb|]. split; [|split; [exact Hm|split; [|reflexivity]]].
  - destruct Hb as [H1 H2]. unfold LogBuffer.add, LogBuffer.isFull, LogBuffer.size in *.
    rewrite length_app; simpl.
    destruct (Z.ltb_spec (LogBuffer.maxSize b) (Z.of_nat (length (LogBuffer.buffer b) + 1)));
      destruct (Z.leb_spec (LogBuffer.maxSize b) (Z.of_nat (length (LogBuffer.buffer b))));
      simpl; try lia; try done.
    destruct (LogBuffer.buffer b); simpl in *; [lia|done].
  - rewrite Hbuf. simpl. f_equal. lia.
Qed.

(** ** StorageAdapter *)

Section StorageAdapterFacts.
Import StorageAdapter.

Lemma retrieve_readable w :
  ls_read_fault w = None → retrieve w = (Normal (default [] (ls_item w)), w).
Proof.
  intros H. unfold retrieve, try_catch, bind, getItem. rewrite H.
  by destruct (ls_item w).
Qed.

Lemma maintain_limit_drop (C : nat) logs :
  maintain_limit (new (Z.of_nat C)) logs = drop (length logs - C) logs.
Proof.
  unfold maintain_limit, splice0; simpl.
  destruct (Z.ltb_spec (Z.of_nat C) (Z.of_nat (length logs))).
  - f_equal. lia.
  - replace (length logs - C)%nat with 0%nat by lia. done.
Qed.

(** A store whose first write is accepted does nothing else. *)
Lemma store_rec_accepted stack a e w :
  ls_read_fault w = None →
  ls_write w (maintain_limit a (default [] (ls_item w) ++ [e])) = None →
  store_rec stack a e w
  = (Normal tt,
     set_ls_item (Some (maintain_limit a (default [] (ls_item w) ++ [e])))
       (add_ls_call
          (SetItem (maintain_limit a (default [] (ls_item w) ++ [e])) true) w)).
Proof.
  intros Hr Hw.
  destruct stack; simpl; unfold try_catch, store_try, bind;
    rewrite (retrieve_readable w Hr); unfold setItem; by rewrite Hw.
Qed.

Lemma store_all_healthy (C : nat) es w :
  healthy_storage w →
  healthy_storage (store_all (new (Z.of_nat C)) es w)
  ∧ ls_item (store_all (new (Z.of_nat C)) es w)
    = match es with
      | [] => ls_item w
      | _ => Some (drop (length (default [] (ls_item w) ++ es) - C)
                        (default [] (ls_item w) ++ es))
      end.
Proof.
  revert w. induction es as [|e es IH]; intros w Hw; [done|].
  destruct Hw as [Hr Hacc].
  assert (Hst : snd (store (new (Z.of_nat C)) e w)
                = set_ls_item (Some (drop (length (default [] (ls_item w) ++ [e]) - C)
                                          (default [] (ls_item w) ++ [e])))
                    (add_ls_call
                       (SetItem (drop (length (default [] (ls_item w) ++ [e]) - C)
                                      (default [] (ls_item w) ++ [e])) true) w)).
  { unfold store. rewrite store_rec_accepted by done.
    by rewrite maintain_limit_drop. }
  change (store_all (new (Z.of_nat C)) (e :: es) w)
    with (store_all (new (Z.of_nat C)) es (snd (store (new (Z.of_nat C)) e w))).
  rewrite Hst.
  set (w1 := set_ls_item _ _).
  assert (Hw1 : healthy_storage w1) by (split; [exact Hr|exact Hacc]).
  destruct (IH w1 Hw1) as [Hh Hitem]. fold (store_all (new (Z.of_nat C)) es w1).
  split; [exact Hh|]. rewrite Hitem. subst w1.
  change (ls_item (set_ls_item ?v _)) with v.
  set (X := default [] (ls_item w) ++ [e]).
  destruct es as [|e' es].
  - done.
  - change (default [] (Some ?v)) with v.
    f_equal. rewrite <- (drop_app_le X (e' :: es)) by lia.
    rewrite drop_drop. subst X. rewrite <- app_assoc. simpl.
    f_equal. rewrite length_drop, !length_app. simpl. lia.
Qed.

End StorageAdapterFacts.

(** ** Sorting by time *)

Section SortFacts.
Import Logger.

Lemma insert_by_time_perm a l : insert_by_time a l ≡ₚ a :: l.
Proof.
  induction l as [|x l IH]; simpl; [done|].
  destruct (_ <=? _)%Z; [done|]. rewrite IH. apply Permutation_swap.
Qed.

Lemma sort_by_time_desc_perm l : sort_by_time_desc l ≡ₚ l.
Proof.
  induction l as [|x l IH]; simpl; [done|].
  rewrite insert_by_time_perm. by rewrite IH.
Qed.

Lemma insert_by_time_sorted a l : newest_first l → newest_first (insert_by_time a l).
Proof.
  unfold newest_first. induction 1 as [|x l Hs IH Hd]; simpl.
  - repeat constructor.
  - destruct (Z.leb_spec (le_timestamp x) (le_timestamp a)).
    + constructor; [by constructor|by constructor].
    + constructor; [done|].
      destruct Hd as [|y l Hxy]; simpl.
      * constructor. lia.
      * destruct (_ <=? _)%Z; constructor; lia.
Qed.

Lemma sort_by_time_desc_sorted l : newest_first (sort_by_time_desc l).
Proof.
  induction l as [|x l IH]; simpl; [constructor|].
  by apply insert_by_time_sorted.
Qed.

Lemma insert_by_time_oldest a l :
  Forall (fun x => (le_timestamp a < le_timestamp x)%Z) l →
  insert_by_time a l = l ++ [a].
Proof.
  induction 1 as [|x l Hx _ IH]; simpl; [done|].
  destruct (Z.leb_spec (le_timestamp x) (le_timestamp a)); [lia|].
  by rewrite IH.
Qed.

Lemma sort_by_time_desc_increasing l :
  increasing_time l → sort_by_time_desc l = reverse l.
Proof.
  induction 1 as [|a l _ IH Ha]; simpl; [done|].
  rewrite IH, reverse_cons. apply insert_by_time_oldest.
  by apply Forall_reverse.
Qed.

Lemma increasing_time_drop n l : increasing_time l → increasing_time (drop n l).
Proof.
  unfold increasing_time. intros H.
  rewrite <- (take_drop n l) in H. by apply StronglySorted_app_1_r in H.
Qed.

End SortFacts.

(** ** C5: what the durable store retains and what retrieval returns *)

(** C5, as the claim states it, fails: with capacity 3 and the stores
    A, B, C, D of entries that carry the same time, [getLogs] returns
    [B; C; D] (as [retrieve] does), not [D; C; B]. *)
Lemma getLogs_same_time_is_oldest_first :
  let w := StorageAdapter.store_all (StorageAdapter.new 3) same_time fresh_world in
  fst (Logger.getLogs None (Logger.mkSys default_logger w))
  = Normal [sample "B" 0; sample "C" 0; sample "D" 0]
  ∧ fst (Logger.getLogs None (Logger.mkSys default_logger w))
    ≠ Normal [sample "D" 0; sample "C" 0; sample "B" 0]
  ∧ fst (StorageAdapter.retrieve w)
    = Normal [sample "B" 0; sample "C" 0; sample "D" 0].
Proof. vm_compute. repeat split; congruence. Qed.

(** C5, amended.  In a store that starts empty and whose writes are all
    accepted, [n] sequential stores with capacity [C] leave exactly the
    newest [min n C] entries, which [retrieve] returns oldest first;
    [getLogs] returns the same entries ordered by non-increasing time, and
    in the reverse order of storing (newest first) when the times of the
    stored entries strictly increase. *)
Theorem durable_store_keeps_newest
    (C : nat) (es : list LogEntry) (w : World) (l : Logger.t) :
  healthy_storage w →
  ls_item w = None →
  let w' := StorageAdapter.store_all (StorageAdapter.new (Z.of_nat C)) es w in
  let kept := drop (length es - C) es in
  length kept = min (length es) C
  ∧ fst (StorageAdapter.retrieve w') = Normal kept
  ∧ ∃ sorted,
      fst (Logger.getLogs None (Logger.mkSys l w')) = Normal sorted
      ∧ sorted ≡ₚ kept
      ∧ newest_first sorted
      ∧ (increasing_time es → sorted = reverse kept).
Proof.
  intros Hw Hitem w' kept.
  destruct (store_all_healthy C es w Hw) as [[Hr Hacc] Hi].
  fold w' in Hr, Hacc, Hi. rewrite Hitem in Hi. simpl in Hi.
  assert (Hret : StorageAdapter.retrieve w' = (Normal kept, w')).
  { rewrite retrieve_readable by done. rewrite Hi.
    subst kept. by destruct es. }
  split; [subst kept; rewrite length_drop; lia|].
  split; [by rewrite Hret|].
  exists (Logger.sort_by_time_desc kept).
  split; [|split; [apply sort_by_time_desc_perm|split; [apply sort_by_time_desc_sorted|]]].
  - unfold Logger.getLogs, Logger.liftW, bind. simpl. by rewrite Hret.
  - intros Hinc. apply sort_by_time_desc_increasing. by apply increasing_time_drop.
Qed.

Lemma durable_store_keeps_newest_witness :
  healthy_storage fresh_world
  ∧ ls_item fresh_world = None
  ∧ increasing_time spaced
  ∧ fst (Logger.getLogs None
           (Logger.mkSys default_logger
              (StorageAdapter.store_all (StorageAdapter.new 3) spaced fresh_world)))
    = Normal [sample "D" 4; sample "C" 3; sample "B" 2].
Proof.
  assert (Hh : healthy_storage fresh_world) by (split; [reflexivity|intros; reflexivity]).
  assert (Hinc : increasing_time spaced).
  { unfold increasing_time, spaced. repeat constructor; simpl; lia. }
  split; [exact Hh|]. split; [reflexivity|]. split; [exact Hinc|].
  destruct (durable_store_keeps_newest 3 spaced fresh_world default_logger Hh eq_refl)
    as (_ & _ & sorted & Hs & _ & _ & Hrev).
  change (Z.of_nat 3) with 3%Z in Hs.
  rewrite Hs, (Hrev Hinc). reflexivity.
Defined.


(** ** C1: recovery from a write that the storage refuses *)


Section StoreRecovery.
Import StorageAdapter.

Variables (a : t) (e : LogEntry) (w : World) (error : JsValue).

Let logs0 := default [] (ls_item w).
Let first := maintain_limit a (logs0 ++ [e]).
Let reduced := slice_from (- (maxEntries a / 2)) logs0.
Let base := match ls_write w reduced with None => reduced | Some _ => [] end.

Hypothesis readable : ls_read_fault w = None.
Hypothesis removable : ls_remove_fault w = None.
Hypothesis refused : ls_write w first = Some error.

Lemma store_try_refused :
  store_try a e w = (Throw error, add_ls_call (SetItem first false) w).
Proof using readable refused.
  unfold store_try, bind. rewrite (retrieve_readable w readable).
  unfold setItem. fold logs0 first. by rewrite refused.
Qed.


Lemma clearOldEntries_after_refusal :
  clearOldEntries a (add_ls_call (SetItem first false) w)
  = (Normal tt,
     match ls_write w reduced with
     | None =>
         set_ls_item (Some reduced)
           (add_ls_call (SetItem reduced true) (add_ls_call (SetItem first false) w))
     | Some _ =>
         set_ls_item None
           (add_ls_call RemoveItem
              (add_ls_call (SetItem reduced false)
                 (add_ls_call (SetItem first false) w)))
     end).
Proof using readable removable.
  unfold clearOldEntries, bind.
  rewrite retrieve_readable by exact readable.
  cbn [ls_item add_ls_call]. fold logs0 reduced.
  unfold try_catch, setItem. cbn [ls_write add_ls_call].
  destruct (ls_write w reduced); [|reflexivity].
  unfold clear, try_catch, removeItem. cbn [ls_remove_fault add_ls_call].
  by rewrite removable.
Qed.

Lemma store_rec_quota_step stack :
  is_QuotaExceededError error = true →
  store_rec stack a e w
  = let w2 := snd (clearOldEntries a (add_ls_call (SetItem first false) w)) in
    match stack with
    | O => (Throw stack_overflow, w2)
    | S stack' => store_rec stack' a e w2
    end.
Proof using readable removable refused.
  intros Hq. destruct stack; cbn [store_rec]; unfold try_catch at 1;
    rewrite store_try_refused, Hq; unfold bind at 1;
    rewrite clearOldEntries_after_refusal; reflexivity.
Qed.


End StoreRecovery.



(** A storage that refuses every write (a quota of zero): however many
    nested calls the engine allows, [store] uses them all and ends with the
    engine's RangeError, without a word on the console. *)
Lemma store_rec_zero_quota stack a e w :
  ls_read_fault w = None →
  ls_remove_fault w = None →
  (∀ logs, ls_write w logs = Some QuotaExceededError) →
  fst (StorageAdapter.store_rec stack a e w) = Throw stack_overflow
  ∧ console (snd (StorageAdapter.store_rec stack a e w)) = console w.
Proof.
  revert w. induction stack as [|stack IH]; intros w Hr Hrm Hq;
    rewrite (store_rec_quota_step a e w QuotaExceededError Hr Hrm (Hq _) _ eq_refl);
    rewrite (clearOldEntries_after_refusal a e w Hr Hrm), Hq; cbn [snd].
  - done.
  - match goal with |- context [StorageAdapter.store_rec stack a e ?w1] =>
      destruct (IH w1 Hr Hrm Hq) as [H1 H2]; rewrite H1, H2 end.
    done.
Qed.

Lemma slice_from_newest {A} (h : nat) (l : list A) :
  (0 < h)%nat →
  slice_from (- Z.of_nat h) l = drop (length l - h) l.
Proof.
  intros Hh. unfold slice_from.
  destruct (Z.ltb_spec (- Z.of_nat h) 0); [|lia]. f_equal. lia.
Qed.

(** The storage takes at most five entries and the capacity is 10: once
    the log holds five entries or more, a store never settles, whatever
    the room for nested calls. *)
Lemma store_rec_quota_of_five stack : ∀ e w,
  ls_read_fault w = None →
  ls_remove_fault w = None →
  (∀ logs, ls_write w logs
           = if (length logs <=? 5)%nat then None else Some QuotaExceededError) →
  (5 ≤ length (default [] (ls_item w)) ≤ 9)%nat →
  fst (StorageAdapter.store_rec stack (StorageAdapter.new 10) e w) = Throw stack_overflow
  ∧ console (snd (StorageAdapter.store_rec stack (StorageAdapter.new 10) e w)) = console w.
Proof.
  induction stack as [|stack IH]; intros e w Hr Hrm Hq Hlen.
  all: set (logs0 := default [] (ls_item w)) in *.
  all: assert (Hfirst : StorageAdapter.maintain_limit (StorageAdapter.new 10) (logs0 ++ [e])
                        = logs0 ++ [e])
         by (unfold StorageAdapter.maintain_limit; cbn;
             destruct (Z.ltb_spec 10 (Z.of_nat (length (logs0 ++ [e]))));
             [rewrite length_app in *; simpl in *; lia|done]).
  all: assert (Hrefused : ls_write w (StorageAdapter.maintain_limit (StorageAdapter.new 10)
                                        (logs0 ++ [e])) = Some QuotaExceededError)
         by (rewrite Hfirst, Hq, length_app; simpl;
             destruct (Nat.leb_spec (length logs0 + 1) 5); [lia|done]).
  all: rewrite (store_rec_quota_step _ e w QuotaExceededError Hr Hrm Hrefused _ eq_refl).
  all: rewrite (clearOldEntries_after_refusal _ e w Hr Hrm).
  all: fold logs0; change (- (StorageAdapter.maxEntries (StorageAdapter.new 10) / 2))%Z
         with (- Z.of_nat 5)%Z.
  all: rewrite (slice_from_newest 5 logs0) by lia.
  all: assert (Hacc : ls_write w (drop (length logs0 - 5) logs0) = None)
         by (rewrite Hq, length_drop; destruct (Nat.leb_spec (length logs0 - (length logs0 - 5)) 5); [done|lia]).
  all: rewrite Hacc; cbn [snd].
  - done.
  - match goal with |- context [StorageAdapter.store_rec stack _ e ?w1] =>
      destruct (IH e w1 Hr Hrm Hq) as [H1 H2] end.
    + cbn. rewrite length_drop. lia.
    + rewrite H1, H2. done.
Qed.

(** ** RemoteAdapter *)

Section RemoteAdapterFacts.
Import RemoteAdapter.

Variables (a : t) (payload : RemoteLogPayload).

(** One failed attempt, up to the next iteration of the loop. *)
Lemma failed_attempt remaining attempt lastError net v :
  respond net (issued net) = Some v →
  ∃ e net1,
    attempts_from (S remaining) a payload attempt lastError net
    = attempts_from remaining a payload (attempt + 1)%Z (Some e) net1
    ∧ respond net1 = respond net
    ∧ issued net1 = S (issued net)
    ∧ events net1
      = events net ++ Request payload
          :: (if (attempt <? retryAttempts a)%Z
              then [Delay (retryDelay a * attempt)] else [])
    ∧ (instanceof_Error v = true → e = v).
Proof using Type.
  intros Hv. cbn [attempts_from]. unfold try_catch, makeRequest. rewrite Hv.
  unfold bind, when.
  destruct (instanceof_Error v) eqn:Hi; unfold ret, new_Error;
    destruct (attempt <? retryAttempts a)%Z; unfold delay, modify; cbn;
    eexists _, _; (split; [reflexivity|]); cbn;
    rewrite <- ?app_assoc; repeat split; try done.
Qed.

Lemma attempts_from_success remaining : ∀ (k : nat) attempt lastError net,
  (1 ≤ k ≤ remaining)%nat →
  (attempt + Z.of_nat remaining = retryAttempts a + 1)%Z →
  (∀ j, (j < k - 1)%nat → respond net (issued net + j)%nat ≠ None) →
  respond net (issued net + (k - 1))%nat = None →
  ∃ net',
    attempts_from remaining a payload attempt lastError net = (Normal tt, net')
    ∧ issued net' = (issued net + k)%nat
    ∧ events net' = events net ++ schedule payload (retryDelay a) attempt k.
Proof using Type.
  induction remaining as [|remaining IH]; intros k attempt lastError net Hk Hn Hfail Hok;
    [lia|].
  destruct k as [|[|k]]; [lia| |].
  - (* the first attempt succeeds *)
    replace (issued net + (1 - 1))%nat with (issued net) in Hok by lia.
    cbn [attempts_from]. unfold try_catch, makeRequest. rewrite Hok.
    eexists. split; [reflexivity|]. cbn. split; [lia|done].
  - (* the first attempt fails *)
    destruct (respond net (issued net)) as [v|] eqn:Hv.
    2:{ exfalso. apply (Hfail 0%nat); [lia|]. by rewrite Nat.add_0_r. }
    destruct (failed_attempt remaining attempt lastError net v Hv)
      as (e & net1 & Heq & Hresp & Hiss & Hev & _).
    destruct (IH (S k) (attempt + 1)%Z (Some e) net1) as (net' & Hrun & Hiss' & Hev').
    + lia.
    + lia.
    + intros j Hj. rewrite Hresp, Hiss.
      replace (S (issued net) + j)%nat with (issued net + S j)%nat by lia.
      apply Hfail. lia.
    + rewrite Hresp, Hiss.
      replace (S (issued net) + (S k - 1))%nat with (issued net + (S (S k) - 1))%nat by lia.
      exact Hok.
    + exists net'. split; [by rewrite Heq|]. split; [lia|].
      rewrite Hev', Hev.
      destruct (Z.ltb_spec attempt (retryAttempts a)); [|lia].
      rewrite <- app_assoc. reflexivity.
Qed.

Lemma attempts_from_exhausted remaining : ∀ attempt lastError net,
  (attempt + Z.of_nat remaining = retryAttempts a + 1)%Z →
  (∀ j, (j < remaining)%nat → respond net (issued net + j)%nat ≠ None) →
  ∃ thrown net',
    attempts_from remaining a payload attempt lastError net = (Throw thrown, net')
    ∧ issued net' = (issued net + remaining)%nat
    ∧ events net' = events net ++ schedule payload (retryDelay a) attempt remaining
    ∧ (∀ v, (1 ≤ remaining)%nat →
            respond net (issued net + (remaining - 1))%nat = Some v →
            instanceof_Error v = true → thrown = v).
Proof using Type.
  induction remaining as [|remaining IH]; intros attempt lastError net Hn Hfail.
  - cbn [attempts_from]. destruct lastError; eexists _, net;
      (split; [reflexivity|]); rewrite app_nil_r; repeat split; try done; try lia.
  - destruct (respond net (issued net)) as [v|] eqn:Hv.
    2:{ exfalso. apply (Hfail 0%nat); [lia|]. by rewrite Nat.add_0_r. }
    destruct (failed_attempt remaining attempt lastError net v Hv)
      as (e & net1 & Heq & Hresp & Hiss & Hev & He).
    destruct (IH (attempt + 1)%Z (Some e) net1) as (thrown & net' & Hrun & Hiss' & Hev' & Hlast).
    + lia.
    + intros j Hj. rewrite Hresp, Hiss.
      replace (S (issued net) + j)%nat with (issued net + S j)%nat by lia.
      apply Hfail. lia.
    + exists thrown, net'. split; [by rewrite Heq|]. split; [lia|]. split.
      * rewrite Hev', Hev, <- app_assoc. f_equal.
        destruct remaining as [|remaining].
        -- destruct (Z.ltb_spec attempt (retryAttempts a)); [lia|done].
        -- destruct (Z.ltb_spec attempt (retryAttempts a)); [done|lia].
      * intros v' _ Hv' Hi. destruct remaining as [|remaining].
        -- replace (issued net + (1 - 1))%nat with (issued net) in Hv' by lia.
           rewrite Hv in Hv'. injection Hv' as <-.
           cbn [attempts_from throw_lastError] in Hrun. unfold throw in Hrun.
           injection Hrun as <- _. by apply He.
        -- apply Hlast; [lia| |done]. rewrite Hresp, Hiss.
           replace (S (issued net) + (S remaining - 1))%nat
             with (issued net + (S (S remaining) - 1))%nat by lia.
           exact Hv'.
Qed.

(** Whatever the network does, the loop issues no more requests than it
    has iterations. *)
Lemma attempts_from_bounded remaining : ∀ attempt lastError net,
  (issued (snd (attempts_from remaining a payload attempt lastError net))
   ≤ issued net + remaining)%nat.
Proof using Type.
  induction remaining as [|remaining IH]; intros attempt lastError net.
  - cbn [attempts_from]. destruct lastError; cbn; lia.
  - destruct (respond net (issued net)) as [v|] eqn:Hv.
    + destruct (failed_attempt remaining attempt lastError net v Hv)
        as (e & net1 & Heq & _ & Hiss & _).
      rewrite Heq. specialize (IH (attempt + 1)%Z (Some e) net1). lia.
    + cbn [attempts_from]. unfold try_catch, makeRequest. rewrite Hv. cbn. lia.
Qed.

Lemma delays_of_schedule baseDelay (k : nat) : ∀ attempt,
  delays_of (schedule payload baseDelay attempt k)
  = (fun j => baseDelay * (attempt + Z.of_nat j))%Z <$> seq 0 (k - 1).
Proof using Type.
  induction k as [|[|k] IH]; intros attempt; [done|done|].
  change (delays_of (schedule payload baseDelay attempt (S (S k))))
    with ((baseDelay * attempt)%Z
          :: delays_of (schedule payload baseDelay (attempt + 1) (S k))).
  rewrite IH. replace (S (S k) - 1)%nat with (S (S k - 1)) by lia.
  cbn [seq fmap list_fmap]. f_equal; [f_equal; lia|].
  rewrite <- seq_shift, <- list_fmap_compose.
  apply list_fmap_ext. intros _ j _. simpl. f_equal. lia.
Qed.

Lemma linear_delays_increase (d : Z) (n : nat) : ∀ start,
  (0 < d)%Z →
  StronglySorted Z.lt ((fun j => d * Z.of_nat (S j))%Z <$> seq start n).
Proof using Type.
  induction n as [|n IH]; intros start Hd; cbn [seq fmap list_fmap]; constructor.
  - by apply IH.
  - apply Forall_fmap, Forall_forall. intros j Hj.
    apply elem_of_seq in Hj. cbn. nia.
Qed.

End RemoteAdapterFacts.

(** C7.  [sendBatch] does nothing when no endpoint is configured or the
    batch is empty.  Otherwise it never issues more requests than
    [retryAttempts]; when the [k]-th attempt is the first to succeed, with
    [k] within that bound, the call returns normally after exactly [k]
    requests, having waited [j * retryDelay] after the failed attempt
    number [j]; when every attempt fails the call throws (the error of the
    last attempt) after [retryAttempts] requests, with no wait after the
    last one.  The call only reads and writes the network: the ring buffer
    is out of its reach. *)
Theorem sendBatch_retries_with_linear_backoff
    (a : RemoteAdapter.t) (entries : list LogEntry) (net : RemoteAdapter.Net) (k : nat) :
  let n := Z.to_nat (RemoteAdapter.retryAttempts a) in
  let r := RemoteAdapter.sendBatch a entries net in
  let tried := RemoteAdapter.schedule (RemoteAdapter.payload_of entries)
                 (RemoteAdapter.retryDelay a) 1 in
  (RemoteAdapter.endpoint_missing a = true ∨ entries = [] → r = (Normal tt, net))
  ∧ (RemoteAdapter.issued (snd r) ≤ RemoteAdapter.issued net + n)%nat
  ∧ (RemoteAdapter.endpoint_missing a = false → entries ≠ [] →
     ((1 ≤ k ≤ n)%nat →
      (∀ j, (j < k - 1)%nat →
            RemoteAdapter.respond net (RemoteAdapter.issued net + j)%nat ≠ None) →
      RemoteAdapter.respond net (RemoteAdapter.issued net + (k - 1))%nat = None →
      fst r = Normal tt
      ∧ RemoteAdapter.issued (snd r) = (RemoteAdapter.issued net + k)%nat
      ∧ RemoteAdapter.events (snd r) = RemoteAdapter.events net ++ tried k)
     ∧ ((1 ≤ n)%nat →
        (∀ j, (j < n)%nat →
              RemoteAdapter.respond net (RemoteAdapter.issued net + j)%nat ≠ None) →
        (∃ v, fst r = Throw v
              ∧ ∀ v', RemoteAdapter.respond net (RemoteAdapter.issued net + (n - 1))%nat
                      = Some v' →
                      instanceof_Error v' = true → v = v')
        ∧ RemoteAdapter.issued (snd r) = (RemoteAdapter.issued net + n)%nat
        ∧ RemoteAdapter.events (snd r) = RemoteAdapter.events net ++ tried n))
  ∧ (∀ k', RemoteAdapter.delays_of (tried k')
           = (fun j => RemoteAdapter.retryDelay a * Z.of_nat (S j))%Z <$> seq 0 (k' - 1))
  ∧ ((0 < RemoteAdapter.retryDelay a)%Z →
     ∀ k', StronglySorted Z.lt (RemoteAdapter.delays_of (tried k'))).
Proof.
  intros n r tried.
  assert (Hn : (1 + Z.of_nat n = RemoteAdapter.retryAttempts a + 1)%Z
               ∨ (n = 0%nat ∧ (RemoteAdapter.retryAttempts a ≤ 0)%Z)) by lia.
  assert (Hdelays : ∀ k', RemoteAdapter.delays_of (tried k')
            = (fun j => RemoteAdapter.retryDelay a * Z.of_nat (S j))%Z <$> seq 0 (k' - 1)).
  { intros k'. subst tried. rewrite delays_of_schedule.
    apply list_fmap_ext. intros _ j _. f_equal. lia. }
  split; [|split; [|split; [|split]]].
  - intros Hnoop. subst r. unfold RemoteAdapter.sendBatch.
    destruct Hnoop as [-> | ->]; [done|].
    by rewrite orb_true_r.
  - subst r. unfold RemoteAdapter.sendBatch.
    destruct (_ || _); [cbn; lia|]. apply attempts_from_bounded.
  - intros Hend Hne.
    assert (Hrun : r = RemoteAdapter.attempts_from n a
                         (RemoteAdapter.payload_of entries) 1%Z None net).
    { subst r. unfold RemoteAdapter.sendBatch. rewrite Hend.
      destruct entries; [done|reflexivity]. }
    split.
    + intros Hk Hfail Hok.
      destruct Hn as [Hn|[Hn _]]; [|lia].
      destruct (attempts_from_success a (RemoteAdapter.payload_of entries) n k 1%Z None net
                  Hk Hn Hfail Hok) as (net' & Heq & Hiss & Hev).
      rewrite Hrun, Heq. done.
    + intros Hpos Hfail.
      destruct Hn as [Hn|[Hn _]]; [|lia].
      destruct (attempts_from_exhausted a (RemoteAdapter.payload_of entries) n 1%Z None net
                  Hn Hfail) as (thrown & net' & Heq & Hiss & Hev & Hlast).
      rewrite Hrun, Heq. split; [|done].
      exists thrown. split; [done|]. intros v' Hv' Hi. by apply Hlast.
  - exact Hdelays.
  - intros Hd k'. rewrite Hdelays. by apply linear_delays_increase.
Qed.

Lemma sendBatch_retries_with_linear_backoff_witness :
  let a := RemoteAdapter.new (Some "https://logs.example/ingest") in
  let batch := [sample "A" 1] in
  let r := RemoteAdapter.sendBatch a batch (RemoteAdapter.flaky 2) in
  fst r = Normal tt
  ∧ RemoteAdapter.events (snd r)
    = [RemoteAdapter.Request (RemoteAdapter.payload_of batch);
       RemoteAdapter.Delay 1000;
       RemoteAdapter.Request (RemoteAdapter.payload_of batch);
       RemoteAdapter.Delay 2000;
       RemoteAdapter.Request (RemoteAdapter.payload_of batch)]
  ∧ StronglySorted Z.lt (RemoteAdapter.delays_of (RemoteAdapter.events (snd r))).
Proof.
  intros a batch r.
  destruct (sendBatch_retries_with_linear_backoff a batch (RemoteAdapter.flaky 2) 3)
    as (_ & _ & H & _ & Hsorted).
  destruct (H eq_refl ltac:(discriminate)) as [Hok _].
  destruct Hok as (H1 & _ & H3).
  - simpl. lia.
  - intros [|[|j]] Hj; simpl; [discriminate|discriminate|lia].
  - reflexivity.
  - split; [exact H1|]. split; [exact H3|].
    subst r. rewrite H3. apply (Hsorted ltac:(simpl; lia) 3%nat).
Defined.

(** ** PerformanceTracker *)

Section PerformanceTrackerFacts.
Import PerformanceTracker.

Lemma start_lookup now label p : measurements (start now label p) !! label = Some now.
Proof. unfold start, log_call; simpl. apply lookup_insert_eq. Qed.

(** [end] on a label whose start reading is not zero removes the label. *)
Lemma end_removes now label p startTime :
  measurements p !! label = Some startTime →
  startTime ≠ 0%Z →
  fst (end_ now label p) = (now - startTime)%Z
  ∧ measurements (snd (end_ now label p)) !! label = None.
Proof.
  intros Hl Hz. unfold end_. rewrite Hl. simpl.
  destruct (Z.eqb_spec startTime 0); [done|]. simpl.
  split; [done|]. apply lookup_delete_eq.
Qed.

(** [end] on a label that is absent, or whose start reading is zero,
    changes nothing but the log. *)
Lemma end_not_found now label p :
  truthy_number (measurements p !! label) = false →
  end_ now label p = (0%Z, log_call (not_found label) p).
Proof. intros H. unfold end_. by rewrite H. Qed.

(** Where the clock read a non-zero value at the start and [fn] leaves the
    tracker alone, a throwing [fn] leaves no measurement behind and its
    error is the one that [measure] throws. *)
Lemma measure_throw_removes_label {T} t0 t1 label (e : JsValue) p :
  t0 ≠ 0%Z →
  let r := measure (T:=T) t0 t1 label (fun p' => (Throws e, p')) p in
  fst r = Throws e ∧ measurements (snd r) !! label = None.
Proof.
  intros Hz r. subst r. unfold measure. cbn [fst snd].
  split; [done|].
  destruct (end_removes t1 label (start t0 label p) t0 (start_lookup _ _ _) Hz) as [_ H].
  exact H.
Qed.

End PerformanceTrackerFacts.

(** C8, at the input where it fails.  When the clock reads 0 in [start]
    and [fn] throws [e], [measure] throws the same [e], but the label is
    still among the active measurements after the call. *)
Theorem measure_throw_at_time_zero_keeps_label
    (T : Type) (label : string) (e : JsValue) (t1 : Z) (p : PerformanceTracker.t) :
  let r := PerformanceTracker.measure (T:=T) 0 t1 label
             (fun p' => (PerformanceTracker.Throws e, p')) p in
  fst r = PerformanceTracker.Throws e
  ∧ PerformanceTracker.measurements (snd r) !! label = Some 0%Z
  ∧ label ∈ PerformanceTracker.getActiveMeasurements (snd r).
Proof.
  intros r. subst r. unfold PerformanceTracker.measure. cbn [fst snd].
  rewrite end_not_found by (by rewrite start_lookup).
  cbn [snd]. split; [done|].
  assert (H : PerformanceTracker.measurements
                (PerformanceTracker.log_call (PerformanceTracker.failed label e)
                   (PerformanceTracker.log_call (PerformanceTracker.not_found label)
                      (PerformanceTracker.start 0 label p))) !! label = Some 0%Z)
    by apply start_lookup.
  split; [exact H|].
  unfold PerformanceTracker.getActiveMeasurements. apply elem_of_dom. by rewrite H.
Qed.

(** C10.  After a [start] in which the clock read exactly 0, [end] on the
    same label takes the label for unknown: it logs the warning, returns 0
    and leaves the label in the measurements map. *)
Theorem end_after_start_at_zero_is_not_found
    (label : string) (now : Z) (p : PerformanceTracker.t) :
  let p1 := PerformanceTracker.start 0 label p in
  PerformanceTracker.end_ now label p1
  = (0%Z, PerformanceTracker.log_call (PerformanceTracker.not_found label) p1)
  ∧ PerformanceTracker.lc_level (PerformanceTracker.not_found label) = WARN
  ∧ PerformanceTracker.measurements (snd (PerformanceTracker.end_ now label p1)) !! label
    = Some 0%Z
  ∧ PerformanceTracker.measurements (snd (PerformanceTracker.end_ now label p1))
    = PerformanceTracker.measurements p1.
Proof.
  intros p1.
  assert (H : PerformanceTracker.end_ now label p1
              = (0%Z, PerformanceTracker.log_call (PerformanceTracker.not_found label) p1)).
  { apply end_not_found. subst p1. by rewrite start_lookup. }
  rewrite H. cbn [snd]. split; [done|]. split; [done|]. split; [|done].
  apply start_lookup.
Qed.

(** ** SessionManager *)

Section SessionFacts.
Import SessionManager.

Lemma createNewSession_run rd s :
  createNewSession rd s
  = (Normal (fresh rd),
     match ss_write_fault (browser s) with
     | Some v =>
         in_browser
           (add_console [ConsoleText c_warn "Failed to store session data:" (Some v)]) s
     | None =>
         in_browser (set_ss_item (Some (Parsed (Object
           (mkSessionData (fresh rd) (Some (sessionStartTime (manager s)))
              (userAgent rd) (href rd) None None))))) s
     end).
Proof.
  unfold createNewSession, bind, get, try_catch, setItem, console_warn, console_call,
    modify, ret.
  by destruct (ss_write_fault (browser s)).
Qed.

(** What a construction yields and what it leaves of the browser. *)
Lemma new_run cal self start now rd w :
  let known := match ss_read_fault w, ss_item w with
               | None, Some (Parsed (Object session)) =>
                   if isSameDay cal (sd_startTime session) (Some now)
                   then Some (sd_id session) else None
               | _, _ => None
               end in
  ∃ s, new cal self start now rd w = (Normal tt, s)
       ∧ sessionStartTime (manager s) = start
       ∧ sessionId (manager s) = default (fresh rd) known
       ∧ ss_item (browser s)
         = match known, ss_write_fault w with
           | None, None =>
               Some (Parsed (Object (mkSessionData (fresh rd) (Some start) (userAgent rd)
                                       (href rd) None None)))
           | _, _ => ss_item w
           end
       ∧ listeners (browser s) = listeners w ++ [mkListener "beforeunload" self]
       ∧ doc_listeners (browser s)
         = doc_listeners w ++ [mkListener "visibilitychange" self]
       ∧ timers (browser s) = timers w
       ∧ next_timer (browser s) = next_timer w
       ∧ ls_item (browser s) = ls_item w
       ∧ ls_calls (browser s) = ls_calls w.
Proof.
  unfold new, loadOrCreateSession, bind at 1 2.
  unfold try_catch, bind at 1, getItem. cbn [browser manager].
  destruct (ss_read_fault w) as [v|] eqn:Hr.
  - unfold bind, console_warn, console_call, modify, ret.
    rewrite createNewSession_run. cbn.
    eexists. split; [done|]. by destruct (ss_write_fault w).
  - destruct (ss_item w) as [[e|[|session]]|] eqn:Hi.
    + unfold parse, bind, throw, console_warn, console_call, modify, ret.
      rewrite createNewSession_run. cbn.
      eexists. split; [done|]. destruct (ss_write_fault w); cbn; by rewrite ?Hi.
    + unfold parse, bind at 1, ret at 1. cbn [startTime_of isSameDay].
      unfold ret at 1. rewrite createNewSession_run.
      unfold ret, bind, modify, trackPageVisibility, bind, modify. cbn.
      eexists. split; [done|]. destruct (ss_write_fault w); cbn; by rewrite ?Hi.
    + unfold parse, bind at 1, ret at 1. cbn [startTime_of].
      destruct (isSameDay cal (sd_startTime session) (Some now)) eqn:Hd.
      * unfold ret, bind, modify, trackPageVisibility, bind, modify. cbn.
        eexists. done.
      * unfold ret at 1. rewrite createNewSession_run.
        unfold ret, bind, modify, trackPageVisibility, bind, modify. cbn.
        eexists. split; [done|]. destruct (ss_write_fault w); cbn; by rewrite ?Hi.
    + unfold ret at 1. rewrite createNewSession_run.
      unfold ret, bind, modify, trackPageVisibility, bind, modify. cbn.
      eexists. split; [done|]. destruct (ss_write_fault w); cbn; by rewrite ?Hi.
Qed.

Lemma renewSession_run now rd s :
  renewSession now rd s
  = (Normal (fresh rd),
     mkSys (mk (fresh rd) now) (browser (snd (createNewSession rd s)))).
Proof.
  unfold renewSession, bind. rewrite createNewSession_run.
  unfold modify, get, ret. cbn. by destruct (ss_write_fault (browser s)).
Qed.

End SessionFacts.

(** ** Logger *)

Section WorldFacts.
Import StorageAdapter.





Lemma extends_set_ls_item v w : extends w (set_ls_item v w).
Proof. split; exists []; by rewrite app_nil_r. Qed.







End WorldFacts.

Section LoggerFacts.
Import Logger.

Lemma promise_catch_normal p handler s : fst (promise_catch p handler s) = Normal tt.
Proof.
  destruct p; cbn; try done. unfold try_catch.
  by destruct (handler reason s) as [[[]|v] s'].
Qed.

Lemma async_normal body s : ∃ p, fst (async body s) = Normal p.
Proof.
  unfold async, try_catch. destruct (body s) as [[p|v] s']; cbn; eauto.
Qed.


Lemma log_below_threshold rd level message component metadata s :
  shouldLog (logger s) level = false →
  log rd level message component metadata s = (Normal tt, s).
Proof. intros H. unfold log, bind, get. by rewrite H. Qed.

Lemma log_normal rd level message component metadata s :
  fst (log rd level message component metadata s) = Normal tt.
Proof.
  unfold log, bind at 1, get.
  destruct (shouldLog (logger s) level); cbn [negb]; [|done].
  unfold bind, processLogEntry.
  match goal with
  | |- context [async ?body s] =>
      destruct (async_normal body s) as [p Hp];
      destruct (async body s) as [[p'|v] s']; cbn in Hp; [|done]
  end.
  apply promise_catch_normal.
Qed.

Lemma flush_resume_normal i net s : fst (flush_resume i net s) = Normal tt.
Proof.
  unfold flush_resume, bind, get.
  destruct (pending (logger s) !! i) as [[adapter entries]|]; [|done].
  cbn. unfold try_catch.
  by destruct (fst (RemoteAdapter.sendBatch adapter entries net)) as [[]|v].
Qed.

End LoggerFacts.

(** C9.  [log] returns normally for every level, message, component and
    metadata and in every state of the browser: whether the console
    adapter throws, the storage refuses or lacks the room for the store's
    nested calls, or the remote path fails, nothing is thrown back to the
    caller.  The part of a flush that runs after [sendBatch] has settled
    ends normally too. *)
Theorem log_never_throws
    (rd : Logger.Reading) (level : LogLevel) (message : string)
    (component : option string) (metadata : option (list (string * MetaValue)))
    (i : nat) (net : RemoteAdapter.Net) (s : Logger.Sys) :
  fst (Logger.log rd level message component metadata s) = Normal tt
  ∧ fst (Logger.flush_resume i net s) = Normal tt.
Proof. split; [apply log_normal|apply flush_resume_normal]. Qed.

(** ** C3: the window handlers *)

Section ConstructionFacts.
Import Logger.

(** The listeners after [new Logger(config)]: the session manager's come
    first, then the two of [setupErrorHandlers]; the timers are the old
    ones and at most the flush timer. *)
Lemma new_listeners over self session w :
  listeners (world (new over self session w))
  = listeners w
    ++ [mkListener "beforeunload" (SessionManager.identity session);
        mkListener "error" self; mkListener "unhandledrejection" self]
  ∧ doc_listeners (world (new over self session w))
    = doc_listeners w
      ++ [mkListener "visibilitychange" (SessionManager.identity session)].
Proof.
  unfold new, SessionManager.construct.
  destruct (new_run (SessionManager.calendar session) (SessionManager.identity session)
              (SessionManager.started session) (SessionManager.loaded session)
              (SessionManager.reading session) w)
    as (sm & Hsm & _ & _ & _ & Hl & Hd & _).
  rewrite Hsm. cbn [snd].
  unfold initializeAutoFlush, setupErrorHandlers, bind, get. cbn.
  destruct (0 <? _)%Z; cbn; rewrite Hl, Hd, <- ?app_assoc; done.
Qed.

Lemma destroy_normal s : fst (destroy s) = Normal tt.
Proof.
  unfold destroy, bind.
  destruct (clear_flushTimer s) as [[[]|v] s1] eqn:H1.
  - destruct (async_normal flush s1) as [p Hp].
    destruct (async flush s1) as [[p'|v] s2]; cbn in Hp; [|done].
    apply promise_catch_normal.
  - revert H1. unfold clear_flushTimer, bind, get.
    by destruct (flushTimer (logger s)).
Qed.

(** The flush of [destroy()]: with remote logging on and entries in the
    buffer, the buffer is emptied and its entries are handed to
    [sendBatch] as one batch; otherwise the logger is as it was. *)
Lemma destroy_flushes s :
  logger (snd (destroy s))
  = if enableRemote (config (logger s)) && (0 <? LogBuffer.size (buffer (logger s)))%nat
    then set_pending
           (pending (logger s)
            ++ [(remoteAdapter (logger s), LogBuffer.buffer (buffer (logger s)))])
           (set_buffer (snd (LogBuffer.flush (buffer (logger s)))) (logger s))
    else logger s.
Proof.
  unfold destroy, clear_flushTimer, async, flush, promise_catch, try_catch, bind, get,
    modify, ret.
  destruct (flushTimer (logger s)); cbn;
    destruct (enableRemote _ && _); cbn; done.
Qed.

End ConstructionFacts.

(** C3, as the claim states it, fails: after [destroy()] both handlers that
    the instance registered are still installed, after the listener of the
    session manager that its constructor built. *)
Lemma destroy_leaves_handlers_installed :
  let s := Logger.new no_overrides 7 (session "session") fresh_world in
  let s' := snd (Logger.destroy s) in
  listeners (Logger.world s')
  = [mkListener "beforeunload" 0; mkListener "error" 7; mkListener "unhandledrejection" 7]
  ∧ ¬ Forall (fun h => l_owner h ≠ 7%nat) (listeners (Logger.world s')).
Proof.
  split; [reflexivity|].
  intros H. apply Forall_cons in H as [_ H]. apply Forall_cons in H as [H _]. by apply H.
Qed.

(** C3, amended.  The constructor registers the handlers for uncaught
    errors and for unhandled rejections whatever the configuration, after
    the listeners of the session manager that it builds (one on the
    window, one on the document).  [destroy()] ends normally, removes the
    logger's interval timer from the active timers, and flushes once:
    with remote logging on and entries in the buffer these leave the
    buffer as one batch for [sendBatch], whose failure is not thrown;
    otherwise the logger is as it was.  Every listener stays installed. *)
Theorem handlers_registered_and_never_removed
    (over : PartialConfig) (self : nat) (session : SessionManager.Construction)
    (w : World)
    (s : Logger.Sys) :
  let l := Logger.logger s in
  let s' := snd (Logger.destroy s) in
  listeners (Logger.world (Logger.new over self session w))
  = listeners w
    ++ [mkListener "beforeunload" (SessionManager.identity session);
        mkListener "error" self; mkListener "unhandledrejection" self]
  ∧ doc_listeners (Logger.world (Logger.new over self session w))
    = doc_listeners w
      ++ [mkListener "visibilitychange" (SessionManager.identity session)]
  ∧ fst (Logger.destroy s) = Normal tt
  ∧ listeners (Logger.world s') = listeners (Logger.world s)
  ∧ doc_listeners (Logger.world s') = doc_listeners (Logger.world s)
  ∧ (if Logger.flushTimer l is Some t
     then t ∉ timers (Logger.world s')
     else timers (Logger.world s') = timers (Logger.world s))
  ∧ (if enableRemote (Logger.config l) && (0 <? LogBuffer.size (Logger.buffer l))%nat
     then LogBuffer.buffer (Logger.buffer (Logger.logger s')) = []
          ∧ Logger.pending (Logger.logger s')
            = Logger.pending l
              ++ [(Logger.remoteAdapter l, LogBuffer.buffer (Logger.buffer l))]
     else Logger.logger s' = l)
  ∧ (∀ i net, fst (Logger.flush_resume i net s') = Normal tt).
Proof.
  intros l s'.
  destruct (new_listeners over self session w) as [Hl Hd].
  split; [exact Hl|]. split; [exact Hd|]. split; [apply destroy_normal|].
  split; [|split; [|split; [|split]]].
  - subst s'. unfold Logger.destroy, Logger.clear_flushTimer, Logger.async, Logger.flush,
      Logger.promise_catch, try_catch, bind, get, modify, ret.
    destruct (Logger.flushTimer (Logger.logger s)); cbn;
      destruct (enableRemote _ && _); cbn; done.
  - subst s'. unfold Logger.destroy, Logger.clear_flushTimer, Logger.async, Logger.flush,
      Logger.promise_catch, try_catch, bind, get, modify, ret.
    destruct (Logger.flushTimer (Logger.logger s)); cbn;
      destruct (enableRemote _ && _); cbn; done.
  - subst s' l. unfold Logger.destroy, Logger.clear_flushTimer, Logger.async,
      Logger.flush, Logger.promise_catch, try_catch, bind, get, modify, ret.
    destruct (Logger.flushTimer (Logger.logger s)) as [t|]; cbn;
      destruct (enableRemote _ && _); cbn; try done.
    all: rewrite list_elem_of_filter; intros [Hne _]; by apply Hne.
  - subst s' l. rewrite destroy_flushes.
    by destruct (enableRemote _ && _).
  - intros i net. apply flush_resume_normal.
Qed.

(** ** C4: the level filter and the fan-out *)

Section FanOut.
Import Logger.

Variables (rd : Reading) (level : LogLevel) (message : string)
          (component : option string)
          (metadata : option (list (string * MetaValue)))
          (s : Sys).

Let entry := createLogEntry (logger s) rd level message component metadata.
Let s' := snd (log rd level message component metadata s).

Hypothesis passes : shouldLog (logger s) level = true.

Local Arguments StorageAdapter.store : simpl never.

Ltac stage_console Hr :=
  match type of Hr with
  | context [enableConsole ?c] =>
      destruct (enableConsole c) eqn:HeC;
      [ unfold liftW at 1, ConsoleAdapter.log in Hr; cbn in Hr;
        match type of Hr with
        | context [console_fault ?w ?e] =>
            destruct (console_fault w e) eqn:Hcf; cbn in Hr
        end
      | cbn in Hr ]
  end.
Ltac stage_storage Hr :=
  match type of Hr with
  | context [enableStorage ?c] =>
      destruct (enableStorage c) eqn:HeS;
      [ unfold liftW in Hr; cbn in Hr;
        match type of Hr with
        | context [StorageAdapter.store ?a ?e ?w] =>
            destruct (StorageAdapter.store a e w) as [[[]|thrown] w2] eqn:Hst
        end
      | ]; cbn in Hr
  end.
Ltac stage_remote Hr :=
  try match type of Hr with
      | context [enableRemote ?c] => destruct (enableRemote c) eqn:HeR; cbn in Hr
      end;
  try match type of Hr with
      | context [LogBuffer.isFull ?b] => destruct (LogBuffer.isFull b) eqn:Hfull; cbn in Hr
      end;
  try match type of Hr with
      | context [LogBuffer.size ?b] =>
          destruct (LogBuffer.size b) eqn:Hsize;
          try match goal with H : enableRemote _ = true |- _ => rewrite H in Hr end;
          cbn in Hr
      end.
Ltac run_log r Hr :=
  unfold log, bind at 1, get in Hr; rewrite passes in Hr;
  cbn [negb] in Hr; fold entry in Hr;
  unfold bind, processLogEntry, async, try_catch, bind, modify, get, when in Hr;
  cbn in Hr;
  stage_console Hr; try stage_storage Hr; stage_remote Hr;
  subst r; cbn.


Lemma log_offers_to_buffer :
  (buffer (logger s') = LogBuffer.add entry (buffer (logger s))
   ∧ pending (logger s') = pending (logger s))
  ∨ (buffer (logger s') = snd (LogBuffer.flush (LogBuffer.add entry (buffer (logger s))))
     ∧ pending (logger s')
       = pending (logger s)
         ++ [(remoteAdapter (logger s),
              LogBuffer.buffer (LogBuffer.add entry (buffer (logger s))))]).
Proof using passes.
  subst s'. remember (log rd level message component metadata s) as r eqn:Hr.
  run_log r Hr. all: try (by left); try (by right).
Qed.




Lemma log_skips_disabled_storage :
  enableStorage (config (logger s)) = false →
  ls_calls (world s') = ls_calls (world s) ∧ ls_item (world s') = ls_item (world s).
Proof using passes.
  intros Hs.
  subst s'. remember (log rd level message component metadata s) as r eqn:Hr.
  run_log r Hr; try congruence; done.
Qed.
End FanOut.




(** ** C2: a flush whose transmission fails *)

Section FlushFacts.
Import Logger.

(** What [flush] does up to its [await]. *)
Lemma flush_run s :
  flush s
  = if enableRemote (config (logger s)) && (0 <? LogBuffer.size (buffer (logger s)))%nat
    then (Normal Suspended,
          mkSys (set_pending (pending (logger s)
                                ++ [(remoteAdapter (logger s),
                                     LogBuffer.buffer (buffer (logger s)))])
                   (set_buffer (snd (LogBuffer.flush (buffer (logger s)))) (logger s)))
                (world s))
    else (Normal Fulfilled, s).
Proof. unfold flush, bind, get. by destruct (_ && _). Qed.

Lemma batches_fit_flush s :
  batches_fit (logger s) →
  batches_fit (logger (snd (flush s)))
  ∧ LogBuffer.maxSize (buffer (logger (snd (flush s))))
    = LogBuffer.maxSize (buffer (logger s)).
Proof.
  intros [Hf Hp]. rewrite flush_run. destruct (_ && _); cbn; [|done].
  split; [|done]. destruct Hf as [H1 H2]. split.
  - unfold LogBuffer.fits, LogBuffer.size; cbn. lia.
  - cbn. apply Forall_app. split; [done|]. constructor; [|constructor]. exact H2.
Qed.

Lemma batches_fit_log rd level message component metadata s :
  batches_fit (logger s) →
  batches_fit (logger (snd (log rd level message component metadata s)))
  ∧ LogBuffer.maxSize (buffer (logger (snd (log rd level message component metadata s))))
    = LogBuffer.maxSize (buffer (logger s)).
Proof.
  intros [Hf Hp].
  destruct (shouldLog (logger s) level) eqn:Hpass.
  2:{ by rewrite log_below_threshold. }
  pose proof (fits_add (createLogEntry (logger s) rd level message component metadata)
                (buffer (logger s)) Hf) as Hf'.
  destruct (log_offers_to_buffer rd level message component metadata s Hpass)
    as [[Hb Hq]|[Hb Hq]]; unfold batches_fit; rewrite Hb, Hq.
  - rewrite add_maxSize. done.
  - cbn. rewrite add_maxSize. split; [|done]. destruct Hf' as [H1 H2]. split.
    + unfold LogBuffer.fits, LogBuffer.size; cbn. rewrite add_maxSize in *. lia.
    + apply Forall_app. split; [done|]. constructor; [|constructor].
      cbn. rewrite add_maxSize in H2. exact H2.
Qed.

Lemma flush_resume_run i net s adapter entries :
  pending (logger s) !! i = Some (adapter, entries) →
  snd (flush_resume i net s)
  = match fst (RemoteAdapter.sendBatch adapter entries net) with
    | Normal _ =>
        mkSys (set_pending (delete i (pending (logger s))) (logger s)) (world s)
    | Throw error =>
        mkSys (set_buffer (LogBuffer.add_all entries (buffer (logger s)))
                 (set_pending (delete i (pending (logger s))) (logger s)))
              (add_console [ConsoleText c_warn "Failed to send logs to remote endpoint:"
                              (Some error)] (world s))
    end.
Proof.
  intros Hp. unfold flush_resume, bind, get. rewrite Hp. cbn. unfold try_catch.
  by destruct (fst (RemoteAdapter.sendBatch adapter entries net)) as [[]|v].
Qed.

Lemma flush_resume_idle i net s :
  pending (logger s) !! i = None → snd (flush_resume i net s) = s.
Proof. intros Hp. unfold flush_resume, bind, get. by rewrite Hp. Qed.

Lemma batches_fit_resume i net s :
  batches_fit (logger s) →
  batches_fit (logger (snd (flush_resume i net s)))
  ∧ LogBuffer.maxSize (buffer (logger (snd (flush_resume i net s))))
    = LogBuffer.maxSize (buffer (logger s)).
Proof.
  intros [Hf Hp].
  destruct (pending (logger s) !! i) as [[adapter entries]|] eqn:Hi.
  2:{ by rewrite flush_resume_idle. }
  rewrite (flush_resume_run i net s adapter entries Hi).
  destruct (fst (RemoteAdapter.sendBatch adapter entries net)) as [[]|v]; cbn.
  - split; [|done]. split; [done|]. cbn. by apply Forall_delete.
  - destruct (add_all_spec entries (buffer (logger s)) Hf) as (Hm & Hf' & _).
    split; [|done]. split; [done|]. cbn. rewrite Hm. by apply Forall_delete.
Qed.

Lemma batches_fit_step e s :
  batches_fit (logger s) →
  batches_fit (logger (step e s))
  ∧ LogBuffer.maxSize (buffer (logger (step e s))) = LogBuffer.maxSize (buffer (logger s)).
Proof.
  intros Hs. destruct e; unfold step, run.
  - by apply batches_fit_log.
  - unfold timer_fires, bind, get.
    destruct (flushTimer (logger s)); [|done].
    destruct (bool_decide _); [|done].
    pose proof (batches_fit_flush s Hs) as H.
    by destruct (flush s) as [[p|v] s1].
  - by apply batches_fit_resume.
  - unfold clearLogs, bind, liftW, modify.
    destruct (StorageAdapter.clear (world s)) as [[[]|v] w1]; cbn; [|done].
    destruct Hs as [[H1 H2] Hp]. split; [|done]. split; [|done].
    unfold LogBuffer.fits, LogBuffer.size; cbn. lia.
  - unfold setConfig, bind, modify, when, clear_flushTimer, initializeAutoFlush, bind, get, modify.
    cbn. destruct (truthy_number _), (truthy_string _), (p_flushInterval over); cbn;
      try destruct (flushTimer (logger s)); cbn; try destruct (0 <? _)%Z; cbn; done.
  - unfold destroy, bind, clear_flushTimer, bind, get, modify.
    destruct (flushTimer (logger s)); cbn.
    + match goal with |- context [async flush ?s1] =>
        pose proof (batches_fit_flush s1 Hs) as H; unfold async, try_catch;
        destruct (flush s1) as [[p|v] s2] end; cbn in *.
      * destruct p; cbn; first [done|unfold try_catch; cbn; done].
      * first [done|unfold try_catch; cbn; done].
    + pose proof (batches_fit_flush s Hs) as H; unfold async, try_catch.
      destruct (flush s) as [[p|v] s2]; cbn in *.
      * destruct p; cbn; first [done|unfold try_catch; cbn; done].
      * first [done|unfold try_catch; cbn; done].
Qed.

Lemma batches_fit_steps es : ∀ s,
  batches_fit (logger s) → batches_fit (logger (steps es s)).
Proof.
  induction es as [|e es IH]; intros s Hs; [done|].
  cbn. apply IH. by apply batches_fit_step.
Qed.

Lemma batches_fit_new over self session w :
  batches_fit (logger (new over self session w)).
Proof.
  unfold new, initializeAutoFlush, setupErrorHandlers, bind, get, modify. cbn.
  destruct (0 <? _)%Z; cbn; (split; [apply fits_new|constructor]).
Qed.

End FlushFacts.


(** C2.  Take any logger, after any calls and events since its
    construction, and one of its flushes that waits for [sendBatch].  When
    the transmission fails, the whole batch is back in the ring buffer, in
    its order, behind what the buffer still keeps of the entries that
    arrived in between (the oldest of those give way when the capacity is
    reached); the batch no longer waits, and the failure goes to
    [console.warn].  A flush takes its batch out of the buffer in one
    step: the buffer is empty afterwards and the batch is exactly what it
    held. *)
Theorem failed_flush_restores_whole_batch
    (over : PartialConfig) (self : nat) (session : SessionManager.Construction)
    (w : World)
    (es : list Logger.event) (i : nat) (net : RemoteAdapter.Net)
    (adapter : RemoteAdapter.t) (batch : list LogEntry) (error : JsValue)
    (s0 : Logger.Sys) :
  let s := Logger.steps es (Logger.new over self session w) in
  let s' := Logger.step (Logger.EvResume i net) s in
  Logger.pending (Logger.logger s) !! i = Some (adapter, batch) →
  fst (RemoteAdapter.sendBatch adapter batch net) = Throw error →
  (∃ dropped kept,
      LogBuffer.buffer (Logger.buffer (Logger.logger s)) = dropped ++ kept
      ∧ LogBuffer.buffer (Logger.buffer (Logger.logger s')) = kept ++ batch)
  ∧ Logger.pending (Logger.logger s') = delete i (Logger.pending (Logger.logger s))
  ∧ console (Logger.world s')
    = console (Logger.world s)
      ++ [ConsoleText c_warn "Failed to send logs to remote endpoint:" (Some error)]
  ∧ Logger.flush s0
    = if enableRemote (Logger.config (Logger.logger s0))
         && (0 <? LogBuffer.size (Logger.buffer (Logger.logger s0)))%nat
      then (Normal Logger.Suspended,
            Logger.mkSys
              (Logger.set_pending
                 (Logger.pending (Logger.logger s0)
                    ++ [(Logger.remoteAdapter (Logger.logger s0),
                         LogBuffer.buffer (Logger.buffer (Logger.logger s0)))])
                 (Logger.set_buffer (LogBuffer.clear (Logger.buffer (Logger.logger s0)))
                    (Logger.logger s0)))
              (Logger.world s0))
      else (Normal Logger.Fulfilled, s0).
Proof.
  intros s s' Hp Hfail.
  assert (Hinv : batches_fit (Logger.logger s))
    by apply batches_fit_steps, batches_fit_new.
  destruct Hinv as [Hf Hall].
  assert (Hlen : (Z.of_nat (length batch)
                  ≤ LogBuffer.maxSize (Logger.buffer (Logger.logger s)))%Z).
  { rewrite Forall_lookup in Hall. exact (Hall i _ Hp). }
  subst s'. unfold Logger.step, Logger.run.
  rewrite (flush_resume_run i net s adapter batch Hp), Hfail. cbn.
  split; [|split; [done|split; [done|apply flush_run]]].
  destruct (add_all_spec batch (Logger.buffer (Logger.logger s)) Hf) as (_ & _ & Hbuf).
  rewrite Hbuf.
  set (B := LogBuffer.buffer (Logger.buffer (Logger.logger s))).
  set (k := Z.to_nat _).
  assert (Hk : (k ≤ length B)%nat) by (subst k; rewrite length_app; lia).
  exists (take k B), (drop k B). split; [by rewrite take_drop|].
  by rewrite drop_app_le.
Qed.

Lemma failed_flush_restores_whole_batch_witness :
  let s := Logger.steps three_logs (Logger.new remote_overrides 1 (session "session") fresh_world) in
  let s' := Logger.step (Logger.EvResume 0 (RemoteAdapter.flaky 5)) s in
  (LogBuffer.buffer (Logger.buffer (Logger.logger s)) = [logged 3 "C"]
   ∧ map snd (Logger.pending (Logger.logger s)) = [[logged 1 "A"; logged 2 "B"]])
  ∧ ∃ kept, LogBuffer.buffer (Logger.buffer (Logger.logger s'))
            = kept ++ [logged 1 "A"; logged 2 "B"].
Proof.
  intros s s'. split; [split; reflexivity|].
  destruct (failed_flush_restores_whole_batch remote_overrides 1 (session "session") fresh_world
              three_logs 0 (RemoteAdapter.flaky 5)
              (RemoteAdapter.new (Some "https://logs.example/ingest"))
              [logged 1 "A"; logged 2 "B"]
              (VError 2 "TypeError" "Failed to fetch") s eq_refl eq_refl)
    as ((dropped & kept & _ & Hb) & _).
  exists kept. exact Hb.
Defined.

(* ===================================================================== *)
(** * Further properties                                                  *)
(* ===================================================================== *)

(** ** LogBuffer *)

Lemma trim_drop m l :
  (0 ≤ m)%Z → LogBuffer.trim m l = drop (length l - Z.to_nat m) l.
Proof.
  intros Hm. induction l as [|x l IH]; [done|].
  cbn [LogBuffer.trim].
  destruct (Z.ltb_spec m (Z.of_nat (length (x :: l)))).
  - rewrite IH. cbn [length] in *.
    replace (S (length l) - Z.to_nat m)%nat with (S (length l - Z.to_nat m)) by lia.
    done.
  - replace (length (x :: l) - Z.to_nat m)%nat with 0%nat by (cbn [length] in *; lia).
    done.
Qed.

(** X1. [setMaxSize n] sets the capacity to [max 1 n] and keeps the newest
    entries that fit in it, in their order; after it the buffer holds no
    more than its capacity. *)
Theorem setMaxSize_keeps_newest (n : Z) (b : LogBuffer.t) :
  let b' := LogBuffer.setMaxSize n b in
  LogBuffer.getMaxSize b' = Z.max 1 n
  ∧ LogBuffer.buffer b'
    = drop (length (LogBuffer.buffer b) - Z.to_nat (Z.max 1 n)) (LogBuffer.buffer b)
  ∧ (Z.of_nat (LogBuffer.size b') ≤ LogBuffer.getMaxSize b')%Z.
Proof.
  intros b'. subst b'. unfold LogBuffer.setMaxSize, LogBuffer.getMaxSize, LogBuffer.size.
  cbn. split; [done|]. split; [apply trim_drop; lia|apply trim_length; lia].
Qed.

(** X2. On a buffer reached by any calls, [flush] returns the buffered
    entries and leaves the buffer empty, and adding the returned entries
    back one by one restores the buffer as it was. *)
Theorem flush_then_add_back (N : Z) (cs : list LogBuffer.call) :
  let b := LogBuffer.run_all cs (LogBuffer.new N) in
  LogBuffer.isEmpty (snd (LogBuffer.flush b)) = true
  ∧ LogBuffer.add_all (fst (LogBuffer.flush b)) (snd (LogBuffer.flush b)) = b.
Proof.
  intros b. split; [done|].
  assert (Hb : LogBuffer.fits b) by apply fits_run_all, fits_new.
  assert (He : LogBuffer.fits (snd (LogBuffer.flush b))).
  { destruct Hb as [H1 H2]. split; cbn; [done|]. unfold LogBuffer.size. cbn. lia. }
  destruct (add_all_spec (LogBuffer.buffer b) (snd (LogBuffer.flush b)) He) as (Hm & _ & Hbuf).
  cbn in Hm, Hbuf. destruct Hb as [H1 H2]. unfold LogBuffer.size in H2.
  replace (Z.to_nat _) with 0%nat in Hbuf by lia. cbn in Hbuf.
  cbn [fst]. destruct (LogBuffer.add_all _ _) as [buf m]. cbn in *. subst.
  by destruct b.
Qed.

(** X3. On a buffer reached by any calls, the entry just added is the one
    [getNewest] returns; [isFull] holds exactly when the size equals the
    capacity; after [removeOldest] the buffer is not full, and an [add]
    then keeps all that was left. *)
Theorem add_then_getNewest (N : Z) (cs : list LogBuffer.call) (e : LogEntry) :
  let b := LogBuffer.run_all cs (LogBuffer.new N) in
  LogBuffer.getNewest (LogBuffer.add e b) = Some e
  ∧ (LogBuffer.isFull b = true ↔ Z.of_nat (LogBuffer.size b) = LogBuffer.getMaxSize b)
  ∧ LogBuffer.isFull (snd (LogBuffer.removeOldest b)) = false
  ∧ LogBuffer.buffer (LogBuffer.add e (snd (LogBuffer.removeOldest b)))
    = tail (LogBuffer.buffer b) ++ [e].
Proof.
  intros b.
  assert (Hb : LogBuffer.fits b) by apply fits_run_all, fits_new.
  destruct Hb as [H1 H2]. unfold LogBuffer.size in H2.
  unfold LogBuffer.getNewest, LogBuffer.removeOldest, LogBuffer.getMaxSize,
    LogBuffer.size, LogBuffer.isFull, LogBuffer.add. cbn [snd LogBuffer.buffer LogBuffer.maxSize].
  rewrite !length_app. cbn [length].
  assert (Ht : (Z.of_nat (length (tail (LogBuffer.buffer b))) < LogBuffer.maxSize b)%Z).
  { destruct (LogBuffer.buffer b); cbn [tail length] in *; lia. }
  split; [|split; [|split]].
  - destruct (Z.ltb_spec (LogBuffer.maxSize b) (Z.of_nat (length (LogBuffer.buffer b) + 1)));
      cbn; [|apply last_snoc].
    destruct (LogBuffer.buffer b) as [|x l]; [cbn in *; lia|]. cbn. apply last_snoc.
  - destruct (Z.leb_spec (LogBuffer.maxSize b) (Z.of_nat (length (LogBuffer.buffer b))));
      split; intros; try done; lia.
  - apply Z.leb_gt. exact Ht.
  - destruct (Z.ltb_spec (LogBuffer.maxSize b)
                (Z.of_nat (length (tail (LogBuffer.buffer b)) + 1))); [lia|done].
Qed.

(** ** StorageAdapter *)

Lemma maintain_limit_length a logs :
  (0 ≤ StorageAdapter.maxEntries a)%Z →
  (Z.of_nat (length (StorageAdapter.maintain_limit a logs)) ≤ StorageAdapter.maxEntries a)%Z.
Proof.
  intros Ha. unfold StorageAdapter.maintain_limit, splice0.
  destruct (Z.ltb_spec (StorageAdapter.maxEntries a) (Z.of_nat (length logs))); [|done].
  rewrite length_drop. lia.
Qed.

Lemma slice_from_length {A} start (l : list A) :
  (length (slice_from start l) ≤ length l)%nat.
Proof. unfold slice_from. rewrite length_drop. lia. Qed.

Lemma retrieve_item w :
  ls_item (snd (StorageAdapter.retrieve w)) = ls_item w
  ∧ ∃ logs, fst (StorageAdapter.retrieve w) = Normal logs
            ∧ (length logs ≤ length (default [] (ls_item w)))%nat.
Proof.
  unfold StorageAdapter.retrieve, try_catch, bind, StorageAdapter.getItem,
    console_call, modify, ret.
  destruct (ls_read_fault w); [|destruct (ls_item w) eqn:Hi]; cbn; rewrite ?Hi;
    (split; [done|eexists; split; [reflexivity|cbn; lia]]).
Qed.

Lemma clear_item w :
  ls_item (snd (StorageAdapter.clear w)) = None
  ∨ ls_item (snd (StorageAdapter.clear w)) = ls_item w.
Proof.
  unfold StorageAdapter.clear, try_catch, StorageAdapter.removeItem, console_call, modify.
  destruct (ls_remove_fault w); cbn; auto.
Qed.

Lemma clearOldEntries_item a w :
  (length (default [] (ls_item (snd (StorageAdapter.clearOldEntries a w))))
   ≤ length (default [] (ls_item w)))%nat.
Proof.
  unfold StorageAdapter.clearOldEntries, bind.
  destruct (retrieve_item w) as [Hi (logs & Hl & Hlen)].
  destruct (StorageAdapter.retrieve w) as [[logs'|v] w1]; cbn in Hi, Hl; [|done].
  injection Hl as ->. unfold try_catch, StorageAdapter.setItem. cbn.
  destruct (ls_write w1 _); cbn.
  - destruct (clear_item (add_ls_call (SetItem (slice_from (- (StorageAdapter.maxEntries a / 2)) logs) false) w1))
      as [H|H]; rewrite H; cbn; [lia|]. rewrite Hi. lia.
  - pose proof (slice_from_length (- (StorageAdapter.maxEntries a / 2)) logs). lia.
Qed.

Lemma store_try_item a e w :
  (0 ≤ StorageAdapter.maxEntries a)%Z →
  ls_item (snd (StorageAdapter.store_try a e w)) = ls_item w
  ∨ (Z.of_nat (length (default [] (ls_item (snd (StorageAdapter.store_try a e w)))))
     ≤ StorageAdapter.maxEntries a)%Z.
Proof.
  intros Ha. unfold StorageAdapter.store_try, bind.
  destruct (retrieve_item w) as [Hi _].
  destruct (StorageAdapter.retrieve w) as [[logs|v] w1]; cbn in Hi; [|by left].
  unfold StorageAdapter.setItem. destruct (ls_write w1 _); cbn; [by left|].
  right. by apply maintain_limit_length.
Qed.

Lemma store_rec_within_capacity stack : ∀ a e w,
  (0 ≤ StorageAdapter.maxEntries a)%Z →
  (Z.of_nat (length (default [] (ls_item w))) ≤ StorageAdapter.maxEntries a)%Z →
  (Z.of_nat (length (default [] (ls_item (snd (StorageAdapter.store_rec stack a e w)))))
   ≤ StorageAdapter.maxEntries a)%Z.
Proof.
  induction stack as [|stack IH]; intros a e w Ha Hw; cbn [StorageAdapter.store_rec];
    unfold try_catch;
    pose proof (store_try_item a e w Ha) as Ht;
    destruct (StorageAdapter.store_try a e w) as [[[]|v] w1]; cbn [snd] in *.
  1,3: destruct Ht as [->|Ht]; done.
  all: assert (Hw1 : (Z.of_nat (length (default [] (ls_item w1))) ≤ StorageAdapter.maxEntries a)%Z)
         by (destruct Ht as [->|Ht]; done).
  all: destruct (StorageAdapter.is_QuotaExceededError v); [|cbn; done].
  all: unfold bind; pose proof (clearOldEntries_item a w1) as Hc.
  all: destruct (StorageAdapter.clearOldEntries a w1) as [[[]|v'] w2]; cbn [snd] in *.
  all: try (unfold throw; cbn; lia).
  apply IH; [done|lia].
Qed.


(** X4. With a capacity that is not negative, a persisted log that fits
    the capacity still fits it after any calls of [store], whatever the
    storage refuses or fails on. *)
Theorem store_never_exceeds_capacity
    (a : StorageAdapter.t) (es : list LogEntry) (w : World) :
  (0 ≤ StorageAdapter.maxEntries a)%Z →
  (Z.of_nat (length (default [] (ls_item w))) ≤ StorageAdapter.maxEntries a)%Z →
  (Z.of_nat (length (default [] (ls_item (StorageAdapter.store_all a es w))))
   ≤ StorageAdapter.maxEntries a)%Z.
Proof.
  intros Ha. revert w. induction es as [|e es IH]; intros w Hw; [done|].
  cbn. apply IH. unfold StorageAdapter.store. by apply store_rec_within_capacity.
Qed.

Lemma store_never_exceeds_capacity_witness :
  (Z.of_nat (length (default [] (ls_item
     (StorageAdapter.store_all (StorageAdapter.new 6)
        [sample "e7" 7; sample "e8" 8] (quota_world 5 six_entries 3))))) ≤ 6)%Z.
Proof.
  apply (store_never_exceeds_capacity (StorageAdapter.new 6)
           [sample "e7" 7; sample "e8" 8] (quota_world 5 six_entries 3)).
  - simpl. lia.
  - simpl. lia.
Defined.

(** X5. [clearOldEntries] on a readable store that accepts the write
    keeps, for a capacity of 2 or more, the newest [floor(maxEntries / 2)]
    entries; with a capacity of 0 or 1 the slice starts at 0 and every
    entry is kept; with a negative capacity the slice starts at
    [-floor(maxEntries / 2)] and the entries before it are dropped. *)
Theorem clearOldEntries_keeps_half_capacity (a : StorageAdapter.t) (w : World) :
  let logs := default [] (ls_item w) in
  let m := StorageAdapter.maxEntries a in
  let kept := if (m <? 0)%Z then drop (Z.to_nat (- (m / 2))) logs
              else if (m <? 2)%Z then logs
              else drop (length logs - Z.to_nat (m / 2)) logs in
  ls_read_fault w = None →
  ls_write w kept = None →
  StorageAdapter.clearOldEntries a w
  = (Normal tt, set_ls_item (Some kept) (add_ls_call (SetItem kept true) w)).
Proof.
  intros logs m kept Hr Hacc.
  assert (Hk : slice_from (- (m / 2)) logs = kept).
  { subst kept. unfold slice_from.
    destruct (Z.ltb_spec m 0).
    - assert (m / 2 < 0)%Z by (apply Z.div_lt_upper_bound; lia).
      destruct (Z.ltb_spec (- (m / 2)) 0); [lia|].
      destruct (Z.le_gt_cases (- (m / 2)) (Z.of_nat (length logs))).
      + by rewrite Z.min_l.
      + rewrite Z.min_r by lia. rewrite !drop_ge by lia. done.
    - destruct (Z.ltb_spec m 2).
      + assert (m / 2 = 0)%Z as -> by (apply Z.div_small; lia).
        change (- 0)%Z with 0%Z. cbn [Z.ltb Z.compare].
        replace (Z.to_nat _) with 0%nat by lia. done.
      + assert (1 ≤ m / 2)%Z by (apply Z.div_le_lower_bound; lia).
        destruct (Z.ltb_spec (- (m / 2)) 0); [|lia].
        f_equal. lia. }
  unfold StorageAdapter.clearOldEntries, bind.
  rewrite (retrieve_readable w Hr). fold logs m. rewrite Hk.
  unfold try_catch, StorageAdapter.setItem. by rewrite Hacc.
Qed.

Lemma clearOldEntries_keeps_half_capacity_witness :
  ls_item (snd (StorageAdapter.clearOldEntries (StorageAdapter.new 1)
                  (quota_world 6 six_entries 3)))
  = Some six_entries
  ∧ ls_item (snd (StorageAdapter.clearOldEntries (StorageAdapter.new 4)
                    (quota_world 6 six_entries 3)))
    = Some [sample "e5" 5; sample "e6" 6]
  ∧ ls_item (snd (StorageAdapter.clearOldEntries (StorageAdapter.new (-3))
                    (quota_world 6 six_entries 3)))
    = Some [sample "e3" 3; sample "e4" 4; sample "e5" 5; sample "e6" 6].
Proof.
  split; [|split].
  - rewrite (clearOldEntries_keeps_half_capacity (StorageAdapter.new 1)
               (quota_world 6 six_entries 3)); [reflexivity|reflexivity|reflexivity].
  - rewrite (clearOldEntries_keeps_half_capacity (StorageAdapter.new 4)
               (quota_world 6 six_entries 3)); [reflexivity|reflexivity|reflexivity].
  - rewrite (clearOldEntries_keeps_half_capacity (StorageAdapter.new (-3))
               (quota_world 6 six_entries 3)); [reflexivity|reflexivity|reflexivity].
Defined.

(** X6. Where the removal is not refused, [clear] leaves a store from
    which [retrieve] returns the empty list and [getEntryCount] zero. *)
Theorem clear_then_retrieve_is_empty (w : World) :
  ls_remove_fault w = None →
  fst (StorageAdapter.clear w) = Normal tt
  ∧ fst (StorageAdapter.retrieve (snd (StorageAdapter.clear w))) = Normal []
  ∧ fst (StorageAdapter.getEntryCount (snd (StorageAdapter.clear w))) = Normal 0%nat.
Proof.
  intros Hrm.
  unfold StorageAdapter.clear, try_catch, StorageAdapter.removeItem. rewrite Hrm. cbn.
  unfold StorageAdapter.getEntryCount, bind, StorageAdapter.retrieve, try_catch, bind,
    StorageAdapter.getItem, console_call, modify, ret. cbn.
  by destruct (ls_read_fault w).
Qed.

Lemma clear_then_retrieve_is_empty_witness :
  fst (StorageAdapter.retrieve (snd (StorageAdapter.clear (quota_world 5 six_entries 3))))
  = Normal [].
Proof.
  apply (clear_then_retrieve_is_empty (quota_world 5 six_entries 3) eq_refl).
Defined.

(** ** RemoteAdapter *)

Lemma total_delay_schedule payload d (k : nat) : ∀ attempt,
  (2 * total_delay (RemoteAdapter.schedule payload d attempt k)
   = d * (Z.of_nat (k - 1) * (2 * attempt + Z.of_nat (k - 1) - 1)))%Z.
Proof.
  unfold total_delay.
  induction k as [|[|k] IH]; intros attempt; [cbn; lia|cbn; lia|].
  change (RemoteAdapter.delays_of (RemoteAdapter.schedule payload d attempt (S (S k))))
    with ((d * attempt)%Z
          :: RemoteAdapter.delays_of (RemoteAdapter.schedule payload d (attempt + 1) (S k))).
  cbn [foldr]. specialize (IH (attempt + 1)%Z).
  replace (S (S k) - 1)%nat with (S k) by lia.
  replace (S k - 1)%nat with k in IH by lia. nia.
Qed.

Lemma total_delay_app evs evs' :
  total_delay (evs ++ evs') = (total_delay evs + total_delay evs')%Z.
Proof.
  unfold total_delay, RemoteAdapter.delays_of. rewrite omap_app.
  induction (omap _ evs) as [|x l IH]; cbn; lia.
Qed.

(** X8. After [setRetryConfig attempts delay], a batch whose requests
    all fail is tried [max 1 attempts] times and then rejected, and the
    waits between the tries add up to [max 100 delay * n * (n - 1) / 2]
    for [n] tries. *)
Theorem sendBatch_after_setRetryConfig
    (attempts delay : Z) (a : RemoteAdapter.t) (entries : list LogEntry)
    (net : RemoteAdapter.Net) :
  let a' := RemoteAdapter.setRetryConfig attempts delay a in
  let n := Z.to_nat (Z.max 1 attempts) in
  let r := RemoteAdapter.sendBatch a' entries net in
  RemoteAdapter.endpoint_missing a = false →
  entries ≠ [] →
  (∀ j, RemoteAdapter.respond net (RemoteAdapter.issued net + j)%nat ≠ None) →
  (∃ v, fst r = Throw v)
  ∧ RemoteAdapter.issued (snd r) = (RemoteAdapter.issued net + n)%nat
  ∧ (1 ≤ n)%nat
  ∧ (2 * (total_delay (RemoteAdapter.events (snd r)) - total_delay (RemoteAdapter.events net))
     = Z.max 100 delay * (Z.of_nat n * (Z.of_nat n - 1)))%Z.
Proof.
  intros a' n r Hend Hne Hfail.
  assert (Hrun : r = RemoteAdapter.attempts_from n a'
                       (RemoteAdapter.payload_of entries) 1%Z None net).
  { subst r. unfold RemoteAdapter.sendBatch.
    change (RemoteAdapter.endpoint_missing a') with (RemoteAdapter.endpoint_missing a).
    rewrite Hend. destruct entries; [done|reflexivity]. }
  destruct (attempts_from_exhausted a' (RemoteAdapter.payload_of entries) n 1%Z None net)
    as (thrown & net' & Heq & Hiss & Hev & _).
  { subst n a'. cbn. lia. }
  { intros j _. apply Hfail. }
  rewrite Hrun, Heq. cbn [fst snd].
  split; [eauto|]. split; [done|]. split; [subst n; lia|].
  rewrite Hev, total_delay_app.
  pose proof (total_delay_schedule (RemoteAdapter.payload_of entries)
                (RemoteAdapter.retryDelay a') n 1%Z) as Ht.
  change (RemoteAdapter.retryDelay a') with (Z.max 100 delay) in *.
  assert (1 ≤ n)%nat by (subst n; lia).
  replace (Z.of_nat (n - 1)) with (Z.of_nat n - 1)%Z in Ht by lia.
  nia.
Qed.

Lemma sendBatch_after_setRetryConfig_witness :
  let a := RemoteAdapter.new (Some "https://logs.example/ingest") in
  let r := RemoteAdapter.sendBatch (RemoteAdapter.setRetryConfig 2 5 a)
             [sample "A" 1] offline in
  RemoteAdapter.issued (snd r) = 2%nat
  ∧ total_delay (RemoteAdapter.events (snd r)) = 100%Z.
Proof.
  intros a r.
  destruct (sendBatch_after_setRetryConfig 2 5 a [sample "A" 1] offline)
    as (_ & Hiss & _ & Ht); [reflexivity|discriminate|intros j; discriminate|].
  split; [exact Hiss|].
  change (total_delay (RemoteAdapter.events offline)) with 0%Z in Ht.
  change (Z.max 100 5) with 100%Z in Ht.
  change (Z.of_nat (Z.to_nat (Z.max 1 2))) with 2%Z in Ht.
  subst r. lia.
Defined.

Section RemoteRequests.
Import RemoteAdapter.
Variable a : t.
Variable payload : RemoteLogPayload.

Lemma attempts_from_monotone remaining : ∀ attempt lastError net,
  (issued net ≤ issued (snd (attempts_from remaining a payload attempt lastError net)))%nat.
Proof using Type.
  induction remaining as [|remaining IH]; intros attempt lastError net.
  - cbn [attempts_from]. destruct lastError; cbn; lia.
  - destruct (respond net (issued net)) as [v|] eqn:Hv.
    + destruct (failed_attempt a payload remaining attempt lastError net v Hv)
        as (e & net1 & Heq & _ & Hiss & _).
      rewrite Heq. specialize (IH (attempt + 1)%Z (Some e) net1). lia.
    + cbn [attempts_from]. unfold try_catch, makeRequest. rewrite Hv. cbn. lia.
Qed.

Lemma attempts_from_first_request remaining attempt lastError net :
  (issued net < issued (snd (attempts_from (S remaining) a payload attempt lastError net)))%nat.
Proof using Type.
  destruct (respond net (issued net)) as [v|] eqn:Hv.
  - destruct (failed_attempt a payload remaining attempt lastError net v Hv)
      as (e & net1 & Heq & _ & Hiss & _).
    rewrite Heq.
    pose proof (attempts_from_monotone remaining (attempt + 1)%Z (Some e) net1). lia.
  - cbn [attempts_from]. unfold try_catch, makeRequest. rewrite Hv. cbn. lia.
Qed.

End RemoteRequests.

(** X7. An adapter with at least one attempt issues a request exactly
    when it is configured and the batch is not empty, and then at least
    one and at most [retryAttempts] of them; otherwise [sendBatch]
    resolves with the network untouched. [send] on an adapter that is not
    configured throws the endpoint error without a request, and is
    [sendBatch] of the one entry otherwise. *)
Theorem requests_only_when_configured
    (a : RemoteAdapter.t) (entries : list LogEntry) (e : LogEntry)
    (net : RemoteAdapter.Net) :
  (1 ≤ RemoteAdapter.retryAttempts a)%Z →
  (if RemoteAdapter.isConfigured a && negb (bool_decide (entries = []))
   then (RemoteAdapter.issued net
         < RemoteAdapter.issued (snd (RemoteAdapter.sendBatch a entries net))
         ≤ RemoteAdapter.issued net + Z.to_nat (RemoteAdapter.retryAttempts a))%nat
   else RemoteAdapter.sendBatch a entries net = (Normal tt, net))
  ∧ (if RemoteAdapter.isConfigured a
     then RemoteAdapter.send a e net = RemoteAdapter.sendBatch a [e] net
     else fst (RemoteAdapter.send a e net)
          = Throw (VError (RemoteAdapter.heap net) "Error" "Remote endpoint not configured")
          ∧ RemoteAdapter.issued (snd (RemoteAdapter.send a e net)) = RemoteAdapter.issued net
          ∧ RemoteAdapter.events (snd (RemoteAdapter.send a e net)) = RemoteAdapter.events net).
Proof.
  intros Hn. unfold RemoteAdapter.isConfigured, RemoteAdapter.send, RemoteAdapter.sendBatch.
  split.
  - destruct (RemoteAdapter.endpoint_missing a); cbn [negb andb orb]; [done|].
    destruct entries as [|x entries]; [done|].
    rewrite bool_decide_eq_false_2 by done. cbn [negb length].
    rewrite bool_decide_eq_false_2 by done.
    destruct (Z.to_nat (RemoteAdapter.retryAttempts a)) as [|k] eqn:Hk; [lia|].
    split; [apply attempts_from_first_request|apply attempts_from_bounded].
  - by destruct (RemoteAdapter.endpoint_missing a).
Qed.

Lemma requests_only_when_configured_witness :
  let a := RemoteAdapter.new (Some "https://logs.example/ingest") in
  (0 < RemoteAdapter.issued
         (snd (RemoteAdapter.sendBatch a [sample "A" 1] (RemoteAdapter.flaky 1))) ≤ 3)%nat
  ∧ RemoteAdapter.sendBatch (RemoteAdapter.new None) [sample "A" 1] (RemoteAdapter.flaky 1)
    = (Normal tt, RemoteAdapter.flaky 1).
Proof.
  intros a.
  destruct (requests_only_when_configured a [sample "A" 1] (sample "A" 1)
              (RemoteAdapter.flaky 1)) as [H1 _]; [simpl; lia|].
  destruct (requests_only_when_configured (RemoteAdapter.new None) [sample "A" 1]
              (sample "A" 1) (RemoteAdapter.flaky 1)) as [H2 _]; [simpl; lia|].
  split; [exact H1|exact H2].
Defined.

(** ** PerformanceTracker *)

Section TrackerFacts.
Import PerformanceTracker.

Lemma end_keeps_others now label other p :
  label ≠ other →
  measurements (snd (end_ now label p)) !! other = measurements p !! other.
Proof.
  intros Hne. unfold end_.
  destruct (negb (truthy_number (measurements p !! label))); cbn; [done|].
  by apply lookup_delete_ne.
Qed.

Lemma start_keeps_others now label other p :
  label ≠ other →
  measurements (start now label p) !! other = measurements p !! other.
Proof. intros Hne. unfold start, log_call; cbn. by apply lookup_insert_ne. Qed.

Lemma end_logs_one now label p :
  ∃ c, logged (snd (end_ now label p)) = logged p ++ [c].
Proof.
  unfold end_. destruct (negb (truthy_number (measurements p !! label))); cbn; eauto.
Qed.

End TrackerFacts.

(** X17. [end] measures from the latest [start] of the label, where
    that reading is not zero, and removes the label: a second [end]
    returns 0 and logs the warning. *)
Theorem end_pairs_with_latest_start
    (t0 t0' t1 t2 : Z) (label : string) (p : PerformanceTracker.t) :
  t0' ≠ 0%Z →
  let p1 := PerformanceTracker.start t0' label (PerformanceTracker.start t0 label p) in
  let p2 := snd (PerformanceTracker.end_ t1 label p1) in
  fst (PerformanceTracker.end_ t1 label p1) = (t1 - t0')%Z
  ∧ (label ∉ PerformanceTracker.getActiveMeasurements p2)
  ∧ PerformanceTracker.end_ t2 label p2
    = (0%Z, PerformanceTracker.log_call (PerformanceTracker.not_found label) p2).
Proof.
  intros Hz p1 p2.
  destruct (end_removes t1 label p1 t0' (start_lookup _ _ _) Hz) as [Hd Hrm].
  fold p2 in Hrm. split; [exact Hd|]. split.
  - unfold PerformanceTracker.getActiveMeasurements. by apply not_elem_of_dom.
  - apply end_not_found. by rewrite Hrm.
Qed.

Lemma end_pairs_with_latest_start_witness :
  let p1 := PerformanceTracker.start 30 "load" (PerformanceTracker.start 10 "load"
              PerformanceTracker.new) in
  fst (PerformanceTracker.end_ 45 "load" p1) = 15%Z
  ∧ fst (PerformanceTracker.end_ 50 "load" (snd (PerformanceTracker.end_ 45 "load" p1))) = 0%Z.
Proof.
  intros p1.
  destruct (end_pairs_with_latest_start 10 30 45 50 "load" PerformanceTracker.new)
    as (H1 & _ & H2); [lia|].
  split; [exact H1|]. fold p1 in H2. rewrite H2. reflexivity.
Defined.

(** X18. Starting, ending or clearing one label leaves the measurement
    of another label as it is: its [end] still returns the time since
    its own start. *)
Theorem labels_do_not_interfere
    (t0 t1 t2 t : Z) (label other : string) (p : PerformanceTracker.t) :
  label ≠ other →
  PerformanceTracker.measurements p !! other = Some t →
  t ≠ 0%Z →
  let p' := snd (PerformanceTracker.end_ t1 label (PerformanceTracker.start t0 label p)) in
  other ∈ PerformanceTracker.getActiveMeasurements p'
  ∧ fst (PerformanceTracker.end_ t2 other p') = (t2 - t)%Z
  ∧ fst (PerformanceTracker.end_ t2 other
           (snd (PerformanceTracker.clearMeasurement label p))) = (t2 - t)%Z.
Proof.
  intros Hne Ho Hz p'.
  assert (Hl : PerformanceTracker.measurements p' !! other = Some t).
  { subst p'. rewrite end_keeps_others, start_keeps_others by done. exact Ho. }
  split; [|split].
  - unfold PerformanceTracker.getActiveMeasurements. apply elem_of_dom. by rewrite Hl.
  - by destruct (end_removes t2 other p' t Hl Hz).
  - apply (end_removes t2 other _ t); [|done].
    unfold PerformanceTracker.clearMeasurement; cbn. by rewrite lookup_delete_ne.
Qed.

Lemma labels_do_not_interfere_witness :
  let p := PerformanceTracker.start 10 "render" PerformanceTracker.new in
  fst (PerformanceTracker.end_ 60 "render"
         (snd (PerformanceTracker.end_ 40 "fetch" (PerformanceTracker.start 20 "fetch" p))))
  = 50%Z.
Proof.
  intros p.
  destruct (labels_do_not_interfere 20 40 60 10 "fetch" "render" p) as (_ & H & _).
  - done.
  - reflexivity.
  - lia.
  - exact H.
Defined.

(** X19. [measure] returns or throws what [fn] returns or throws and
    leaves the other labels as [fn] left them; where [fn] leaves the
    label's reading in place, and that reading is not zero, the label is
    gone afterwards and the duration is logged once, followed by the
    failure entry if [fn] threw or rejected. *)
Theorem measure_passes_outcome_through
    {T : Type} (t0 t1 : Z) (label : string)
    (fn : PerformanceTracker.t → PerformanceTracker.Outcome T * PerformanceTracker.t)
    (p : PerformanceTracker.t) :
  let p1 := PerformanceTracker.start t0 label p in
  let r := PerformanceTracker.measure t0 t1 label fn p in
  fst r = fst (fn p1)
  ∧ (∀ other, other ≠ label →
       PerformanceTracker.measurements (snd r) !! other
       = PerformanceTracker.measurements (snd (fn p1)) !! other)
  ∧ (∀ startTime,
       PerformanceTracker.measurements (snd (fn p1)) !! label = Some startTime →
       startTime ≠ 0%Z →
       PerformanceTracker.measurements (snd r) !! label = None
       ∧ ∃ info,
           PerformanceTracker.lc_level info = INFO
           ∧ PerformanceTracker.lc_metadata info
             = Some [("duration", MetaFixed2Ms (t1 - startTime));
                     ("startTime", MetaNumber startTime);
                     ("endTime", MetaNumber t1)]
           ∧ PerformanceTracker.logged (snd r)
             = PerformanceTracker.logged (snd (fn p1)) ++ info
                 :: match fst (fn p1) with
                    | PerformanceTracker.Throws e | PerformanceTracker.Rejects e =>
                        [PerformanceTracker.failed label e]
                    | _ => []
                    end).
Proof.
  intros p1 r. subst r. unfold PerformanceTracker.measure. fold p1.
  destruct (fn p1) as [o p2]. cbn [fst snd].
  split; [by destruct o|]. split.
  - intros other Hne. destruct o; cbn [snd PerformanceTracker.log_call
      PerformanceTracker.measurements]; by rewrite end_keeps_others.
  - intros startTime Hl Hz.
    destruct (end_removes t1 label p2 startTime Hl Hz) as [_ Hrm].
    split; [by destruct o|].
    assert (He : snd (PerformanceTracker.end_ t1 label p2)
                 = PerformanceTracker.log_call
                     (PerformanceTracker.mkCall INFO ("Performance measurement: " +:+ label)
                        (Some "PerformanceTracker")
                        (Some [("duration", MetaFixed2Ms (t1 - startTime));
                               ("startTime", MetaNumber startTime);
                               ("endTime", MetaNumber t1)]))
                     (PerformanceTracker.mk
                        (delete label (PerformanceTracker.measurements p2))
                        (PerformanceTracker.logged p2))).
    { unfold PerformanceTracker.end_. rewrite Hl. cbn.
      by destruct (Z.eqb_spec startTime 0). }
    eexists. split; [|split]; [| |destruct o; rewrite He; cbn; by rewrite <- ?app_assoc].
    all: done.
Qed.

Lemma measure_passes_outcome_through_witness :
  let r := PerformanceTracker.measure 10 25 "load"
             (fun p' => (PerformanceTracker.Returns 7%Z, p')) PerformanceTracker.new in
  fst r = PerformanceTracker.Returns 7%Z
  ∧ PerformanceTracker.measurements (snd r) !! "load" = None.
Proof.
  intros r.
  destruct (measure_passes_outcome_through 10 25 "load"
              (fun p' => (PerformanceTracker.Returns 7%Z, p')) PerformanceTracker.new)
    as (H1 & _ & H3).
  destruct (H3 10%Z) as [H _]; [reflexivity|lia|].
  split; [exact H1|exact H].
Defined.

(** X20. A [measure] inside a [measure] of the same label: the inner
    one logs its duration and removes the label, so the outer [end]
    finds no start and logs the warning instead of a duration. *)
Theorem nested_measure_of_one_label_loses_the_outer
    {T : Type} (t0 t0' t1 t1' : Z) (label : string) (v : T) (p : PerformanceTracker.t) :
  t0' ≠ 0%Z →
  let inner := PerformanceTracker.measure t0' t1' label
                 (fun p' => (PerformanceTracker.Returns v, p')) in
  let r := PerformanceTracker.measure t0 t1 label inner p in
  fst r = PerformanceTracker.Returns v
  ∧ ∃ info,
      PerformanceTracker.lc_metadata info
      = Some [("duration", MetaFixed2Ms (t1' - t0'));
              ("startTime", MetaNumber t0'); ("endTime", MetaNumber t1')]
      ∧ drop (length (PerformanceTracker.logged p) + 2) (PerformanceTracker.logged (snd r))
        = [info; PerformanceTracker.not_found label].
Proof.
  intros Hz inner r. subst r inner.
  unfold PerformanceTracker.measure at 1.
  set (p1 := PerformanceTracker.start t0 label p).
  unfold PerformanceTracker.measure. cbn [fst snd].
  set (p2 := PerformanceTracker.start t0' label p1).
  destruct (end_removes t1' label p2 t0' (start_lookup _ _ _) Hz) as [_ Hrm].
  split; [done|]. fold p1. fold p2.
  rewrite (end_not_found t1 label (snd (PerformanceTracker.end_ t1' label p2)))
    by (by rewrite Hrm).
  cbn [snd].
  unfold PerformanceTracker.end_. unfold p2 at 1. rewrite start_lookup. cbn.
  destruct (Z.eqb_spec t0' 0); [done|]. cbn. rewrite lookup_insert_eq. cbn.
  eexists. split; cycle 1.
  - rewrite <- !app_assoc, drop_app_ge by lia.
    replace (length (PerformanceTracker.logged p) + 2 - length (PerformanceTracker.logged p))
      with 2 by lia.
    reflexivity.
  - reflexivity.
Qed.

Lemma nested_measure_of_one_label_loses_the_outer_witness :
  let r := PerformanceTracker.measure 10 40 "load"
             (PerformanceTracker.measure 20 30 "load"
                (fun p' => (PerformanceTracker.Returns 7%Z, p')))
             PerformanceTracker.new in
  fst r = PerformanceTracker.Returns 7%Z
  ∧ last (PerformanceTracker.logged (snd r)) = Some (PerformanceTracker.not_found "load").
Proof.
  intros r.
  destruct (nested_measure_of_one_label_loses_the_outer 10 20 40 30 "load" 7%Z
              PerformanceTracker.new) as [H1 _]; [lia|].
  split; [exact H1|reflexivity].
Defined.

(** X21. [clearMeasurement] returns [true] exactly for an active
    label, logs nothing, and an [end] of the label then returns 0; after
    [clearAllMeasurements] no label is active and every [end] returns 0. *)
Theorem cleared_measurements_cannot_be_ended
    (now : Z) (label other : string) (p : PerformanceTracker.t) :
  let c := PerformanceTracker.clearMeasurement label p in
  let all := PerformanceTracker.clearAllMeasurements p in
  (fst c = true ↔ label ∈ PerformanceTracker.getActiveMeasurements p)
  ∧ (label ∉ PerformanceTracker.getActiveMeasurements (snd c))
  ∧ fst (PerformanceTracker.end_ now label (snd c)) = 0%Z
  ∧ PerformanceTracker.getActiveMeasurements all = ∅
  ∧ fst (PerformanceTracker.end_ now other all) = 0%Z
  ∧ PerformanceTracker.logged (snd c) = PerformanceTracker.logged p.
Proof.
  intros c all. subst c all.
  unfold PerformanceTracker.clearMeasurement, PerformanceTracker.clearAllMeasurements,
    PerformanceTracker.getActiveMeasurements, PerformanceTracker.log_call.
  cbn [fst snd PerformanceTracker.measurements PerformanceTracker.logged].
  split; [|split; [|split; [|split; [|split]]]].
  - rewrite bool_decide_eq_true. symmetry. apply elem_of_dom.
  - apply not_elem_of_dom, lookup_delete_eq.
  - rewrite end_not_found; [done|]. cbn. by rewrite lookup_delete_eq.
  - apply dom_empty_L.
  - rewrite end_not_found; [done|]. cbn. by rewrite lookup_empty.
  - done.
Qed.

(** ** Logger *)

Section Persisted.
Import Logger.

Variables (rd : Reading) (level : LogLevel) (message : string)
          (component : option string)
          (metadata : option (list (string * MetaValue)))
          (s : Sys).

Let entry := createLogEntry (logger s) rd level message component metadata.
Let s' := snd (log rd level message component metadata s).
Let kept := StorageAdapter.maintain_limit (storageAdapter (logger s))
              (default [] (ls_item (world s)) ++ [entry]).

Hypothesis passes : shouldLog (logger s) level = true.
Hypothesis stores : enableStorage (config (logger s)) = true.
Hypothesis healthy : healthy_storage (world s).
Hypothesis prints :
  enableConsole (config (logger s)) = true → console_fault (world s) entry = None.

Local Arguments StorageAdapter.store : simpl never.

(** In a healthy storage the call leaves the capped list with the entry
    at its end under the adapter's key. *)
Lemma log_persists : ls_item (world s') = Some kept ∧ healthy_storage (world s').
Proof using passes stores healthy prints.
  destruct healthy as [Hr Hacc].
  subst s'. remember (log rd level message component metadata s) as r eqn:Hr0.
  unfold log, bind at 1, get in Hr0. rewrite passes in Hr0.
  cbn [negb] in Hr0. fold entry in Hr0.
  unfold bind, processLogEntry, async, try_catch, bind, modify, get, when in Hr0.
  cbn in Hr0.
  assert (Hstore : ∀ w1, ls_read_fault w1 = None → (∀ logs, ls_write w1 logs = None) →
            ls_item w1 = ls_item (world s) →
            StorageAdapter.store (storageAdapter (logger s)) entry w1
            = (Normal tt, set_ls_item (Some kept) (add_ls_call (SetItem kept true) w1))).
  { intros w1 H1 H2 H3. unfold StorageAdapter.store.
    rewrite store_rec_accepted by (rewrite ?H2; done). rewrite H3. done. }
  destruct (enableConsole (config (logger s))) eqn:HeC.
  - unfold liftW at 1, ConsoleAdapter.log in Hr0. cbn in Hr0.
    rewrite (prints eq_refl) in Hr0. cbn in Hr0. rewrite stores in Hr0.
    unfold liftW in Hr0. cbn in Hr0. rewrite Hstore in Hr0 by done. cbn in Hr0.
    destruct (enableRemote (config (logger s))) eqn:HeR; cbn in Hr0;
      [destruct (LogBuffer.isFull _); cbn in Hr0;
       [destruct (LogBuffer.size _); rewrite ?HeR in Hr0; cbn in Hr0|]|];
      subst r; cbn; (split; [done|split; done]).
  - cbn in Hr0. rewrite stores in Hr0.
    unfold liftW in Hr0. cbn in Hr0. rewrite Hstore in Hr0 by done. cbn in Hr0.
    destruct (enableRemote (config (logger s))) eqn:HeR; cbn in Hr0;
      [destruct (LogBuffer.isFull _); cbn in Hr0;
       [destruct (LogBuffer.size _); rewrite ?HeR in Hr0; cbn in Hr0|]|];
      subst r; cbn; (split; [done|split; done]).
Qed.

End Persisted.

Section SortFilter.
Import Logger.

Local Instance newer_trans :
  Transitive (fun a b : LogEntry => (le_timestamp b ≤ le_timestamp a)%Z).
Proof. intros a b c H1 H2. lia. Qed.

Lemma insert_by_time_front a l :
  Forall (fun x => (le_timestamp x ≤ le_timestamp a)%Z) l →
  insert_by_time a l = a :: l.
Proof.
  destruct 1 as [|x l Hx _]; [done|]. cbn.
  by destruct (Z.leb_spec (le_timestamp x) (le_timestamp a)); [|lia].
Qed.

Lemma Forall_List_filter {A} (P : A → Prop) (keep : A → bool) l :
  Forall P l → Forall P (List.filter keep l).
Proof.
  induction 1 as [|x l Hx _ IH]; cbn; [constructor|].
  destruct (keep x); [by constructor|done].
Qed.

Lemma insert_by_time_filter (keep : LogEntry → bool) a l :
  StronglySorted (fun a b => (le_timestamp b ≤ le_timestamp a)%Z) l →
  List.filter keep (insert_by_time a l)
  = if keep a then insert_by_time a (List.filter keep l) else List.filter keep l.
Proof.
  induction 1 as [|x l Hs IH Hx].
  - cbn. by destruct (keep a).
  - cbn [insert_by_time].
    destruct (Z.leb_spec (le_timestamp x) (le_timestamp a)).
    + change (List.filter keep (a :: x :: l))
        with (if keep a then a :: List.filter keep (x :: l) else List.filter keep (x :: l)).
      destruct (keep a); [|done].
      symmetry. apply insert_by_time_front, Forall_List_filter.
      constructor; [done|]. eapply Forall_impl; [exact Hx|]. cbn. intros; lia.
    + cbn [List.filter]. destruct (keep x).
      * rewrite IH. destruct (keep a); [|done]. cbn [insert_by_time].
        by destruct (Z.leb_spec (le_timestamp x) (le_timestamp a)); [lia|].
      * exact IH.
Qed.

Lemma sort_by_time_desc_filter (keep : LogEntry → bool) l :
  sort_by_time_desc (List.filter keep l) = List.filter keep (sort_by_time_desc l).
Proof.
  induction l as [|a l IH]; [done|].
  change (sort_by_time_desc (a :: l)) with (insert_by_time a (sort_by_time_desc l)).
  rewrite insert_by_time_filter
    by (apply Sorted_StronglySorted; [apply _|apply sort_by_time_desc_sorted]).
  cbn [List.filter]. destruct (keep a); [|exact IH].
  change (sort_by_time_desc (a :: List.filter keep l))
    with (insert_by_time a (sort_by_time_desc (List.filter keep l))).
  by rewrite IH.
Qed.

End SortFilter.

(** X10. [getLogs] with a filter returns the entries of [getLogs]
    without a filter that pass it, in the same order, newest first, and
    leaves the same state. *)
Theorem getLogs_filter_is_filtered_getLogs (keep : LogEntry → bool) (s : Logger.Sys) :
  ∃ all,
    fst (Logger.getLogs None s) = Normal all
    ∧ fst (Logger.getLogs (Some keep) s) = Normal (List.filter keep all)
    ∧ newest_first (List.filter keep all)
    ∧ snd (Logger.getLogs (Some keep) s) = snd (Logger.getLogs None s).
Proof.
  unfold Logger.getLogs, bind, Logger.liftW.
  destruct (retrieve_item (Logger.world s)) as [_ (logs & Hl & _)].
  destruct (StorageAdapter.retrieve (Logger.world s)) as [[logs'|v] w1]; cbn in Hl; [|done].
  cbn. eexists. split; [reflexivity|]. rewrite sort_by_time_desc_filter.
  split; [done|]. split; [|done].
  rewrite <- sort_by_time_desc_filter. apply sort_by_time_desc_sorted.
Qed.

(** X9. An entry that passes the level, logged with storage enabled on
    a healthy store of capacity at least 1, is the last of the persisted
    log afterwards and is among what [getLogs] returns; it carries the
    message, the level and the session id of the configuration. *)
Theorem logged_entry_is_persisted
    (rd : Logger.Reading) (level : LogLevel) (message : string)
    (component : option string) (metadata : option (list (string * MetaValue)))
    (s : Logger.Sys) :
  let l := Logger.logger s in
  let entry := Logger.createLogEntry l rd level message component metadata in
  let s' := snd (Logger.log rd level message component metadata s) in
  Logger.shouldLog l level = true →
  enableStorage (Logger.config l) = true →
  healthy_storage (Logger.world s) →
  (enableConsole (Logger.config l) = true → console_fault (Logger.world s) entry = None) →
  (1 ≤ StorageAdapter.maxEntries (Logger.storageAdapter l))%Z →
  (∃ older, fst (StorageAdapter.retrieve (Logger.world s')) = Normal (older ++ [entry]))
  ∧ (∃ logs, fst (Logger.getLogs None s') = Normal logs ∧ entry ∈ logs)
  ∧ le_message entry = message ∧ le_level entry = level
  ∧ le_sessionId entry = cfg_sessionId (Logger.config l).
Proof.
  intros l entry s' Hpass Hsto Hh Hcon Hcap.
  destruct (log_persists rd level message component metadata s Hpass Hsto Hh Hcon)
    as [Hitem [Hr _]].
  fold s' entry in Hitem, Hr.
  set (old := default [] (ls_item (Logger.world s))) in *.
  assert (Hkept : ∃ older, StorageAdapter.maintain_limit (Logger.storageAdapter (Logger.logger s))
                             (old ++ [entry]) = older ++ [entry]).
  { unfold StorageAdapter.maintain_limit, splice0. rewrite length_app. cbn [length].
    destruct (Z.ltb_spec (StorageAdapter.maxEntries (Logger.storageAdapter (Logger.logger s)))
                (Z.of_nat (length old + 1))); [|by exists old].
    exists (drop (Z.to_nat (Z.of_nat (length old + 1)
                    - StorageAdapter.maxEntries (Logger.storageAdapter (Logger.logger s)))) old).
    unfold l in Hcap. rewrite drop_app_le by lia. done. }
  destruct Hkept as [older Hkept].
  assert (Hret : StorageAdapter.retrieve (Logger.world s')
                 = (Normal (older ++ [entry]), Logger.world s')).
  { rewrite retrieve_readable by done. rewrite Hitem.
    change (default [] (Some ?x)) with x.
    exact (f_equal (fun x => (Normal x, Logger.world s')) Hkept). }
  split; [exists older; by rewrite Hret|]. split; [|done].
  exists (Logger.sort_by_time_desc (older ++ [entry])). split.
  - unfold Logger.getLogs, bind, Logger.liftW. by rewrite Hret.
  - rewrite sort_by_time_desc_perm. set_solver.
Qed.

Lemma filter_all {A} (keep : A → bool) l :
  (∀ x, keep x = true) → List.filter keep l = l.
Proof. intros H. induction l as [|x l IH]; cbn; [done|]. by rewrite H, IH. Qed.

(** X11. A filter whose component and search term are absent or empty
    and that names no level and no date lets every entry pass; with a
    start and an end date it lets pass exactly the entries whose time is
    between the two, both ends included. *)
Theorem getLogs_blank_filter_and_date_range
    (toLowerCase : string → string) (s : Logger.Sys) (d1 d2 : Z) (e : LogEntry)
    (c q : option string) :
  truthy_string c = false →
  truthy_string q = false →
  Logger.getLogs (Some (LogFilter.matches toLowerCase (LogFilter.mk None c None None q))) s
  = Logger.getLogs None s
  ∧ (LogFilter.matches toLowerCase (LogFilter.mk None c (Some d1) (Some d2) q) e = true
     ↔ (d1 ≤ le_timestamp e ≤ d2)%Z).
Proof.
  intros Hc Hq. split.
  - unfold Logger.getLogs, bind, Logger.liftW.
    destruct (StorageAdapter.retrieve (Logger.world s)) as [[logs|v] w1]; [|done].
    rewrite filter_all; [done|].
    intros x. unfold LogFilter.matches. cbn. by rewrite Hc, Hq.
  - unfold LogFilter.matches. cbn. rewrite Hc, Hq. cbn.
    destruct (Z.ltb_spec (le_timestamp e) d1), (Z.ltb_spec d2 (le_timestamp e));
      split; intros; try done; lia.
Qed.

Section Frames.
Import StorageAdapter.

Lemma same_browser_refl w : same_browser w w.
Proof. done. Qed.

Lemma same_browser_trans w1 w2 w3 :
  same_browser w1 w2 → same_browser w2 w3 → same_browser w1 w3.
Proof. intros (?&?&?) (?&?&?). repeat split; congruence. Qed.

Lemma retrieve_frame w : same_browser w (snd (retrieve w)).
Proof.
  unfold retrieve, try_catch, bind, getItem, console_call, modify, ret.
  destruct (ls_read_fault w); [|destruct (ls_item w)]; done.
Qed.

Lemma clear_frame w : same_browser w (snd (clear w)).
Proof.
  unfold clear, try_catch, removeItem, console_call, modify.
  destruct (ls_remove_fault w); done.
Qed.

Lemma setItem_frame logs w : same_browser w (snd (setItem logs w)).
Proof. unfold setItem. destruct (ls_write w logs); done. Qed.

Lemma clearOldEntries_frame a w : same_browser w (snd (clearOldEntries a w)).
Proof.
  unfold clearOldEntries, bind.
  pose proof (retrieve_frame w) as Hr.
  destruct (retrieve w) as [[logs|v] w1]; cbn [snd] in *; [|done].
  eapply same_browser_trans; [exact Hr|]. unfold try_catch.
  pose proof (setItem_frame (slice_from (- (maxEntries a / 2)) logs) w1) as Hs.
  destruct (setItem _ w1) as [[[]|v] w2]; cbn [snd] in *; [done|].
  eapply same_browser_trans; [exact Hs|apply clear_frame].
Qed.

Lemma store_try_frame a e w : same_browser w (snd (store_try a e w)).
Proof.
  unfold store_try, bind.
  pose proof (retrieve_frame w) as Hr.
  destruct (retrieve w) as [[logs|v] w1]; cbn [snd] in *; [|done].
  eapply same_browser_trans; [exact Hr|apply setItem_frame].
Qed.

Lemma store_rec_frame stack : ∀ a e w, same_browser w (snd (store_rec stack a e w)).
Proof.
  induction stack as [|stack IH]; intros a e w; cbn [store_rec]; unfold try_catch;
    pose proof (store_try_frame a e w) as Ht;
    destruct (store_try a e w) as [[[]|v] w1]; cbn [snd] in *; try done.
  all: destruct (is_QuotaExceededError v); [|exact Ht].
  all: unfold bind; pose proof (clearOldEntries_frame a w1) as Hc.
  all: destruct (clearOldEntries a w1) as [[[]|v'] w2]; cbn [snd] in *.
  all: try (eapply same_browser_trans; [exact Ht|exact Hc]).
  eapply same_browser_trans; [exact Ht|].
  eapply same_browser_trans; [exact Hc|apply IH].
Qed.

End Frames.

Section LoggerFrames.
Import Logger.

Lemma keeps_timers_trans s1 s2 s3 :
  keeps_timers s1 s2 → keeps_timers s2 s3 → keeps_timers s1 s3.
Proof.
  intros [H1 H2] [H3 H4]. split; [by eapply same_browser_trans|congruence].
Qed.

Lemma preserves_ret {A} (a : A) : preserves_timers (ret a).
Proof. intros s. done. Qed.

Lemma preserves_throw {A} v : preserves_timers (@throw Sys A v).
Proof. intros s. done. Qed.

Lemma preserves_get : preserves_timers get.
Proof. intros s. done. Qed.

Lemma preserves_bind {A B} (m : M Sys A) (k : A → M Sys B) :
  preserves_timers m → (∀ a, preserves_timers (k a)) → preserves_timers (bind m k).
Proof.
  intros Hm Hk s. unfold bind. specialize (Hm s).
  destruct (m s) as [[a|v] s1]; cbn [snd] in *; [|done].
  eapply keeps_timers_trans; [exact Hm|apply Hk].
Qed.

Lemma preserves_try_catch {A} (m : M Sys A) (h : JsValue → M Sys A) :
  preserves_timers m → (∀ v, preserves_timers (h v)) → preserves_timers (try_catch m h).
Proof.
  intros Hm Hh s. unfold try_catch. specialize (Hm s).
  destruct (m s) as [[a|v] s1]; cbn [snd] in *; [done|].
  eapply keeps_timers_trans; [exact Hm|apply Hh].
Qed.

Lemma preserves_when b (m : M Sys unit) :
  preserves_timers m → preserves_timers (when b m).
Proof. destruct b; [done|intros _; apply preserves_ret]. Qed.

Lemma preserves_in_logger (f : t → t) :
  (∀ l, flushTimer (f l) = flushTimer l) → preserves_timers (modify (in_logger f)).
Proof. intros Hf s. split; [done|apply Hf]. Qed.

Lemma preserves_liftW {A} (m : M World A) :
  (∀ w, same_browser w (snd (m w))) → preserves_timers (liftW m).
Proof.
  intros Hm s. unfold liftW. specialize (Hm (world s)).
  destruct (m (world s)) as [c w1]. done.
Qed.

Lemma preserves_console_call m text arg :
  preserves_timers (console_call in_world m text arg).
Proof. intros s. done. Qed.

Lemma preserves_flush : preserves_timers flush.
Proof.
  unfold flush. apply preserves_bind; [apply preserves_get|]. intros s.
  destruct (_ && _); [|apply preserves_ret].
  cbn. apply preserves_bind; [|intros; apply preserves_ret].
  by apply preserves_in_logger.
Qed.

Lemma preserves_promise_catch p h :
  (∀ v, preserves_timers (h v)) → preserves_timers (promise_catch p h).
Proof.
  intros Hh. destruct p; cbn; try apply preserves_ret.
  apply preserves_try_catch; [apply Hh|intros; apply preserves_ret].
Qed.

Lemma preserves_log rd level message component metadata :
  preserves_timers (log rd level message component metadata).
Proof.
  unfold log. apply preserves_bind; [apply preserves_get|]. intros s.
  destruct (negb _); [apply preserves_ret|].
  apply preserves_bind.
  - unfold processLogEntry, async. apply preserves_try_catch; [|intros; apply preserves_ret].
    apply preserves_bind; [by apply preserves_in_logger|]. intros _.
    apply preserves_bind; [apply preserves_get|]. intros s1.
    apply preserves_bind.
    { apply preserves_when, preserves_liftW. intros w. unfold ConsoleAdapter.log.
      by destruct (console_fault w _). }
    intros _. apply preserves_bind; [apply preserves_get|]. intros s2.
    apply preserves_bind.
    { apply preserves_when, preserves_liftW. intros w. apply store_rec_frame. }
    intros _. apply preserves_bind; [apply preserves_get|]. intros s3.
    destruct (_ && _); [|apply preserves_ret].
    apply preserves_bind; [apply preserves_flush|intros; apply preserves_ret].
  - intros p. apply preserves_promise_catch. intros v. apply preserves_console_call.
Qed.

Lemma preserves_flush_resume i net : preserves_timers (flush_resume i net).
Proof.
  unfold flush_resume. apply preserves_bind; [apply preserves_get|]. intros s.
  destruct (pending (logger s) !! i) as [[adapter entries]|]; [|apply preserves_ret].
  apply preserves_bind; [by apply preserves_in_logger|]. intros _.
  apply preserves_try_catch; [intros s1; done|]. intros v.
  apply preserves_bind; [by apply preserves_in_logger|]. intros _.
  apply preserves_console_call.
Qed.

Lemma preserves_clearLogs : preserves_timers clearLogs.
Proof.
  unfold clearLogs. apply preserves_bind.
  - apply preserves_liftW, clear_frame.
  - intros _. by apply preserves_in_logger.
Qed.

Lemma preserves_timer_fires : preserves_timers timer_fires.
Proof.
  unfold timer_fires. apply preserves_bind; [apply preserves_get|]. intros s.
  destruct (flushTimer (logger s)); [|apply preserves_ret].
  destruct (bool_decide _); [|apply preserves_ret].
  apply preserves_bind; [apply preserves_flush|intros; apply preserves_ret].
Qed.

End LoggerFrames.

Section TimerFacts.
Import Logger.

Lemma keeps_owns ts0 s s' : keeps_timers s s' → owns_timers ts0 s → owns_timers ts0 s'.
Proof.
  intros [(_ & Ht & _) Hf] Ho t Hin. rewrite Ht in Hin. rewrite Hf. by apply Ho.
Qed.

Lemma keeps_no_timer_left ts0 s s' :
  keeps_timers s s' → no_timer_left ts0 s → no_timer_left ts0 s'.
Proof. intros [(_ & Ht & _) _] Ho t Hin. rewrite Ht in Hin. by apply Ho. Qed.

Lemma clear_flushTimer_run s :
  clear_flushTimer s
  = (Normal tt,
     match flushTimer (logger s) with
     | Some id => in_world (clearInterval id) s
     | None => s
     end).
Proof. unfold clear_flushTimer, bind, get. by destruct (flushTimer (logger s)). Qed.

Lemma clear_flushTimer_no_timer_left ts0 s :
  owns_timers ts0 s → no_timer_left ts0 (snd (clear_flushTimer s)).
Proof.
  intros Ho. rewrite clear_flushTimer_run. cbn.
  destruct (flushTimer (logger s)) as [id|] eqn:Hid; intros t Hin.
  - cbn in Hin. apply list_elem_of_filter in Hin as [Hne Hin].
    destruct (Ho t Hin) as [?|Heq]; [done|]. congruence.
  - destruct (Ho t Hin) as [?|Heq]; [done|congruence].
Qed.

Lemma initializeAutoFlush_owns ts0 s :
  no_timer_left ts0 s → owns_timers ts0 (snd (initializeAutoFlush s)).
Proof.
  intros Hn. unfold initializeAutoFlush, bind, get.
  destruct (0 <? _)%Z; cbn.
  - intros t Hin. apply elem_of_app in Hin as [Hin|Hin]; [left; by apply Hn|].
    right. apply list_elem_of_singleton in Hin. by subst.
  - intros t Hin. left. by apply Hn.
Qed.

Lemma setConfig_owns ts0 over s :
  owns_timers ts0 s → owns_timers ts0 (snd (setConfig over s)).
Proof.
  intros Ho. unfold setConfig.
  assert (Hpre : preserves_timers
            (modify (in_logger (fun l => set_config (spread (config l) over) l)) ;;
             when (truthy_number (p_maxStorageEntries over))
               (modify (in_logger (set_storageAdapter
                  (StorageAdapter.new (default 0%Z (p_maxStorageEntries over)))))) ;;
             when (truthy_string (p_remoteEndpoint over))
               (modify (in_logger (set_remoteAdapter
                  (RemoteAdapter.new (p_remoteEndpoint over))))))%js).
  { apply preserves_bind; [by apply preserves_in_logger|]. intros _.
    apply preserves_bind; [by apply preserves_when, preserves_in_logger|]. intros _.
    by apply preserves_when, preserves_in_logger. }
  unfold bind at 1. unfold bind at 1. unfold bind at 1.
  unfold preserves_timers in Hpre. specialize (Hpre s).
  unfold bind at 1 2 in Hpre.
  destruct (modify _ s) as [[[]|v] s1] eqn:H1; cbn [snd] in *; [|by eapply keeps_owns].
  destruct (when (truthy_number _) _ s1) as [[[]|v] s2] eqn:H2; cbn [snd] in *;
    [|by eapply keeps_owns].
  destruct (when (truthy_string _) _ s2) as [[[]|v] s3] eqn:H3; cbn [snd] in *;
    [|by eapply keeps_owns].
  pose proof (keeps_owns ts0 s s3 Hpre Ho) as Ho3.
  destruct (p_flushInterval over); [|exact Ho3].
  unfold bind. pose proof (clear_flushTimer_no_timer_left ts0 s3 Ho3) as Hc.
  rewrite clear_flushTimer_run in *. cbn [snd] in *.
  by apply initializeAutoFlush_owns.
Qed.

Lemma destroy_no_timer_left ts0 s :
  owns_timers ts0 s → no_timer_left ts0 (snd (destroy s)).
Proof.
  intros Ho. unfold destroy, bind at 1.
  pose proof (clear_flushTimer_no_timer_left ts0 s Ho) as Hc.
  rewrite clear_flushTimer_run in *. cbn [snd] in *.
  set (s1 := match flushTimer (logger s) with Some id => _ | None => s end) in *.
  assert (Hk : preserves_timers
            (p <- async flush ;;
             promise_catch p (fun error => console_call in_world c_error "" (Some error)))%js).
  { apply preserves_bind.
    - apply preserves_try_catch; [apply preserves_flush|intros; apply preserves_ret].
    - intros p. apply preserves_promise_catch. intros v. apply preserves_console_call. }
  eapply keeps_no_timer_left; [apply Hk|exact Hc].
Qed.

Lemma step_owns ts0 e s : owns_timers ts0 s → owns_timers ts0 (step e s).
Proof.
  intros Ho. destruct e; unfold step, run.
  - eapply keeps_owns; [apply preserves_log|done].
  - eapply keeps_owns; [apply preserves_timer_fires|done].
  - eapply keeps_owns; [apply preserves_flush_resume|done].
  - eapply keeps_owns; [apply preserves_clearLogs|done].
  - by apply setConfig_owns.
  - intros t Hin. left. by apply (destroy_no_timer_left ts0 s Ho).
Qed.

Lemma steps_owns ts0 es : ∀ s, owns_timers ts0 s → owns_timers ts0 (steps es s).
Proof.
  induction es as [|e es IH]; intros s Ho; [done|].
  cbn. apply IH. by apply step_owns.
Qed.

Lemma new_owns over self session w :
  owns_timers (timers w) (new over self session w).
Proof.
  unfold new, SessionManager.construct.
  destruct (new_run (SessionManager.calendar session) (SessionManager.identity session)
              (SessionManager.started session) (SessionManager.loaded session)
              (SessionManager.reading session) w)
    as (sm & Hsm & _ & _ & _ & _ & _ & Ht & Hn & _).
  rewrite Hsm. cbn [snd].
  unfold initializeAutoFlush, setupErrorHandlers, bind, get, modify. cbn.
  destruct (0 <? _)%Z; cbn; intros t Hin;
    unfold in_world, add_listener, set_timers in Hin; cbn in Hin; rewrite ?Ht in Hin.
  - apply elem_of_app in Hin as [Hin|Hin]; [by left|].
    right. apply list_elem_of_singleton in Hin. by subst.
  - by left.
Qed.

Lemma step_listeners e s : listeners (world (step e s)) = listeners (world s).
Proof.
  destruct e; unfold step, run.
  - apply (preserves_log rd level message component metadata s).
  - apply (preserves_timer_fires s).
  - apply (preserves_flush_resume i net s).
  - apply (preserves_clearLogs s).
  - unfold setConfig, bind, modify, when, clear_flushTimer, initializeAutoFlush,
      bind, get, modify. cbn.
    destruct (truthy_number _), (truthy_string _), (p_flushInterval over); cbn;
      try destruct (flushTimer (logger s)); cbn; try destruct (0 <? _)%Z; cbn; done.
  - unfold destroy, clear_flushTimer, async, flush, promise_catch, try_catch, bind, get,
      modify, ret.
    destruct (flushTimer (logger s)); cbn; destruct (enableRemote _ && _); cbn; done.
Qed.

Lemma steps_listeners es : ∀ s, listeners (world (steps es s)) = listeners (world s).
Proof.
  induction es as [|e es IH]; intros s; [done|].
  change (steps (e :: es) s) with (steps es (step e s)).
  by rewrite IH, step_listeners.
Qed.

End TimerFacts.

(** X16. After any calls on a logger, every active timer was active
    before the logger was built or is the logger's flush timer; after
    [destroy] no timer of the logger is active, and a tick of the old
    timer does nothing. *)
Theorem logger_owns_at_most_its_timer
    (over : PartialConfig) (self : nat) (session : SessionManager.Construction)
    (w : World)
    (es : list Logger.event) (t : nat) :
  let s := Logger.steps es (Logger.new over self session w) in
  (t ∈ timers (Logger.world s) →
   t ∈ timers w ∨ Logger.flushTimer (Logger.logger s) = Some t)
  ∧ (t ∈ timers (Logger.world (Logger.step Logger.EvDestroy s)) → t ∈ timers w)
  ∧ Logger.timer_fires (Logger.step Logger.EvDestroy s)
    = (Normal tt, Logger.step Logger.EvDestroy s).
Proof.
  intros s.
  assert (Ho : owns_timers (timers w) s) by apply steps_owns, new_owns.
  split; [apply Ho|]. split; [apply (destroy_no_timer_left (timers w) s Ho)|].
  unfold Logger.step, Logger.run.
  unfold Logger.timer_fires, bind at 1, get.
  assert (Hd : match Logger.flushTimer (Logger.logger (snd (Logger.destroy s))) with
               | Some id => id ∉ timers (Logger.world (snd (Logger.destroy s)))
               | None => True
               end).
  { unfold Logger.destroy, Logger.clear_flushTimer, Logger.async, Logger.flush,
      Logger.promise_catch, try_catch, bind, get, modify, ret.
    destruct (Logger.flushTimer (Logger.logger s)) as [id|] eqn:Hid; cbn;
      destruct (enableRemote _ && _); cbn; rewrite ?Hid; try done.
    all: rewrite list_elem_of_filter; intros [Hne _]; by apply Hne. }
  destruct (Logger.flushTimer _) as [id|]; [|done].
  rewrite bool_decide_eq_false_2 by done. done.
Qed.

(** X15. After any calls on a logger, [destroy] among them, the
    listeners of the window are those that were there before the logger
    was built, followed by the one of the session manager that the
    constructor builds and by the logger's own two. *)
Theorem listeners_never_change_after_construction
    (over : PartialConfig) (self : nat) (session : SessionManager.Construction)
    (w : World)
    (es : list Logger.event) :
  listeners (Logger.world (Logger.steps es (Logger.new over self session w)))
  = listeners w
    ++ [mkListener "beforeunload" (SessionManager.identity session);
        mkListener "error" self; mkListener "unhandledrejection" self].
Proof.
  rewrite steps_listeners. apply new_listeners.
Qed.


(** X13. [setConfig] returns normally and changes neither the ring
    buffer, its capacity included, nor the batches under way, nor the
    persisted log; a new [bufferSize] only shows in [getConfig]. The
    storage adapter is replaced exactly when [maxStorageEntries] is given
    and is not zero. *)
Theorem setConfig_spares_buffer_and_log (over : PartialConfig) (s : Logger.Sys) :
  let s' := snd (Logger.setConfig over s) in
  fst (Logger.setConfig over s) = Normal tt
  ∧ Logger.buffer (Logger.logger s') = Logger.buffer (Logger.logger s)
  ∧ Logger.pending (Logger.logger s') = Logger.pending (Logger.logger s)
  ∧ ls_item (Logger.world s') = ls_item (Logger.world s)
  ∧ bufferSize (Logger.getConfig (Logger.logger s'))
    = default (bufferSize (Logger.config (Logger.logger s))) (p_bufferSize over)
  ∧ Logger.storageAdapter (Logger.logger s')
    = (if truthy_number (p_maxStorageEntries over)
       then StorageAdapter.new (default 0%Z (p_maxStorageEntries over))
       else Logger.storageAdapter (Logger.logger s))
  ∧ maxStorageEntries (Logger.getConfig (Logger.logger s'))
    = default (maxStorageEntries (Logger.config (Logger.logger s))) (p_maxStorageEntries over).
Proof.
  intros s'. subst s'.
  unfold Logger.setConfig, bind, modify, when, Logger.clear_flushTimer,
    Logger.initializeAutoFlush, bind, get, modify. cbn.
  destruct (truthy_number _), (truthy_string _), (p_flushInterval over); cbn;
    try destruct (Logger.flushTimer (Logger.logger s)); cbn;
    try destruct (0 <? _)%Z; cbn; done.
Qed.

(** X14. On a logger with storage enabled, a healthy store and a
    console adapter that does not throw on the entry: a capacity [n >= 1]
    given to [setConfig] leaves the persisted log as it is, and the next
    entry that passes the level is stored with the log cut to its newest
    [n] entries. *)
Theorem setConfig_capacity_applies_at_next_store
    (n : Z) (rd : Logger.Reading) (level : LogLevel) (message : string)
    (component : option string) (metadata : option (list (string * MetaValue)))
    (s : Logger.Sys) :
  let s1 := snd (Logger.setConfig (only_maxStorageEntries n) s) in
  let entry := Logger.createLogEntry (Logger.logger s) rd level message component metadata in
  let s2 := snd (Logger.log rd level message component metadata s1) in
  (1 ≤ n)%Z →
  Logger.shouldLog (Logger.logger s) level = true →
  enableStorage (Logger.config (Logger.logger s)) = true →
  healthy_storage (Logger.world s) →
  (enableConsole (Logger.config (Logger.logger s)) = true →
   console_fault (Logger.world s) entry = None) →
  ls_item (Logger.world s1) = ls_item (Logger.world s)
  ∧ ls_item (Logger.world s2)
    = Some (drop (length (default [] (ls_item (Logger.world s))) + 1 - Z.to_nat n)
                 (default [] (ls_item (Logger.world s)) ++ [entry])).
Proof.
  intros s1 entry s2 Hn Hpass Hsto Hh Hcon.
  assert (Hs1 : s1 = Logger.mkSys
                  (Logger.set_storageAdapter (StorageAdapter.new n)
                     (Logger.set_config
                        (spread (Logger.config (Logger.logger s)) (only_maxStorageEntries n))
                        (Logger.logger s)))
                  (Logger.world s)).
  { subst s1. unfold Logger.setConfig, bind, modify, when. cbn.
    destruct (Z.eqb_spec n 0); [lia|]. cbn. by destruct s. }
  split; [by rewrite Hs1|].
  destruct (log_persists rd level message component metadata s1) as [Hitem _].
  - by rewrite Hs1.
  - by rewrite Hs1.
  - by rewrite Hs1.
  - rewrite Hs1. exact Hcon.
  - fold s2 in Hitem. rewrite Hitem, Hs1. cbn [Logger.world Logger.logger
      Logger.storageAdapter Logger.set_storageAdapter].
    replace n with (Z.of_nat (Z.to_nat n)) at 1 by lia.
    rewrite maintain_limit_drop, length_app. cbn [length]. done.
Qed.

Lemma logged_entry_is_persisted_witness :
  let s := Logger.new no_overrides 1 (session "session") fresh_world in
  let entry := Logger.createLogEntry (Logger.logger s) (reading 6) ERROR "failed"
                 (Some "App") None in
  let s' := snd (Logger.log (reading 6) ERROR "failed" (Some "App") None s) in
  (∃ older, fst (StorageAdapter.retrieve (Logger.world s')) = Normal (older ++ [entry]))
  ∧ le_message entry = "failed".
Proof.
  intros s entry s'.
  destruct (logged_entry_is_persisted (reading 6) ERROR "failed" (Some "App") None s)
    as (Hret & _ & Hm & _).
  - reflexivity.
  - reflexivity.
  - split; [reflexivity|intros; reflexivity].
  - intros _; reflexivity.
  - simpl; lia.
  - split; [exact Hret|exact Hm].
Defined.

Lemma getLogs_blank_filter_and_date_range_witness :
  let s := Logger.new no_overrides 1 (session "session") fresh_world in
  Logger.getLogs (Some (LogFilter.matches id (LogFilter.mk None (Some "") None None None))) s
  = Logger.getLogs None s
  ∧ LogFilter.matches id (LogFilter.mk None (Some "") (Some 1%Z) (Some 5%Z) None)
      (sample "A" 3) = true.
Proof.
  intros s.
  destruct (getLogs_blank_filter_and_date_range id s 1 5 (sample "A" 3) (Some "") None
              eq_refl eq_refl) as [Hall Hrange].
  split; [exact Hall|].
  apply Hrange. simpl. lia.
Defined.


Lemma setConfig_capacity_applies_at_next_store_witness :
  let s := Logger.mkSys default_logger
             (StorageAdapter.store_all (StorageAdapter.new 3) spaced fresh_world) in
  let s1 := snd (Logger.setConfig (only_maxStorageEntries 2) s) in
  let s2 := snd (Logger.log (reading 6) ERROR "failed" None None s1) in
  ls_item (Logger.world s1) = Some [sample "B" 2; sample "C" 3; sample "D" 4]
  ∧ ls_item (Logger.world s2)
    = Some [sample "D" 4;
            Logger.createLogEntry default_logger (reading 6) ERROR "failed" None None].
Proof.
  intros s s1 s2.
  destruct (setConfig_capacity_applies_at_next_store 2 (reading 6) ERROR "failed" None None s)
    as [H1 H2].
  - lia.
  - reflexivity.
  - reflexivity.
  - split; [reflexivity|intros; reflexivity].
  - intros _; reflexivity.
  - split; [exact H1|exact H2].
Defined.

Lemma logger_owns_at_most_its_timer_witness :
  let s := Logger.steps three_logs (Logger.new remote_overrides 1 (session "session") fresh_world) in
  (1%nat ∈ timers fresh_world ∨ Logger.flushTimer (Logger.logger s) = Some 1%nat)
  ∧ timers (Logger.world (Logger.step Logger.EvDestroy s)) = [].
Proof.
  intros s.
  destruct (logger_owns_at_most_its_timer remote_overrides 1 (session "session") fresh_world
              three_logs 1) as (Hown & _ & _).
  split; [apply Hown; apply list_elem_of_here|reflexivity].
Defined.

(** ** The ratings of the web vitals *)

Section RatingFacts.
Import WebVitals.

Lemma two_bounds_monotone (lo hi a b : Q) :
  (lo <= hi)%Q → (a <= b)%Q →
  (severity (if le_bound (Finite a) lo then good
             else if le_bound (Finite a) hi then needs_improvement else poor)
   ≤ severity (if le_bound (Finite b) lo then good
               else if le_bound (Finite b) hi then needs_improvement else poor))%nat.
Proof.
  intros Hb Hab. unfold le_bound.
  destruct (Qle_bool a lo) eqn:Ha1; [cbn; lia|].
  destruct (Qle_bool b lo) eqn:Hb1.
  { apply Qle_bool_iff in Hb1. assert (Qle_bool a lo = true); [|congruence].
    apply Qle_bool_iff. by eapply Qle_trans. }
  destruct (Qle_bool a hi) eqn:Ha2; [destruct (Qle_bool b hi); cbn; lia|].
  destruct (Qle_bool b hi) eqn:Hb2; [|done].
  apply Qle_bool_iff in Hb2. assert (Qle_bool a hi = true); [|congruence].
  apply Qle_bool_iff. by eapply Qle_trans.
Qed.

End RatingFacts.

(** X22. Each of the five ratings is monotone: a larger finite value
    is never rated better than a smaller one. [NaN] and [Infinity] are
    rated poor, [-Infinity] good. *)
Theorem ratings_never_improve_as_the_value_grows
    (a b : Q) (rate : WebVitals.JsNumber → WebVitals.Rating) :
  rate ∈ WebVitals.ratings →
  (a <= b)%Q →
  (WebVitals.severity (rate (WebVitals.Finite a))
   ≤ WebVitals.severity (rate (WebVitals.Finite b)))%nat
  ∧ rate WebVitals.NaN = WebVitals.poor
  ∧ rate WebVitals.PosInfinity = WebVitals.poor
  ∧ rate WebVitals.NegInfinity = WebVitals.good.
Proof.
  intros Hin Hab. unfold WebVitals.ratings in Hin.
  repeat (apply elem_of_cons in Hin as [->|Hin]); [..|by apply elem_of_nil in Hin].
  all: split; [apply two_bounds_monotone; [done|exact Hab]|done].
Qed.

Lemma ratings_never_improve_as_the_value_grows_witness :
  WebVitals.getLCPRating (WebVitals.Finite 2500) = WebVitals.good
  ∧ WebVitals.getLCPRating (WebVitals.Finite (25001 # 10)) = WebVitals.needs_improvement
  ∧ (WebVitals.severity (WebVitals.getLCPRating (WebVitals.Finite 2500))
     ≤ WebVitals.severity (WebVitals.getLCPRating (WebVitals.Finite (25001 # 10))))%nat.
Proof.
  split; [reflexivity|]. split; [reflexivity|].
  apply (ratings_never_improve_as_the_value_grows 2500 (25001 # 10) WebVitals.getLCPRating).
  - apply list_elem_of_here.
  - vm_compute. discriminate.
Defined.

(** ** LogFormatter *)

Section CsvFacts.
Import LogFormatter CsvReader.

Lemma includes_char s c : includes s (String c "") = has c s.
Proof.
  induction s as [|c' s IH]; [done|].
  cbn [includes has String.prefix]. rewrite IH.
  destruct (Ascii.ascii_dec c c') as [->|Hne].
  - rewrite Ascii.eqb_refl. by destruct s.
  - rewrite (Ascii.eqb_sym c' c). destruct (Ascii.eqb_spec c c'); [done|].
    by destruct (Ascii.ascii_dec c c').
Qed.

Lemma append_assoc (a b c : string) : (a +:+ b) +:+ c = a +:+ (b +:+ c).
Proof.
  induction a as [|x a IH]; [done|].
  change (String x ((a +:+ b) +:+ c) = String x (a +:+ (b +:+ c))). by rewrite IH.
Qed.

Lemma append_cons (x : Ascii.ascii) (a b : string) : String x a +:+ b = String x (a +:+ b).
Proof. reflexivity. Qed.

Lemma append_empty_l (a : string) : "" +:+ a = a.
Proof. reflexivity. Qed.

Lemma append_empty_r (a : string) : a +:+ "" = a.
Proof.
  induction a as [|x a IH]; [done|].
  change (String x (a +:+ "") = String x a). by rewrite IH.
Qed.

Lemma read_closes k m cur fields records :
  closes k → m ≠ Quoted →
  read k m cur fields records = read k Plain cur fields records.
Proof.
  intros [->|[[k' ->]|[k' ->]]] Hm; destruct m; try done.
Qed.

Lemma read_plain v : ∀ m cur k fields records,
  has comma v = false → has dquote v = false → has newline v = false →
  closes k → m ≠ Quoted →
  read (v +:+ k) m cur fields records = read k Plain (cur +:+ v) fields records.
Proof.
  induction v as [|c v IH]; intros m cur k fields records Hc Hq Hn Hk Hm.
  - rewrite append_empty_l, append_empty_r. by apply read_closes.
  - cbn in Hc, Hq, Hn. apply orb_false_iff in Hc as [Hc1 Hc2].
    apply orb_false_iff in Hq as [Hq1 Hq2]. apply orb_false_iff in Hn as [Hn1 Hn2].
    change (String c v +:+ k) with (String c (v +:+ k)).
    assert (Hstep : read (String c (v +:+ k)) m cur fields records
                    = read (v +:+ k) Plain (cur +:+ String c "") fields records).
    { cbn [read]. rewrite Hc1, Hn1, Hq1. by destruct m. }
    rewrite Hstep, IH by done. by rewrite append_assoc.
Qed.

Lemma read_quoted v : ∀ cur k fields records,
  closes k →
  read (replace_quotes v +:+ String dquote k) Quoted cur fields records
  = read k Plain (cur +:+ v) fields records.
Proof.
  induction v as [|c v IH]; intros cur k fields records Hk.
  - cbn [replace_quotes]. rewrite append_empty_l. cbn [read].
    rewrite Ascii.eqb_refl, append_empty_r.
    by apply read_closes.
  - cbn [replace_quotes]. destruct (Ascii.eqb_spec c dquote) as [->|Hne].
    + change (String dquote (String dquote (replace_quotes v)) +:+ String dquote k)
        with (String dquote (String dquote (replace_quotes v +:+ String dquote k))).
      cbn [read]. rewrite Ascii.eqb_refl.
      change (Ascii.eqb dquote comma) with false.
      change (Ascii.eqb dquote newline) with false. cbn match.
      rewrite IH by done. by rewrite append_assoc.
    + change (String c (replace_quotes v) +:+ String dquote k)
        with (String c (replace_quotes v +:+ String dquote k)).
      cbn [read]. destruct (Ascii.eqb_spec c dquote); [done|].
      rewrite IH by done. by rewrite append_assoc.
Qed.

Lemma read_field v k fields records :
  closes k →
  read (escapeCsvValue v +:+ k) Start "" fields records
  = read k Plain v fields records.
Proof.
  intros Hk. unfold escapeCsvValue. rewrite !includes_char.
  destruct (has comma v || has dquote v || has newline v) eqn:Hsp.
  - change (String dquote (replace_quotes v +:+ String dquote "") +:+ k)
      with (String dquote ((replace_quotes v +:+ String dquote "") +:+ k)).
    rewrite append_assoc, append_cons, append_empty_l. cbn [read].
    change (Ascii.eqb dquote comma) with false.
    change (Ascii.eqb dquote newline) with false. rewrite Ascii.eqb_refl. cbn match.
    by rewrite read_quoted.
  - apply orb_false_iff in Hsp as [Hsp Hn]. apply orb_false_iff in Hsp as [Hc Hq].
    by rewrite read_plain.
Qed.

Lemma last_cons (v v' : string) vs : List.last (v' :: vs) v = List.last vs v'.
Proof.
  revert v v'. induction vs as [|x vs IH]; intros v v'; [done|].
  change (List.last (v' :: x :: vs) v) with (List.last (x :: vs) v).
  by rewrite (IH v x), (IH v' x).
Qed.

Lemma read_record vs : ∀ v k fields records,
  k = "" ∨ (∃ k', k = String newline k') →
  read (join (String comma "") (map escapeCsvValue (v :: vs)) +:+ k) Start "" fields records
  = read k Plain (List.last vs v) (fields ++ removelast (v :: vs)) records.
Proof.
  induction vs as [|v' vs IH]; intros v k fields records Hk.
  - cbn [map join List.last removelast]. rewrite app_nil_r.
    apply read_field. destruct Hk as [->|Hk]; [by left|by right; right].
  - change (join (String comma "") (map escapeCsvValue (v :: v' :: vs)))
      with (escapeCsvValue v +:+ String comma ""
            +:+ join (String comma "") (map escapeCsvValue (v' :: vs))).
    rewrite !append_assoc, read_field by (right; left; eauto).
    rewrite append_cons, append_empty_l. cbn [read]. rewrite Ascii.eqb_refl.
    rewrite IH by done.
    change (removelast (v :: v' :: vs)) with (v :: removelast (v' :: vs)).
    rewrite last_cons. by rewrite <- app_assoc.
Qed.

Lemma last_removelast (v : string) vs : removelast (v :: vs) ++ [List.last vs v] = v :: vs.
Proof.
  revert v. induction vs as [|v' vs IH]; intros v; [done|].
  change (removelast (v :: v' :: vs)) with (v :: removelast (v' :: vs)).
  rewrite last_cons. cbn [app]. by rewrite IH.
Qed.

Lemma read_records lines : ∀ line records,
  Forall (fun l => l ≠ []) (line :: lines) →
  read (join (String newline "")
          (map (fun l => join (String comma "") (map escapeCsvValue l)) (line :: lines)))
       Start "" [] records
  = records ++ line :: lines.
Proof.
  induction lines as [|line' lines IH]; intros line records Hne.
  - apply Forall_cons in Hne as [Hl _]. destruct line as [|v vs]; [done|].
    change (join (String newline "")
              (map (fun l => join (String comma "") (map escapeCsvValue l)) [v :: vs]))
      with (join (String comma "") (map escapeCsvValue (v :: vs))).
    rewrite <- (append_empty_r (join _ _)), read_record by (by left).
    cbn [read app]. by rewrite last_removelast.
  - apply Forall_cons in Hne as [Hl Hne]. destruct line as [|v vs]; [done|].
    change (join (String newline "")
              (map (fun l => join (String comma "") (map escapeCsvValue l))
                   ((v :: vs) :: line' :: lines)))
      with (join (String comma "") (map escapeCsvValue (v :: vs))
            +:+ String newline
                  (join (String newline "")
                     (map (fun l => join (String comma "") (map escapeCsvValue l))
                          (line' :: lines)))).
    rewrite read_record by (right; eauto).
    cbn [read app].
    change (Ascii.eqb newline comma) with false. rewrite Ascii.eqb_refl. cbn match.
    rewrite IH by done. rewrite last_removelast, <- app_assoc. done.
Qed.

Lemma or_empty_default (o : option string) : or_empty o = default "" o.
Proof.
  unfold or_empty, truthy_string. destruct o as [z|]; [|done].
  cbn. destruct (decide (z = "")) as [->|Hne]; [done|].
  by rewrite bool_decide_eq_false_2.
Qed.

Lemma foldl_snoc {A B} (f : A → B) (l : list A) : ∀ acc,
  foldl (fun rows x => rows ++ [f x]) acc l = acc ++ map f l.
Proof.
  induction l as [|x l IH]; intros acc; cbn; [by rewrite app_nil_r|].
  by rewrite IH, <- app_assoc.
Qed.

End CsvFacts.

(** X23. [formatCSV] of no entries is the empty string; of one or more
    entries it is a text that reads back, field by field, as the header
    row followed by one row of ten values per entry, whatever commas,
    quotes and line feeds the values hold. *)
Theorem csv_export_reads_back
    (toISOString : Z → string) (JSON_stringify : list (string * MetaValue) → string)
    (e : LogEntry) (entries : list LogEntry) :
  LogFormatter.formatCSV toISOString JSON_stringify [] = ""
  ∧ CsvReader.parse (LogFormatter.formatCSV toISOString JSON_stringify (e :: entries))
    = LogFormatter.headers
      :: map (csv_fields toISOString JSON_stringify) (e :: entries).
Proof.
  split; [done|].
  unfold LogFormatter.formatCSV, CsvReader.parse.
  rewrite bool_decide_eq_false_2 by done.
  cbv zeta. rewrite foldl_snoc.
  assert (Hh : LogFormatter.join (String LogFormatter.comma "") LogFormatter.headers
               = LogFormatter.join (String LogFormatter.comma "")
                   (map LogFormatter.escapeCsvValue LogFormatter.headers)) by reflexivity.
  assert (Hr : ∀ x, LogFormatter.row toISOString JSON_stringify x
                    = map LogFormatter.escapeCsvValue
                        (csv_fields toISOString JSON_stringify x)).
  { intros x. unfold LogFormatter.row, csv_fields. rewrite !or_empty_default.
    by destruct (le_metadata x). }
  rewrite Hh.
  replace ([LogFormatter.join (String LogFormatter.comma "")
              (map LogFormatter.escapeCsvValue LogFormatter.headers)]
           ++ map (fun entry => LogFormatter.join (String LogFormatter.comma "")
                                  (LogFormatter.row toISOString JSON_stringify entry))
                  (e :: entries))
    with (map (fun l => LogFormatter.join (String LogFormatter.comma "")
                          (map LogFormatter.escapeCsvValue l))
              (LogFormatter.headers
               :: map (csv_fields toISOString JSON_stringify) (e :: entries))).
  - rewrite read_records; [done|].
    apply Forall_cons. split; [done|]. apply Forall_fmap, Forall_forall. by intros x _.
  - cbn [map app]. f_equal. rewrite map_map. f_equal; [by rewrite Hr|].
    apply map_ext. intros x. by rewrite Hr.
Qed.

(** ** SessionManager *)

(** X24. [new SessionManager()] never throws. It takes over the id
    of the stored session exactly when the store can be read and holds a
    session that started on the same calendar day, and then leaves the
    store as it is; otherwise it takes the fresh id and, where the write
    is accepted, stores a session with that id and its own start time. *)
Theorem page_reload_keeps_the_session_of_the_day
    (cal : SessionManager.Calendar) (self : nat) (start now : Z)
    (rd : SessionManager.Reading) (w : World) :
  let r := SessionManager.new cal self start now rd w in
  let known :=
    match ss_read_fault w, ss_item w with
    | None, Some (Parsed (Object session)) =>
        SessionManager.isSameDay cal (sd_startTime session) (Some now)
    | _, _ => false
    end in
  fst r = Normal tt
  ∧ SessionManager.getSessionStartTime (SessionManager.manager (snd r)) = start
  ∧ (if known
     then (∃ session,
             ss_item w = Some (Parsed (Object session))
             ∧ SessionManager.getSessionId (SessionManager.manager (snd r))
               = sd_id session)
          ∧ ss_item (SessionManager.browser (snd r)) = ss_item w
     else SessionManager.getSessionId (SessionManager.manager (snd r))
          = SessionManager.fresh rd
          ∧ (ss_write_fault w = None →
             ss_item (SessionManager.browser (snd r))
             = Some (Parsed (Object
                       (mkSessionData (SessionManager.fresh rd) (Some start)
                          (SessionManager.userAgent rd) (SessionManager.href rd)
                          None None))))).
Proof.
  intros r known. subst r.
  destruct (new_run cal self start now rd w) as (s & Hs & Hstart & Hid & Hitem & _).
  rewrite Hs. cbn [fst snd]. split; [done|]. split; [exact Hstart|].
  unfold SessionManager.getSessionId. rewrite Hid, Hitem. subst known.
  destruct (ss_read_fault w) as [v|]; [by split; [|intros ->]|].
  destruct (ss_item w) as [[e|[|session]]|];
    [by split; [|intros ->]|by split; [|intros ->]| |by split; [|intros ->]].
  destruct (SessionManager.isSameDay cal _ (Some now)); [|by split; [|intros ->]].
  split; [by exists session|done].
Qed.

Lemma page_reload_keeps_the_session_of_the_day_witness :
  let stored := mkSessionData "s-1" (Some 5%Z) "Mozilla/5.0"
                  "https://short.example/" None None in
  let w := set_ss_item (Some (Parsed (Object stored))) fresh_world in
  SessionManager.getSessionId
    (SessionManager.manager
       (snd (SessionManager.new plain_calendar 0 100 101 (reads "s-2") w)))
  = "s-1"
  ∧ SessionManager.getSessionId
      (SessionManager.manager
         (snd (SessionManager.new plain_calendar 0 86400000 86400001 (reads "s-2") w)))
    = "s-2".
Proof.
  intros stored w.
  destruct (page_reload_keeps_the_session_of_the_day plain_calendar 0 100 101
              (reads "s-2") w) as (_ & _ & [(session & Hs & Hid) _]).
  destruct (page_reload_keeps_the_session_of_the_day plain_calendar 0 86400000 86400001
              (reads "s-2") w) as (_ & _ & [Hnew Hsto]).
  split; [|exact Hnew].
  rewrite Hid. injection Hs as <-. reflexivity.
Defined.

(** X25. [renewSession] returns the fresh id and sets the start time
    to now, but the session it stores carries the start time from before
    the renewal: a manager built later resumes the renewed session exactly
    when its day is the day of that earlier start. *)
Theorem renewed_session_is_stored_under_the_old_start
    (cal : SessionManager.Calendar) (self : nat) (now start' now' : Z)
    (rd rd' : SessionManager.Reading) (s : SessionManager.Sys) :
  ss_write_fault (SessionManager.browser s) = None →
  ss_read_fault (SessionManager.browser s) = None →
  let r := SessionManager.renewSession now rd s in
  let reloaded :=
    snd (SessionManager.new cal self start' now' rd' (SessionManager.browser (snd r))) in
  fst r = Normal (SessionManager.fresh rd)
  ∧ SessionManager.getSessionId (SessionManager.manager (snd r)) = SessionManager.fresh rd
  ∧ SessionManager.getSessionStartTime (SessionManager.manager (snd r)) = now
  ∧ ss_item (SessionManager.browser (snd r))
    = Some (Parsed (Object
              (mkSessionData (SessionManager.fresh rd)
                 (Some (SessionManager.sessionStartTime (SessionManager.manager s)))
                 (SessionManager.userAgent rd) (SessionManager.href rd) None None)))
  ∧ SessionManager.getSessionId (SessionManager.manager reloaded)
    = if SessionManager.isSameDay cal
           (Some (SessionManager.sessionStartTime (SessionManager.manager s)))
           (Some now')
      then SessionManager.fresh rd else SessionManager.fresh rd'.
Proof.
  intros Hw Hr r reloaded. subst reloaded r.
  rewrite renewSession_run, createNewSession_run, Hw. cbn [fst snd SessionManager.browser
    SessionManager.manager SessionManager.in_browser].
  split; [done|]. split; [done|]. split; [done|]. split; [done|].
  destruct (new_run cal self start' now' rd'
              (set_ss_item
                 (Some (Parsed (Object
                    (mkSessionData (SessionManager.fresh rd)
                       (Some (SessionManager.sessionStartTime (SessionManager.manager s)))
                       (SessionManager.userAgent rd) (SessionManager.href rd) None None))))
                 (SessionManager.browser s)))
    as (s2 & Hs2 & _ & Hid & _).
  rewrite Hs2. cbn [snd]. unfold SessionManager.getSessionId. rewrite Hid.
  cbn [set_ss_item ss_read_fault ss_item sd_startTime sd_id].
  rewrite Hr. by destruct (SessionManager.isSameDay cal _ _).
Qed.

Lemma renewed_session_is_stored_under_the_old_start_witness :
  let s := snd (SessionManager.new plain_calendar 0 100 101 (reads "s-1") fresh_world) in
  let r := SessionManager.renewSession 86400005 (reads "s-2") s in
  SessionManager.getSessionStartTime (SessionManager.manager (snd r)) = 86400005%Z
  ∧ SessionManager.getSessionId
      (SessionManager.manager
         (snd (SessionManager.new plain_calendar 0 86400010 86400011 (reads "s-3")
                 (SessionManager.browser (snd r)))))
    = "s-3".
Proof.
  intros s r.
  destruct (renewed_session_is_stored_under_the_old_start plain_calendar 0 86400005
              86400010 86400011 (reads "s-2") (reads "s-3") s eq_refl eq_refl)
    as (_ & _ & Hstart & _ & Hid).
  split; [exact Hstart|exact Hid].
Defined.

(** X26. [updateSessionActivity] never throws, leaves the manager as
    it is, creates no session where none is stored, and does not change
    which session a manager built afterwards resumes. *)
Theorem activity_updates_keep_the_session
    (cal : SessionManager.Calendar) (self : nat) (now start' now' : Z)
    (activity : string) (rd : SessionManager.Reading) (s : SessionManager.Sys) :
  let r := SessionManager.updateSessionActivity now activity s in
  fst r = Normal tt
  ∧ SessionManager.manager (snd r) = SessionManager.manager s
  ∧ (ss_item (SessionManager.browser s) = None →
     ss_item (SessionManager.browser (snd r)) = None)
  ∧ SessionManager.getSessionId
      (SessionManager.manager
         (snd (SessionManager.new cal self start' now' rd (SessionManager.browser (snd r)))))
    = SessionManager.getSessionId
        (SessionManager.manager
           (snd (SessionManager.new cal self start' now' rd (SessionManager.browser s)))).
Proof.
  intros r.
  destruct (new_run cal self start' now' rd (SessionManager.browser (snd r)))
    as (s1 & Hs1 & _ & Hid1 & _).
  destruct (new_run cal self start' now' rd (SessionManager.browser s))
    as (s2 & Hs2 & _ & Hid2 & _).
  rewrite Hs1, Hs2. cbn [snd]. unfold SessionManager.getSessionId. rewrite Hid1, Hid2.
  clear Hs1 Hs2 Hid1 Hid2 s1 s2. subst r.
  unfold SessionManager.updateSessionActivity, try_catch, bind, SessionManager.getItem.
  destruct s as [m b]. cbn [SessionManager.browser SessionManager.manager].
  destruct (ss_read_fault b) as [v|] eqn:Hr; cbn; [by rewrite Hr|].
  destruct (ss_item b) as [[e|[|session]]|] eqn:Hi; cbn.
  - by rewrite Hr, Hi.
  - by rewrite Hr, Hi.
  - unfold SessionManager.setItem. cbn.
    destruct (ss_write_fault b); cbn; by rewrite Hr, ?Hi.
  - by rewrite Hr, Hi.
Qed.

(** X27. Where the removal is not refused, [clearSession] empties the
    store, so a manager built afterwards takes a fresh id; the manager
    that cleared keeps reporting its old id. *)
Theorem cleared_session_is_not_resumed
    (cal : SessionManager.Calendar) (self : nat) (start' now' : Z)
    (rd : SessionManager.Reading) (s : SessionManager.Sys) :
  ss_remove_fault (SessionManager.browser s) = None →
  let r := SessionManager.clearSession s in
  fst r = Normal tt
  ∧ SessionManager.getSessionId (SessionManager.manager (snd r))
    = SessionManager.getSessionId (SessionManager.manager s)
  ∧ ss_item (SessionManager.browser (snd r)) = None
  ∧ SessionManager.getSessionId
      (SessionManager.manager
         (snd (SessionManager.new cal self start' now' rd (SessionManager.browser (snd r)))))
    = SessionManager.fresh rd.
Proof.
  intros Hrm r.
  destruct (new_run cal self start' now' rd (SessionManager.browser (snd r)))
    as (s1 & Hs1 & _ & Hid1 & _).
  rewrite Hs1. cbn [snd]. unfold SessionManager.getSessionId. rewrite Hid1.
  clear Hs1 Hid1 s1. subst r.
  unfold SessionManager.clearSession, try_catch, SessionManager.removeItem.
  rewrite Hrm. cbn. by destruct (ss_read_fault _).
Qed.

Lemma cleared_session_is_not_resumed_witness :
  let s := snd (SessionManager.new plain_calendar 0 100 101 (reads "s-1") fresh_world) in
  ss_item (SessionManager.browser s)
  = Some (Parsed (Object
            (mkSessionData "s-1" (Some 100%Z) "Mozilla/5.0"
               "https://short.example/" None None)))
  ∧ SessionManager.getSessionId
      (SessionManager.manager
         (snd (SessionManager.new plain_calendar 0 200 201 (reads "s-2")
                 (SessionManager.browser (snd (SessionManager.clearSession s))))))
    = "s-2".
Proof.
  intros s. split; [reflexivity|].
  destruct (cleared_session_is_not_resumed plain_calendar 0 200 201 (reads "s-2") s eq_refl)
    as (_ & _ & _ & H).
  exact H.
Defined.
